(** * novel_parser: the resilient crawl engine

    A shallow embedding of the crawl engine of the novel_parser repository
    and the properties its specification states about it.

    - [JS]           the JavaScript values the engine computes with;
    - [Pool]         parser/browserComponents/browser_init.js (session pool),
                     every call completing;
    - [Launch]       the same file with the calls that fail: the launch of
                     the browser, the opening and the set-up of a tab, and
                     the closing of the browser;
    - [Fetch]        parser/browserComponents/fetch_page.js (retrying fetch)
                     over [Pool];
    - [Retry]        the same function over [Launch]: a session that cannot
                     be renewed ends the call;
    - [Decoder]      scripts/cleaners/solveFont.js and decodeObfuscatedText.js;
    - [Orchestrator] parser/parser_init.js with the status writes of
                     parser/components/discover_novel.js and the statements
                     of db/db_init.js, every session renewal completing;
    - [Batch]        the same run with the set-up and the renewals that
                     fail, and with row ids read as JavaScript numbers;
    - [Text]         parser/textProcessing/readability.js ([cleanText]);
    - [Titles]       scripts/cleaners/ChapterCleaning.js ([cleanTitle]);
    - [Contents]     parser/components/discover_novel.js (table of contents);
    - [Files]        parser/textProcessing/font_decoding.js (font files) and
                     src/app/components/epubGenerator.js (names and markup);
    - [Api]          src/app/api/novels (adding a novel).

    Modelling conventions.  The engine is sequential ([await] suspends one
    single thread of control), so every [async] function is a function from
    the state before the call to the state after it.  Everything the
    browser, the clock, the file system and [Math.random] contribute enters
    as an explicit argument (a random draw is a rational [r], [0 <= r < 1]).
    Navigation and reads of a page may throw, and so may reading and
    parsing a font file.  [Pool], [Fetch] and [Orchestrator] describe the
    calls in which starting the browser, opening a tab and closing one
    complete; [Launch], [Retry] and [Batch] add the calls in which they
    throw, each failure being an input of the call.  Timers only pass time
    and are recorded as events where the fetch protocol waits. *)

From Stdlib Require Import ZArith QArith Qround List Sorted String Ascii Lia DecimalString.
From stdpp Require Import base gmap list.

(** ** JavaScript values *)

Module JS.

(** A string is its sequence of UTF-16 code units. *)
Abbreviation jsstring := (list N).

Definition js (s : string) : jsstring := map N_of_ascii (list_ascii_of_string s).

(** [s.startsWith(prefix)] *)
Fixpoint startsWith (s prefix : jsstring) {struct prefix} : bool :=
  match prefix, s with
  | [], _ => true
  | p :: prefix', c :: s' => (p =? c)%N && startsWith s' prefix'
  | _ :: _, [] => false
  end.

(** [s.includes(needle)] *)
Fixpoint includes (s needle : jsstring) : bool :=
  startsWith s needle ||
  match s with
  | [] => false
  | _ :: s' => includes s' needle
  end.

(** A non-empty string is truthy. *)
Definition truthy (s : jsstring) : bool :=
  match s with [] => false | _ :: _ => true end.

(** [`${z}`] for an integer [z]. *)
Definition Number_toString (z : Z) : jsstring :=
  js (NilZero.string_of_int (Z.to_int z)).

Definition Math_floor (q : Q) : Z := Qfloor q.

(** [Math.round] rounds half up. *)
Definition Math_round (q : Q) : Z := Qfloor (q + (1 # 2)).

(** Thrown values: [new Error(message)], and the [TypeError] the runtime
    raises when a property of [undefined] is read. *)
Inductive JsError :=
| Error (message : jsstring)
| TypeError (message : jsstring).

Definition message (e : JsError) : jsstring :=
  match e with Error m | TypeError m => m end.

(** The completion of a call: a value, or a thrown error. *)
Inductive Completion (A : Type) :=
| Normal (value : A)
| Throw (error : JsError).

Arguments Normal {A} value.
Arguments Throw {A} error.

Definition bind {A B} (c : Completion A) (k : A -> Completion B) : Completion B :=
  match c with
  | Normal a => k a
  | Throw e => Throw e
  end.

Definition cannotReadProperty (property : string) : JsError :=
  TypeError (js "Cannot read properties of undefined (reading '" ++ js property ++ js "')").

(** The number JavaScript gets for a 64-bit integer [z] of the store: the
    nearest double, a tie going to the even mantissa.  Up to 2^53 in
    absolute value the number is [z] itself. *)
Definition toNumber (z : Z) : Z :=
  let a := Z.abs z in
  let e := (Z.log2 a - 52)%Z in
  if (e <=? 0)%Z then z
  else
    let q := Z.shiftr a e in
    let r := Z.land a (Z.ones e) in
    let half := Z.shiftl 1 (e - 1) in
    let q' := if (r <? half)%Z then q
              else if (half <? r)%Z then (q + 1)%Z
              else if Z.even q then q else (q + 1)%Z in
    (Z.sgn z * Z.shiftl q' e)%Z.

Definition isHighSurrogate (c : N) : bool := ((55296 <=? c) && (c <=? 56319))%N.

Definition isLowSurrogate (c : N) : bool := ((56320 <=? c) && (c <=? 57343))%N.

(** [s.toWellFormed()]: every surrogate that has no partner becomes
    U+FFFD.  It is the string a TEXT column holds for [s]: the store
    keeps UTF-8, and the conversion writes U+FFFD for such a code unit. *)
Fixpoint toWellFormed (s : jsstring) : jsstring :=
  match s with
  | [] => []
  | c :: s' =>
      if isHighSurrogate c
      then match s' with
           | d :: s'' =>
               if isLowSurrogate d then c :: d :: toWellFormed s''
               else 65533%N :: toWellFormed s'
           | [] => [65533%N]
           end
      else if isLowSurrogate c then 65533%N :: toWellFormed s'
      else c :: toWellFormed s'
  end.

End JS.

Notation "x <- c ;; k" := (JS.bind c (fun x => k))
  (at level 100, c at next level, right associativity).

(** ** browser_init.js: the session pool *)

Module Pool.
Import JS.

Definition Page := nat.

Record Viewport := { width : Z; height : Z }.

Record Fingerprint := {
  userAgent : jsstring;
  viewport : option Viewport;
  languages : option (list jsstring);
  timezone : option jsstring;
  platform : jsstring;
  webgl_vendor : jsstring;
  webgl_renderer : jsstring
}.

Definition viewports : list Viewport :=
  [ {| width := 1920; height := 1080 |};
    {| width := 1366; height := 768 |};
    {| width := 1536; height := 864 |};
    {| width := 1440; height := 900 |};
    {| width := 2560; height := 1440 |} ].

Definition languageLists : list (list jsstring) :=
  [ [js "en-US"; js "en"]; [js "en-GB"; js "en"];
    [js "en-CA"; js "en"]; [js "en-AU"; js "en"] ].

Definition timezones : list jsstring :=
  [ js "America/New_York"; js "America/Chicago"; js "America/Los_Angeles";
    js "America/Denver"; js "Europe/London"; js "Europe/Paris" ].

(** [xs[Math.floor(r * xs.length)]] *)
Definition pick {A} (xs : list A) (r : Q) : option A :=
  match Math_floor (r * inject_Z (Z.of_nat (length xs))) with
  | Zneg _ => None
  | i => xs !! Z.to_nat i
  end.

(** What the world contributes to one new session: the user-agent string
    of the [user-agents] package, three random draws and the clock. *)
Record Creation := {
  agent : jsstring;
  rViewport : Q;
  rLanguages : Q;
  rTimezone : Q;
  now : Z
}.

Definition generateFingerprint (c : Creation) : Fingerprint :=
  {| userAgent := agent c;
     viewport := pick viewports (rViewport c);
     languages := pick languageLists (rLanguages c);
     timezone := pick timezones (rTimezone c);
     platform := js "Win32";
     webgl_vendor := js "Intel Inc.";
     webgl_renderer := js "Intel Iris OpenGL Engine" |}.

(** The value [pagePool] keeps per page. *)
Record PageData := { uses : Z; created : Z; fingerprint : Fingerprint }.

Definition MAX_PAGES : nat := 3.

(** The module's variables.  [pagePool] is a [Map]: its entries in
    insertion order, one per key.  [MAX_PAGE_USES] is a [const] evaluated
    once, when the module is loaded.  [nextPage] is the next object
    [browser.newPage()] hands out. *)
Record State := {
  MAX_PAGE_USES : Z;
  browserInstance : bool;
  pagePool : list (Page * PageData);
  nextPage : Page
}.

(** Loading the module, [r] being the draw of line 23. *)
Definition load (r : Q) : State :=
  {| MAX_PAGE_USES := Math_floor (r * 6) + 10;
     browserInstance := false;
     pagePool := [];
     nextPage := 0 |}.

Definition Map_has (page : Page) (pool : list (Page * PageData)) : bool :=
  existsb (fun e => Nat.eqb (fst e) page) pool.

Definition Map_get (page : Page) (pool : list (Page * PageData)) : option PageData :=
  snd <$> find (fun e => Nat.eqb (fst e) page) pool.

Definition Map_delete (page : Page) (pool : list (Page * PageData)) : list (Page * PageData) :=
  filter (fun e => fst e ≠ page) pool.

Fixpoint Map_set (page : Page) (data : PageData) (pool : list (Page * PageData))
  : list (Page * PageData) :=
  match pool with
  | [] => [(page, data)]
  | (p, d) :: rest =>
      if Nat.eqb p page then (page, data) :: rest else (p, d) :: Map_set page data rest
  end.

Definition initBrowser (s : State) : State :=
  {| MAX_PAGE_USES := MAX_PAGE_USES s;
     browserInstance := true;
     pagePool := pagePool s;
     nextPage := nextPage s |}.

(** The handler of the browser's [disconnected] event. *)
Definition disconnected (s : State) : State :=
  {| MAX_PAGE_USES := MAX_PAGE_USES s;
     browserInstance := false;
     pagePool := [];
     nextPage := nextPage s |}.

(** Lines 256-262: the first entry below the ceiling is used once more. *)
Fixpoint reuse (max : Z) (pool : list (Page * PageData))
  : option (Page * list (Page * PageData)) :=
  match pool with
  | [] => None
  | (page, data) :: rest =>
      if (uses data <? max)%Z
      then Some (page, (page, {| uses := uses data + 1;
                                 created := created data;
                                 fingerprint := fingerprint data |}) :: rest)
      else match reuse max rest with
           | Some (found, rest') => Some (found, (page, data) :: rest')
           | None => None
           end
  end.

(** Lines 266-272: every page at its ceiling is closed and deleted. *)
Definition dropExhausted (max : Z) (pool : list (Page * PageData)) : list (Page * PageData) :=
  filter (fun e => ¬ (max <= uses (snd e))%Z) pool.

(** Lines 275-280: at capacity, the first key of the map goes. *)
Definition dropOldest (pool : list (Page * PageData)) : list (Page * PageData) :=
  if (MAX_PAGES <=? length pool)%nat then tail pool else pool.

(** Lines 342-346. *)
Definition register (c : Creation) (page : Page) (pool : list (Page * PageData))
  : list (Page * PageData) :=
  Map_set page {| uses := 1; created := now c; fingerprint := generateFingerprint c |} pool.

Definition getPage (forceNew : bool) (c : Creation) (s0 : State) : Page * State :=
  let s := initBrowser s0 in
  match (if forceNew then None else reuse (MAX_PAGE_USES s) (pagePool s)) with
  | Some (page, pool) =>
      (page, {| MAX_PAGE_USES := MAX_PAGE_USES s;
                browserInstance := browserInstance s;
                pagePool := pool;
                nextPage := nextPage s |})
  | None =>
      let room := dropOldest (dropExhausted (MAX_PAGE_USES s) (pagePool s)) in
      let page := nextPage s in
      (page, {| MAX_PAGE_USES := MAX_PAGE_USES s;
                browserInstance := browserInstance s;
                pagePool := register c page room;
                nextPage := S page |})
  end.

(** Lines 416-418. *)
Definition forget (page : Page) (s : State) : State :=
  {| MAX_PAGE_USES := MAX_PAGE_USES s;
     browserInstance := browserInstance s;
     pagePool := if Map_has page (pagePool s) then Map_delete page (pagePool s) else pagePool s;
     nextPage := nextPage s |}.

Definition recyclePage (page : Page) (c : Creation) (s : State) : Page * State :=
  getPage true c (forget page s).

Record Stats := { stat_uses : Z; maxUses : Z; shouldRecycle : bool; age : option Z }.

(** [time] is [Date.now()] at the call. *)
Definition getPageStats (page : Page) (time : Z) (s : State) : Stats :=
  match Map_get page (pagePool s) with
  | None =>
      {| stat_uses := 0; maxUses := MAX_PAGE_USES s; shouldRecycle := true; age := None |}
  | Some data =>
      {| stat_uses := uses data;
         maxUses := MAX_PAGE_USES s;
         shouldRecycle := (MAX_PAGE_USES s <=? uses data)%Z;
         age := Some (time - created data)%Z |}
  end.

Definition closeBrowser (s : State) : State :=
  if browserInstance s
  then {| MAX_PAGE_USES := MAX_PAGE_USES s;
          browserInstance := false;
          pagePool := [];
          nextPage := nextPage s |}
  else s.

(** The calls the module exports, and the event it listens to. *)
Inductive Call :=
| CallGetPage (forceNew : bool) (c : Creation)
| CallRecyclePage (page : Page) (c : Creation)
| CallCloseBrowser
| BrowserDisconnected.

Definition exec (s : State) (call : Call) : State :=
  match call with
  | CallGetPage forceNew c => snd (getPage forceNew c s)
  | CallRecyclePage page c => snd (recyclePage page c s)
  | CallCloseBrowser => closeBrowser s
  | BrowserDisconnected => disconnected s
  end.

(** The module's state after a history of calls. *)
Definition run (calls : list Call) (s : State) : State := fold_left exec calls s.

(** The values [pagePool] takes while [getPage] runs: after the reuse, or
    after the exhausted pages are deleted, after the oldest is deleted and
    after the new page is registered. *)
Definition poolsOfGetPage (forceNew : bool) (c : Creation) (s : State)
  : list (list (Page * PageData)) :=
  match (if forceNew then None else reuse (MAX_PAGE_USES s) (pagePool s)) with
  | Some (_, pool) => [pool]
  | None =>
      let exhaustedGone := dropExhausted (MAX_PAGE_USES s) (pagePool s) in
      let room := dropOldest exhaustedGone in
      [exhaustedGone; room; register c (nextPage s) room]
  end.

(** The values [pagePool] takes during a call, in order. *)
Definition poolsOf (s : State) (call : Call) : list (list (Page * PageData)) :=
  match call with
  | CallGetPage forceNew c => poolsOfGetPage forceNew c s
  | CallRecyclePage page c => pagePool (forget page s) :: poolsOfGetPage true c (forget page s)
  | CallCloseBrowser => [pagePool (closeBrowser s)]
  | BrowserDisconnected => [pagePool (disconnected s)]
  end.

(** Every value [pagePool] takes from state [s] on, through [calls]. *)
Fixpoint history (calls : list Call) (s : State) : list (list (Page * PageData)) :=
  match calls with
  | [] => [pagePool s]
  | call :: rest => pagePool s :: poolsOf s call ++ history rest (exec s call)
  end.

(** Page handles are handed out in increasing order: every page of the
    pool was handed out before [nextPage]. *)
Definition handlesBelow (s : State) : Prop :=
  Forall (fun e => (fst e < nextPage s)%nat) (pagePool s).

(** A [Map] holds one entry per key. *)
Definition oneEntryPerPage (s : State) : Prop := NoDup (map fst (pagePool s)).

(** The entry of a page that is used once more (line 258). *)
Definition used (d : PageData) : PageData :=
  {| uses := uses d + 1; created := created d; fingerprint := fingerprint d |}.

(** Every pooled page has been used at least once and at most
    [MAX_PAGE_USES] times, and the ceiling is at least 2. *)
Definition counted (s : State) : Prop :=
  (2 <= MAX_PAGE_USES s)%Z /\
  Forall (fun e => (1 <= uses (snd e) <= MAX_PAGE_USES s)%Z) (pagePool s).

(** Pages are pooled only while the browser runs. *)
Definition attached (s : State) : Prop := browserInstance s = false -> pagePool s = [].

End Pool.

(** ** browser_init.js: sessions that fail to start *)

Module Launch.
Import JS Pool.

(** What the world contributes to one attempt to open a session: the
    error of [puppeteer.launch] (line 80), of [browser.newPage] (line 284)
    or of a setting of the new page (lines 287-306) when one of them
    throws, and what a session that starts is made of. *)
Record Opening := {
  launchError : option JsError;
  newPageError : option JsError;
  settingsError : option JsError;
  creation : Creation
}.

(** Nothing fails. *)
Definition opens (o : Opening) : Prop :=
  launchError o = None /\ newPageError o = None /\ settingsError o = None.

(** The errors an opening can throw. *)
Definition failures (o : Opening) : list (option JsError) :=
  [launchError o; newPageError o; settingsError o].

(** [initBrowser()], lines 72-119: a running browser is returned as it
    is; the error of a launch that fails is thrown again (line 117) and
    [browserInstance] stays unset. *)
Definition initBrowser (o : Opening) (s : State) : Completion unit * State :=
  if browserInstance s then (Normal tt, s)
  else match launchError o with
       | Some error => (Throw error, s)
       | None => (Normal tt, Pool.initBrowser s)
       end.

Definition pooling (pool : list (Page * PageData)) (next : Page) (s : State) : State :=
  {| MAX_PAGE_USES := MAX_PAGE_USES s;
     browserInstance := browserInstance s;
     pagePool := pool;
     nextPage := next |}.

(** [getPage(forceNew)], lines 250-354.  [initBrowser] is awaited outside
    the [try] block; inside it the pages at their ceiling and the oldest
    page are deleted before the new page is asked for, so an error of
    [newPage] or of a setting (thrown again at line 352) finds them gone;
    a page whose settings failed was handed out and is not registered. *)
Definition getPage (forceNew : bool) (o : Opening) (s0 : State) : Completion Page * State :=
  match initBrowser o s0 with
  | (Throw error, s) => (Throw error, s)
  | (Normal _, s) =>
      match (if forceNew then None else reuse (MAX_PAGE_USES s) (pagePool s)) with
      | Some (page, pool) => (Normal page, pooling pool (nextPage s) s)
      | None =>
          let room := dropOldest (dropExhausted (MAX_PAGE_USES s) (pagePool s)) in
          let page := nextPage s in
          match newPageError o, settingsError o with
          | Some error, _ => (Throw error, pooling room page s)
          | None, Some error => (Throw error, pooling room (S page) s)
          | None, None => (Normal page, pooling (register (creation o) page room) (S page) s)
          end
      end
  end.

(** [recyclePage(page)], lines 413-427: the page is deleted and closed
    (an error of [page.close()] is caught) before [getPage(true)], whose
    error is not caught. *)
Definition recyclePage (page : Page) (o : Opening) (s : State) : Completion Page * State :=
  getPage true o (forget page s).

(** [closeBrowser()], lines 451-467; [closeError] is the error of
    [browserInstance.close()] when it rejects: line 461 is then skipped,
    the error is logged and the function returns. *)
Definition closeBrowser (closeError : option JsError) (s : State) : State :=
  if browserInstance s
  then {| MAX_PAGE_USES := MAX_PAGE_USES s;
          browserInstance := match closeError with Some _ => true | None => false end;
          pagePool := [];
          nextPage := nextPage s |}
  else s.

(** The calls the module exports, with what the world answers, and the
    event it listens to. *)
Inductive Call :=
| CallGetPage (forceNew : bool) (o : Opening)
| CallRecyclePage (page : Page) (o : Opening)
| CallCloseBrowser (closeError : option JsError)
| BrowserDisconnected.

Definition exec (s : State) (call : Call) : State :=
  match call with
  | CallGetPage forceNew o => snd (getPage forceNew o s)
  | CallRecyclePage page o => snd (recyclePage page o s)
  | CallCloseBrowser closeError => closeBrowser closeError s
  | BrowserDisconnected => disconnected s
  end.

(** The module's state after a history of calls, failed ones included. *)
Definition run (calls : list Call) (s : State) : State := fold_left exec calls s.

End Launch.

(** ** fetch_page.js: the retrying fetch *)

Module Fetch.
Import JS.

Record Response := { status : Z }.

(** What the page shows during one attempt: the completion of
    [currentPage.goto] ([None] is a [null] response), of
    [currentPage.title()], of [handleCaptcha] (which catches every error
    and answers with a boolean), of [currentPage.content()] and of the
    evaluated, lower-cased body text; [replacement] is what the world
    contributes to the session created if this attempt recycles. *)
Record Visit := {
  goto : Completion (option Response);
  title : Completion jsstring;
  captchaSolved : bool;
  content : Completion jsstring;
  bodyText : Completion jsstring;
  replacement : Pool.Creation
}.

(** What the world contributes to one call of [fetchPage]. *)
Record Env := {
  time : Z;
  firstReplacement : Pool.Creation;
  visit : Z -> Visit
}.

Record FetchResult := { html : jsstring; page : Pool.Page; recycled : bool }.

(** What a call does besides computing its result, in order. *)
Inductive Event :=
| Fetching (attempt : Z)
| BlockWait (attempt : Z) (baseDelay : Z)
| Backoff (attempt : Z) (baseDelay : Z)
| Recycled (old new : Pool.Page).

(** Lines 119-132. *)
Definition isBlocked (bodyText html : jsstring) : bool :=
  includes bodyText (js "access denied for your ip") ||
  includes bodyText (js "your request was blocked") ||
  includes bodyText (js "rate limit exceeded") ||
  includes bodyText (js "too many requests from your ip") ||
  ((length html <? 5000)%nat &&
   (includes bodyText (js "access denied") || includes bodyText (js "blocked"))).

(** Lines 41-132, the part of the [try] block that looks at the page: the
    html with the verdict of the block heuristic, or the error thrown.
    Waiting for a challenge title to change (lines 51-64) and
    [simulateHumanBehavior] catch their own errors and change nothing
    here. *)
Definition visitPage (url : jsstring) (v : Visit) : Completion (jsstring * bool) :=
  response <- goto v ;;
  _ <- title v ;;
  match response with
  | None => Throw (Error (js "No response received"))
  | Some response =>
      if (status response =? 404)%Z then Throw (Error (js "Page not found: " ++ url))
      else if (500 <=? status response)%Z
      then Throw (Error (js "Server error (" ++ Number_toString (status response) ++ js ")"))
      else if negb (captchaSolved v)
      then Throw (Error (js "CAPTCHA detected but could not be solved"))
      else
        html <- content v ;;
        if negb (truthy html) || (length html <? 100)%nat
        then Throw (Error (js "Page content too short or empty"))
        else
          bodyText <- bodyText v ;;
          if includes bodyText (js "Enable JavaScript and cookies to continue")
          then Throw (Error (js "Cloudflare challenge failed (JS disabled or detected)"))
          else Normal (html, isBlocked bodyText html)
  end.

(** The variables of [fetchPage] that live across attempts, with the pool
    and the events so far. *)
Record Loop := {
  currentPage : Pool.Page;
  wasRecycled : bool;
  lastError : option JsError;
  pool : Pool.State;
  events : list Event
}.

Definition log (e : Event) (l : Loop) : Loop :=
  {| currentPage := currentPage l;
     wasRecycled := wasRecycled l;
     lastError := lastError l;
     pool := pool l;
     events := events l ++ [e] |}.

Definition caught (error : JsError) (l : Loop) : Loop :=
  {| currentPage := currentPage l;
     wasRecycled := wasRecycled l;
     lastError := Some error;
     pool := pool l;
     events := events l |}.

(** [currentPage = await recyclePage(currentPage); wasRecycled = true] *)
Definition recycle (c : Pool.Creation) (l : Loop) : Loop :=
  let fresh := Pool.recyclePage (currentPage l) c (pool l) in
  {| currentPage := fst fresh;
     wasRecycled := true;
     lastError := lastError l;
     pool := snd fresh;
     events := events l ++ [Recycled (currentPage l) (fst fresh)] |}.

(** Lines 158-183, the [catch] block. *)
Definition handler (retries attempt : Z) (c : Pool.Creation) (error : JsError) (l0 : Loop) : Loop :=
  let l := caught error l0 in
  if (attempt <? retries - 1)%Z
  then
    let l := log (Backoff attempt (Z.min (2000 * 2 ^ attempt) 10000)) l in
    if (attempt =? 1)%Z && negb (wasRecycled l) then recycle c l else l
  else l.

(** One turn of the [for] loop either returns from [fetchPage] or goes on
    to the next attempt. *)
Inductive Turn :=
| Return (result : FetchResult) (l : Loop)
| Continue (l : Loop).

(** Lines 33-183, the body of the loop. *)
Definition attemptOnce (url : jsstring) (retries attempt : Z) (v : Visit) (l0 : Loop) : Turn :=
  let l := log (Fetching attempt) l0 in
  match visitPage url v with
  | Normal (html, blocked) =>
      if blocked && (attempt <? retries - 1)%Z
      then Continue (recycle (replacement v) (log (BlockWait attempt ((attempt + 1) * 5000)) l))
      else Return {| html := html; page := currentPage l; recycled := wasRecycled l |} l
  | Throw error => Continue (handler retries attempt (replacement v) error l)
  end.

(** Line 186. *)
Definition exhausted (url : jsstring) (retries : Z) (lastError : option JsError) : JsError :=
  match lastError with
  | Some error =>
      Error (js "Failed to fetch " ++ url ++ js " after " ++ Number_toString retries
             ++ js " attempts: " ++ message error)
  | None => cannotReadProperty "message"
  end.

(** [for (let attempt = 0; attempt < retries; attempt++)] followed by line
    186; [remaining] counts the turns the loop still has, [attempt] is the
    loop variable. *)
Fixpoint fetchLoop (url : jsstring) (retries : Z) (visit : Z -> Visit)
    (remaining : nat) (attempt : Z) (l : Loop) : Completion FetchResult * Loop :=
  match remaining with
  | O => (Throw (exhausted url retries (lastError l)), l)
  | S remaining' =>
      match attemptOnce url retries attempt (visit attempt) l with
      | Return result l' => (Normal result, l')
      | Continue l' => fetchLoop url retries visit remaining' (attempt + 1)%Z l'
      end
  end.

(** Lines 20-30. *)
Definition enter (page : Pool.Page) (env : Env) (pool : Pool.State) : Loop :=
  let l := {| currentPage := page; wasRecycled := false; lastError := None;
              pool := pool; events := [] |} in
  if Pool.shouldRecycle (Pool.getPageStats page (time env) pool)
  then recycle (firstReplacement env) l
  else l.

(** A call of [fetchPage] seen from outside: how it completes, the pool
    it leaves and what it did. *)
Record Outcome := {
  completion : Completion FetchResult;
  poolAfter : Pool.State;
  trace : list Event
}.

(** [fetchPage(url, page, retries)]; [page] is [None] when the caller
    passes none. *)
Definition fetchPage (url : jsstring) (page : option Pool.Page) (retries : Z)
    (env : Env) (pool : Pool.State) : Outcome :=
  if negb (truthy url)
  then {| completion := Throw (Error (js "Invalid URL provided"));
          poolAfter := pool; trace := [] |}
  else
    match page with
    | None => {| completion := Throw (Error (js "Page object is required"));
                 poolAfter := pool; trace := [] |}
    | Some page =>
        let done := fetchLoop url retries (visit env) (Z.to_nat retries) 0 (enter page env pool) in
        {| completion := fst done;
           poolAfter := Fetch.pool (snd done);
           trace := events (snd done) |}
    end.

(** The attempts a call made: the navigations it started. *)
Definition isFetching (e : Event) : bool :=
  match e with Fetching _ => true | _ => false end.

Definition attemptsMade (es : list Event) : nat := length (List.filter isFetching es).

(** Events none of which starts a navigation. *)
Definition quiet (es : list Event) : Prop := Forall (fun e => isFetching e = false) es.

(** The loop's variables as the turn for [attempt + k] finds them, when
    the [k] turns before it all went on to a next attempt. *)
Fixpoint loopAt (url : jsstring) (retries : Z) (visit : Z -> Visit)
    (k : nat) (attempt : Z) (l : Loop) : option Loop :=
  match k with
  | O => Some l
  | S k' =>
      match attemptOnce url retries attempt (visit attempt) l with
      | Return _ _ => None
      | Continue l' => loopAt url retries visit k' (attempt + 1)%Z l'
      end
  end.

(** The words of the specification. *)

Definition contains (s phrase : jsstring) : Prop :=
  exists pre post, s = pre ++ phrase ++ post.

Definition explicitPhrases : list jsstring :=
  [ js "access denied for your ip"; js "your request was blocked";
    js "rate limit exceeded"; js "too many requests from your ip" ].

Definition genericPhrases : list jsstring := [ js "access denied"; js "blocked" ].

(** What the events of a call are counted by. *)

Definition isRecycled (e : Event) : bool :=
  match e with Recycled _ _ => true | _ => false end.

Definition isBlockWait (e : Event) : bool :=
  match e with BlockWait _ _ => true | _ => false end.

Definition isWait (e : Event) : bool :=
  match e with BlockWait _ _ | Backoff _ _ => true | _ => false end.

Definition count (f : Event -> bool) (es : list Event) : nat := length (List.filter f es).

(** The attempt numbers of the navigations, in order. *)
Definition attemptsOf (es : list Event) : list Z :=
  flat_map (fun e => match e with Fetching attempt => [attempt] | _ => [] end) es.


(** The pool holds at most [MAX_PAGES] pages and has the ceiling of the
    pool [s0] the call found. *)
Definition roomy (s0 : Pool.State) (l : Loop) : Prop :=
  (length (Pool.pagePool (pool l)) <= Pool.MAX_PAGES)%nat /\
  Pool.MAX_PAGE_USES (pool l) = Pool.MAX_PAGE_USES s0.

(** Before the turn [attempt]: the navigations so far are numbered from 0
    on, one wait was logged for each, and a session was opened for every
    block and at most once more. *)
Record paced (attempt : Z) (l : Loop) : Prop := {
  paced_attempts : attemptsOf (events l) = map Z.of_nat (seq 0 (Z.to_nat attempt));
  paced_waits : count isWait (events l) = Z.to_nat attempt;
  paced_sessions :
    (count isRecycled (events l)
       <= count isBlockWait (events l) + (if wasRecycled l then 1 else 0))%nat
}.

(** After the last turn, [attempt]: its navigation is the last event, and
    one wait less than navigations was logged. *)
Definition finished (retries attempt : Z) (l : Loop) : Prop :=
  attemptsOf (events l) = map Z.of_nat (seq 0 (Z.to_nat (attempt + 1))) /\
  count isWait (events l) = Z.to_nat attempt /\
  (count isRecycled (events l)
     <= count isBlockWait (events l) + (if wasRecycled l then 1 else 0))%nat /\
  last (events l) = Some (Fetching attempt) /\
  (0 <= attempt < retries)%Z.

End Fetch.

(** ** fetch_page.js: the fetch when a session fails to start *)

Module Retry.
Import JS Fetch.

(** What the world contributes to one turn of the loop: what the page
    shows (the [replacement] of a [Visit] plays no part here) and the two
    sessions the turn may ask for, after a block (line 144) and after the
    second failure (line 179). *)
Record Attempt := {
  shown : Visit;
  afterBlock : Launch.Opening;
  afterFailure : Launch.Opening
}.

(** What the world contributes to one call of [fetchPage]: the clock, the
    session asked for on entry (line 28) and the turns. *)
Record Env := {
  clock : Z;
  onEntry : Launch.Opening;
  attempts : Z -> Attempt
}.

(** [currentPage = await recyclePage(currentPage); wasRecycled = true]:
    the two assignments are made when [recyclePage] returns.  When it
    throws nothing is assigned, and the pool is the one the failed call
    leaves: the old page is gone from it. *)
Definition recycle (o : Launch.Opening) (l : Loop) : Completion unit * Loop :=
  match Launch.recyclePage (currentPage l) o (pool l) with
  | (Normal fresh, s) =>
      (Normal tt,
       {| currentPage := fresh;
          wasRecycled := true;
          lastError := lastError l;
          pool := s;
          events := events l ++ [Recycled (currentPage l) fresh] |})
  | (Throw error, s) =>
      (Throw error,
       {| currentPage := currentPage l;
          wasRecycled := wasRecycled l;
          lastError := lastError l;
          pool := s;
          events := events l |})
  end.

(** One turn of the [for] loop returns from [fetchPage], goes on to the
    next attempt, or lets an error escape from the [catch] block. *)
Inductive Step :=
| Returns (result : FetchResult) (l : Loop)
| GoesOn (l : Loop)
| Escapes (error : JsError) (l : Loop).

(** Lines 158-183, the [catch] block: an error of the [recyclePage] of
    line 179 is thrown inside the handler and leaves [fetchPage]. *)
Definition handler (retries attempt : Z) (o : Launch.Opening) (error : JsError) (l0 : Loop)
  : Step :=
  let l := caught error l0 in
  if (attempt <? retries - 1)%Z
  then
    let l := log (Backoff attempt (Z.min (2000 * 2 ^ attempt) 10000)) l in
    if (attempt =? 1)%Z && negb (wasRecycled l)
    then match recycle o l with
         | (Normal _, l') => GoesOn l'
         | (Throw error', l') => Escapes error' l'
         end
    else GoesOn l
  else GoesOn l.

(** Lines 33-183, the body of the loop: an error of the [recyclePage] of
    line 144 is thrown inside the [try] block and caught as the failure
    of the attempt. *)
Definition attemptOnce (url : jsstring) (retries attempt : Z) (a : Attempt) (l0 : Loop) : Step :=
  let l := log (Fetching attempt) l0 in
  match visitPage url (shown a) with
  | Normal (html, blocked) =>
      if blocked && (attempt <? retries - 1)%Z
      then match recycle (afterBlock a) (log (BlockWait attempt ((attempt + 1) * 5000)) l) with
           | (Normal _, l') => GoesOn l'
           | (Throw error, l') => handler retries attempt (afterFailure a) error l'
           end
      else Returns {| html := html; page := currentPage l; recycled := wasRecycled l |} l
  | Throw error => handler retries attempt (afterFailure a) error l
  end.

(** [for (let attempt = 0; attempt < retries; attempt++)] followed by line
    186; [remaining] counts the turns the loop still has. *)
Fixpoint fetchLoop (url : jsstring) (retries : Z) (attempts : Z -> Attempt)
    (remaining : nat) (attempt : Z) (l : Loop) : Completion FetchResult * Loop :=
  match remaining with
  | O => (Throw (exhausted url retries (lastError l)), l)
  | S remaining' =>
      match attemptOnce url retries attempt (attempts attempt) l with
      | Returns result l' => (Normal result, l')
      | GoesOn l' => fetchLoop url retries attempts remaining' (attempt + 1)%Z l'
      | Escapes error l' => (Throw error, l')
      end
  end.

(** Lines 20-30: an error of the [recyclePage] of line 28 leaves
    [fetchPage] before any attempt. *)
Definition enter (page : Pool.Page) (env : Env) (s : Pool.State) : Completion unit * Loop :=
  let l := {| currentPage := page; wasRecycled := false; lastError := None;
              pool := s; events := [] |} in
  if Pool.shouldRecycle (Pool.getPageStats page (clock env) s)
  then recycle (onEntry env) l
  else (Normal tt, l).

(** [fetchPage(url, page, retries)]; [page] is [None] when the caller
    passes none. *)
Definition fetchPage (url : jsstring) (page : option Pool.Page) (retries : Z)
    (env : Env) (s : Pool.State) : Outcome :=
  if negb (truthy url)
  then {| completion := Throw (Error (js "Invalid URL provided"));
          poolAfter := s; trace := [] |}
  else
    match page with
    | None => {| completion := Throw (Error (js "Page object is required"));
                 poolAfter := s; trace := [] |}
    | Some page =>
        match enter page env s with
        | (Throw error, l) =>
            {| completion := Throw error; poolAfter := pool l; trace := events l |}
        | (Normal _, l) =>
            let done := fetchLoop url retries (attempts env) (Z.to_nat retries) 0 l in
            {| completion := fst done;
               poolAfter := pool (snd done);
               trace := events (snd done) |}
        end
    end.

(** The loop's variables as the turn for [attempt + k] finds them, when
    the [k] turns before it all went on to a next attempt. *)
Fixpoint loopAt (url : jsstring) (retries : Z) (attempts : Z -> Attempt)
    (k : nat) (attempt : Z) (l : Loop) : option Loop :=
  match k with
  | O => Some l
  | S k' =>
      match attemptOnce url retries attempt (attempts attempt) l with
      | GoesOn l' => loopAt url retries attempts k' (attempt + 1)%Z l'
      | Returns _ _ | Escapes _ _ => None
      end
  end.

(** The loop's variables as the turn for attempt [k] of a call finds
    them. *)
Definition reaches (url : jsstring) (page : Pool.Page) (retries : Z) (env : Env)
    (s : Pool.State) (k : nat) (l : Loop) : Prop :=
  exists l0, enter page env s = (Normal tt, l0) /\
             loopAt url retries (attempts env) k 0 l0 = Some l.

(** A session could not be started, on entry or after the second failure,
    and its error is [error]. *)
Definition sessionFailed (env : Env) (error : JsError) : Prop :=
  Some error ∈ Launch.failures (onEntry env) \/
  Some error ∈ Launch.failures (afterFailure (attempts env 1)).

(** Before the turn [attempt]: the navigations so far are numbered from 0
    on, and each was followed by one wait or by two. *)
Record paced (attempt : Z) (l : Loop) : Prop := {
  paced_attempts : attemptsOf (events l) = map Z.of_nat (seq 0 (Z.to_nat attempt));
  paced_waits :
    (Z.to_nat attempt <= count isWait (events l) <= 2 * Z.to_nat attempt)%nat
}.

(** How a call ends that made [n] navigations: by its last navigation,
    or by the error of the session asked for at line 179. *)
Inductive ending (env : Env) (n : nat) (o : Outcome) : Prop :=
| ended_by_navigation :
    last (trace o) = Some (Fetching (Z.of_nat n - 1)) ->
    (n - 1 <= count isWait (trace o) <= 2 * (n - 1))%nat ->
    ending env n o
| ended_by_session error :
    n = 2%nat ->
    last (trace o) = Some (Backoff 1 4000) ->
    Some error ∈ Launch.failures (afterFailure (attempts env 1)) ->
    completion o = Throw error ->
    ending env n o.

End Retry.

(** ** solveFont.js and decodeObfuscatedText.js: the glyph decoder *)

Module Decoder.
Import JS.

(** The metrics of a glyph object; [None] is a property that is
    [undefined]. *)
Record Glyph := {
  xMin : option Q;
  xMax : option Q;
  yMin : option Q;
  yMax : option Q;
  advanceWidth : option Q
}.

(** A parsed font: [font.tables.cmap.glyphIndexMap] as its entries in the
    order [for ... in] visits them, and [font.glyphs.get]. *)
Record Font := {
  glyphIndexMap : list (N * nat);
  glyphs : nat -> Glyph
}.

(** [String.fromCharCode(charCode)] *)
Definition fromCharCode (charCode : N) : jsstring := [(charCode mod 65536)%N].

(** [`${n}`] where [None] is [NaN]. *)
Definition toString (n : option Z) : jsstring :=
  match n with
  | Some z => Number_toString z
  | None => js "NaN"
  end.

(** [a || b] on values that are strings or [undefined]. *)
Definition orElse (a b : option jsstring) : option jsstring :=
  match a with
  | Some s => if truthy s then a else b
  | None => b
  end.

Definition FULL_ALPHABET : jsstring :=
  js "abcdefghijklmnopqrstuvwxyzABCDEFGHIJKLMNOPQRSTUVWXYZ".

(** [FULL_ALPHABET.split('')] *)
Definition ALL_LETTERS : list jsstring := map (fun c => [c]) FULL_ALPHABET.

Definition TOTAL_LETTERS : nat := length ALL_LETTERS.

(** [/[A-Za-z]/.test(char)] for a string of one code unit. *)
Definition isLatinLetter (char : N) : bool :=
  ((65 <=? char) && (char <=? 90) || (97 <=? char) && (char <=? 122))%N.

(** Lines 69-76 of solveFont.js, one turn: the last letter that is no key,
    and the last letter that is no value. *)
Definition scan (existingKeys existingValues : gset jsstring)
    (missing : option jsstring * option jsstring) (char : jsstring)
  : option jsstring * option jsstring :=
  (if bool_decide (char ∈ existingKeys) then fst missing else Some char,
   if bool_decide (char ∈ existingValues) then snd missing else Some char).

(** Lines 52-85 of solveFont.js.  The decoder is an object: a finite map
    from property names to strings. *)
Definition completeGap (decoder : gmap jsstring jsstring) : gmap jsstring jsstring :=
  let mapKeys := fst <$> map_to_list decoder in
  let mapValues := snd <$> map_to_list decoder in
  if (length mapKeys =? TOTAL_LETTERS - 1)%nat && (length mapValues =? TOTAL_LETTERS - 1)%nat
  then
    let existingKeys : gset jsstring := list_to_set mapKeys in
    let existingValues : gset jsstring := list_to_set mapValues in
    match fold_left (scan existingKeys existingValues) ALL_LETTERS (None, None) with
    | (Some missingKey, Some missingValue) =>
        if truthy missingKey && truthy missingValue
        then <[missingKey := missingValue]> decoder
        else decoder
    | _ => decoder
    end
  else decoder.

Record DecodeResult := { text : jsstring; success : bool }.

Section WithFonts.

(** The catalog public/fonts/mapping.js, an object from geometry keys to
    letters, and the fonts on disk: [readFont path] is the completion of
    lines 6-13 of solveFont.js ([fs.readFileSync], [opentype.parse] and the
    reads of the parsed font's tables), which throw when the file is
    missing or is no font. *)
Variable fontMapping : jsstring -> option jsstring.
Variable readFont : jsstring -> Completion Font.

(** Lines 16-36 of solveFont.js: the catalog's letter for a glyph. *)
Definition realLetter (glyph : Glyph) : option jsstring :=
  let width := Math_round (default 0 (xMax glyph) - default 0 (xMin glyph))%Q in
  let height := Math_round (default 0 (yMax glyph) - default 0 (yMin glyph))%Q in
  let advWidth := Math_round <$> advanceWidth glyph in
  let key1 := Number_toString width ++ js "x" ++ Number_toString height in
  let key2 := toString advWidth ++ js "x" ++ Number_toString width ++ js "x"
              ++ Number_toString height in
  orElse (fontMapping key1) (fontMapping key2).

(** Lines 15-50 of solveFont.js, one turn. *)
Definition resolve (font : Font) (decoder : gmap jsstring jsstring) (entry : N * nat)
  : gmap jsstring jsstring :=
  let inputChar := fromCharCode (fst entry) in
  match realLetter (glyphs font (snd entry)) with
  | Some letter => if truthy letter then <[inputChar := letter]> decoder else decoder
  | None => decoder
  end.

(** The geometry lookup, lines 13-50. *)
Definition lookupPhase (font : Font) : gmap jsstring jsstring :=
  fold_left (resolve font) (glyphIndexMap font) ∅.

Definition solveFont (fontPath : jsstring) : Completion (gmap jsstring jsstring) :=
  font <- readFont fontPath ;;
  Normal (completeGap (lookupPhase font)).

(** Lines 75-90 of decodeObfuscatedText.js, one turn:
    the text decoded so far and [anyCharWasDecoded]. *)
Definition decodeChar (glyphToCharMap : gmap jsstring jsstring)
    (acc : jsstring * bool) (char : N) : jsstring * bool :=
  if negb (isLatinLetter char) then (fst acc ++ [char], snd acc)
  else
    match glyphToCharMap !! [char] with
    | Some letter => if truthy letter then (fst acc ++ letter, true) else acc
    | None => acc
    end.

(** Lines 59-100 of decodeObfuscatedText.js: the function once
    [solveFont] has returned the map. *)
Definition decodeWith (glyphToCharMap : gmap jsstring jsstring) (encodedText : jsstring)
  : DecodeResult :=
  let mapIsValid := (0 <? length (map_to_list glyphToCharMap))%nat in
  if negb (truthy encodedText) || negb mapIsValid
  then {| text := encodedText; success := false |}
  else
    let decoded := fold_left (decodeChar glyphToCharMap) encodedText ([], false) in
    {| text := fst decoded; success := mapIsValid && snd decoded |}.

Definition decodeObfuscatedText (encodedText fontName : jsstring) : Completion DecodeResult :=
  glyphToCharMap <- solveFont fontName ;;
  Normal (decodeWith glyphToCharMap encodedText).

End WithFonts.

(** The words of the specification. *)

(** A character of the text is substituted via the map. *)
Definition substitutes (m : gmap jsstring jsstring) (encodedText : jsstring) : Prop :=
  exists char letter,
    char ∈ encodedText /\ isLatinLetter char = true /\
    m !! [char] = Some letter /\ letter <> [].

(** The text with every letter replaced by its image, a letter without
    one being dropped. *)
Definition substituted (m : gmap jsstring jsstring) (encodedText : jsstring) : jsstring :=
  flat_map (fun char => if isLatinLetter char then default [] (m !! [char]) else [char])
           encodedText.

(** A map that pairs Latin letters with Latin letters, no letter being
    the image of two. *)
Definition letterPairs (m : gmap jsstring jsstring) : Prop :=
  map_Forall (fun k v => k ∈ ALL_LETTERS /\ v ∈ ALL_LETTERS) m /\
  NoDup (snd <$> map_to_list m).

(** Some glyph of the font has a letter in the catalog. *)
Definition hits (fontMapping : jsstring -> option jsstring) (font : Font) : Prop :=
  exists entry letter,
    entry ∈ glyphIndexMap font /\
    realLetter fontMapping (glyphs font (snd entry)) = Some letter /\ letter <> [].

(** A total bijection over the 52 letters. *)
Definition totalBijection (m : gmap jsstring jsstring) : Prop :=
  (forall k, is_Some (m !! k) <-> k ∈ ALL_LETTERS) /\
  (forall v, (exists k, m !! k = Some v) <-> v ∈ ALL_LETTERS) /\
  (forall k1 k2 v, m !! k1 = Some v -> m !! k2 = Some v -> k1 = k2).

(** Two notions the proofs use: a character the map substitutes, and the
    last letter of a list that a set lacks. *)

Definition hit (m : gmap jsstring jsstring) (char : N) : bool :=
  isLatinLetter char && truthy (default [] (m !! [char])).

Definition lastMissing (existing : gset jsstring) (letters : list jsstring)
    (missing : option jsstring) : option jsstring :=
  fold_left (fun missing char => if bool_decide (char ∈ existing) then missing else Some char)
            letters missing.

(** What a map does to one character when it pairs every letter with one
    letter. *)
Definition image (m : gmap jsstring jsstring) (char : N) : N :=
  if isLatinLetter char
  then match m !! [char] with Some [c] => c | _ => char end
  else char.

End Decoder.

(** ** parser_init.js: the batch run over novels and chapters *)

Module Orchestrator.
Import JS.

(** [STATUS] *)
Definition PENDING : Z := 0.
Definition SUCCESS : Z := 1.
Definition ERROR : Z := -1.
Definition PROCESSING : Z := 2.

(** The rows of the two tables of db_init.js, with the columns the run
    reads or writes ([None] is [NULL]); [raws_title], [author],
    [description], [cover_image] and the timestamps are left out. *)
Record Novel := {
  novel_id : Z;
  novel_url : jsstring;
  novel_title : option jsstring;
  total_chapters : Z;
  novel_status : Z
}.

Record Chapter := {
  chapter_id : Z;
  chapter_novel : Z;
  chapter_url : jsstring;
  chapter_title : option jsstring;
  chapter_content : option jsstring;
  chapter_number : Z;
  chapter_status : Z
}.

Record Db := { novels : list Novel; chapters : list Chapter }.

Inductive Table := Novels | Chapters.

(** The [status] of the row [id] of a table, if there is such a row. *)
Definition statusOf (t : Table) (id : Z) (db : Db) : option Z :=
  match t with
  | Novels => novel_status <$> find (fun n => (novel_id n =? id)%Z) (novels db)
  | Chapters => chapter_status <$> find (fun c => (chapter_id c =? id)%Z) (chapters db)
  end.

(** [SELECT * FROM novels WHERE status = ?] *)
Definition getNovelsByStatus (status : Z) (db : Db) : list Novel :=
  List.filter (fun n => (novel_status n =? status)%Z) (novels db).

(** [SELECT * FROM novels WHERE id = ?] *)
Definition getNovelById (id : Z) (db : Db) : option Novel :=
  find (fun n => (novel_id n =? id)%Z) (novels db).

(** [UPDATE novels SET status = ? WHERE id = ?] *)
Definition updateNovelStatus (status id : Z) (db : Db) : Db :=
  {| novels := map (fun n => if (novel_id n =? id)%Z
                             then {| novel_id := novel_id n; novel_url := novel_url n;
                                     novel_title := novel_title n;
                                     total_chapters := total_chapters n;
                                     novel_status := status |}
                             else n) (novels db);
     chapters := chapters db |}.

(** [UPDATE novels SET title = @title, ..., total_chapters =
    @total_chapters, status = @status, ... WHERE id = @id] *)
Definition updateNovel (id : Z) (title : option jsstring) (total status : Z) (db : Db) : Db :=
  {| novels := map (fun n => if (novel_id n =? id)%Z
                             then {| novel_id := novel_id n; novel_url := novel_url n;
                                     novel_title := title;
                                     total_chapters := total;
                                     novel_status := status |}
                             else n) (novels db);
     chapters := chapters db |}.

(** [SELECT * FROM chapters WHERE status = ?] *)
Definition getChaptersByStatus (status : Z) (db : Db) : list Chapter :=
  List.filter (fun c => (chapter_status c =? status)%Z) (chapters db).

(** The id [AUTOINCREMENT] gives the next chapter: one more than every id
    in the table. *)
Definition nextChapterId (db : Db) : Z :=
  fold_right Z.max 0%Z (map chapter_id (chapters db)) + 1.

(** [INSERT INTO chapters (novel_id, url, title, content, chapter_number,
    status) VALUES (...)]; [url] is [UNIQUE]. *)
Definition insertChapter (novel : Z) (url : jsstring) (title : option jsstring)
    (content : option jsstring) (number status : Z) (db : Db) : Completion Db :=
  if existsb (fun c => bool_decide (chapter_url c = url)) (chapters db)
  then Throw (Error (js "UNIQUE constraint failed: chapters.url"))
  else Normal {| novels := novels db;
                 chapters := chapters db ++
                   [{| chapter_id := nextChapterId db; chapter_novel := novel;
                       chapter_url := url; chapter_title := title;
                       chapter_content := content; chapter_number := number;
                       chapter_status := status |}] |}.

(** [UPDATE chapters SET title = @title, content = @content, status =
    @status, ... WHERE id = @id] *)
Definition updateChapter (id : Z) (title content : option jsstring) (status : Z) (db : Db) : Db :=
  {| novels := novels db;
     chapters := map (fun c => if (chapter_id c =? id)%Z
                               then {| chapter_id := chapter_id c;
                                       chapter_novel := chapter_novel c;
                                       chapter_url := chapter_url c;
                                       chapter_title := title;
                                       chapter_content := content;
                                       chapter_number := chapter_number c;
                                       chapter_status := status |}
                               else c) (chapters db) |}.

(** [UPDATE chapters SET status = ? WHERE id = ?] *)
Definition updateChapterStatus (status id : Z) (db : Db) : Db :=
  {| novels := novels db;
     chapters := map (fun c => if (chapter_id c =? id)%Z
                               then {| chapter_id := chapter_id c;
                                       chapter_novel := chapter_novel c;
                                       chapter_url := chapter_url c;
                                       chapter_title := chapter_title c;
                                       chapter_content := chapter_content c;
                                       chapter_number := chapter_number c;
                                       chapter_status := status |}
                               else c) (chapters db) |}.

(** One write of a [status]: the row, the status the row had when the
    statement ran, and the status written. *)
Record Write := { table : Table; row : Z; before : option Z; after : Z }.

(** The store during a run, and the status writes so far. *)
Record Run := { db : Db; writes : list Write }.

Definition wrote (t : Table) (id status : Z) (db' : Db) (r : Run) : Run :=
  {| db := db';
     writes := writes r ++ [{| table := t; row := id;
                               before := statusOf t id (db r); after := status |}] |}.

(** A link of the table of contents, and what discovery returns. *)
Record ChapterLink := { link_url : jsstring; link_title : jsstring; order : Z }.

Record NovelData := { title : jsstring; links : list ChapterLink }.

Record NovelResult := {
  novel_success : bool;
  novel_data : option NovelData;
  novel_error : jsstring
}.

Record ChapterResult := {
  chapter_success : bool;
  result_title : jsstring;
  result_content : jsstring
}.

Section WithSites.

(** What the sites answer: lines 38-71 of discover_novel.js (the fetch and
    the extraction of title and table of contents) for a novel row, and
    the [try] block of discover_chapter.js for a chapter row; either may
    throw. *)
Variable scrapeNovel : Novel -> Completion NovelData.
Variable scrapeChapter : Chapter -> Completion ChapterResult.

(** Lines 92-101 of discover_novel.js, the [catch] block. *)
Definition novelFailed (bookId : Z) (error : JsError) (r : Run) : NovelResult * Run :=
  ({| novel_success := false; novel_data := None; novel_error := message error |},
   wrote Novels bookId (-1) (updateNovelStatus (-1) bookId (db r)) r).

(** [discoverNovel(bookId, page)] *)
Definition discoverNovel (bookId : Z) (r : Run) : Completion NovelResult * Run :=
  if (bookId =? 0)%Z then (Throw (Error (js "Book ID is required")), r)
  else
    let found :=
      match getNovelById bookId (db r) with
      | Some novel =>
          if truthy (novel_url novel) then Normal novel
          else Throw (Error (js "Novel with ID " ++ Number_toString bookId
                             ++ js " not found or has no URL"))
      | None => Throw (Error (js "Novel with ID " ++ Number_toString bookId
                              ++ js " not found or has no URL"))
      end in
    match (novel <- found ;; data <- scrapeNovel novel ;; Normal (novel, data)) with
    | Normal (novel, data) =>
        let title := if truthy (title data) then Some (title data) else novel_title novel in
        let total := Z.of_nat (length (links data)) in
        (Normal {| novel_success := true; novel_data := Some data; novel_error := [] |},
         wrote Novels bookId 1 (updateNovel bookId title total 1 (db r)) r)
    | Throw error =>
        let failed := novelFailed bookId error r in
        (Normal (fst failed), snd failed)
    end.

(** Lines 115-131 of parser_init.js, one turn: an insert that fails is
    ignored. *)
Definition insertLink (novel : Z) (r : Run) (link : ChapterLink) : Run :=
  match insertChapter novel (link_url link) (Some (link_title link)) None (order link)
                      PENDING (db r) with
  | Normal db' => {| db := db'; writes := writes r |}
  | Throw _ => r
  end.

(** Lines 88-155 of parser_init.js, one turn of [ParseNovels].  The
    bookkeeping of the session (lines 92-96 and 151-154), the delays and
    the two counters touch neither the store nor the flow and are left
    out. *)
Definition parseNovel (r : Run) (novel : Novel) : Run :=
  let r := wrote Novels (novel_id novel) PROCESSING
                 (updateNovelStatus PROCESSING (novel_id novel) (db r)) r in
  match discoverNovel (novel_id novel) r with
  | (Normal result, r) =>
      if novel_success result
      then
        match novel_data result with
        | Some data => fold_left (insertLink (novel_id novel)) (links data) r
        | None => r
        end
      else wrote Novels (novel_id novel) ERROR
                 (updateNovelStatus ERROR (novel_id novel) (db r)) r
  | (Throw _, r) =>
      wrote Novels (novel_id novel) ERROR (updateNovelStatus ERROR (novel_id novel) (db r)) r
  end.

Definition ParseNovels (novels : list Novel) (r : Run) : Run := fold_left parseNovel novels r.

(** [discoverChapter(chapterObj, page)] *)
Definition discoverChapter (chapterObj : Chapter) : Completion ChapterResult :=
  if negb (truthy (chapter_url chapterObj))
  then Throw (Error (js "Invalid chapter object: URL is required"))
  else
    match scrapeChapter chapterObj with
    | Normal result => Normal result
    | Throw error =>
        Normal {| chapter_success := false;
                  result_title :=
                    match chapter_title chapterObj with
                    | Some title => if truthy title then title else js "Error"
                    | None => js "Error"
                    end;
                  result_content := [] |}
    end.

(** Lines 178-229 of parser_init.js, one turn of [ParseChapters]. *)
Definition parseChapter (r : Run) (chapter : Chapter) : Run :=
  let r := wrote Chapters (chapter_id chapter) PROCESSING
                 (updateChapterStatus PROCESSING (chapter_id chapter) (db r)) r in
  match discoverChapter chapter with
  | Normal result =>
      if chapter_success result
      then wrote Chapters (chapter_id chapter) SUCCESS
                 (updateChapter (chapter_id chapter) (Some (result_title result))
                                (Some (result_content result)) SUCCESS (db r)) r
      else wrote Chapters (chapter_id chapter) ERROR
                 (updateChapterStatus ERROR (chapter_id chapter) (db r)) r
  | Throw _ =>
      wrote Chapters (chapter_id chapter) ERROR
            (updateChapterStatus ERROR (chapter_id chapter) (db r)) r
  end.

Definition ParseChapters (chapters : list Chapter) (r : Run) : Run :=
  fold_left parseChapter chapters r.

(** [ParserWrapper()], from the store it finds. *)
Definition ParserWrapper (store : Db) : Run :=
  let r := {| db := store; writes := [] |} in
  let pendingNovels := getNovelsByStatus PENDING (db r) in
  let r := if (0 <? length pendingNovels)%nat then ParseNovels pendingNovels r else r in
  let pendingChapters := getChaptersByStatus PENDING (db r) in
  if (0 <? length pendingChapters)%nat then ParseChapters pendingChapters r else r.

End WithSites.

(** The words of the specification. *)

(** The status changes of one row, in order. *)
Definition concerns (t : Table) (id : Z) (w : Write) : bool :=
  match table w, t with
  | Novels, Novels | Chapters, Chapters => (row w =? id)%Z
  | _, _ => false
  end.

Definition historyOf (t : Table) (id : Z) (ws : list Write) : list (option Z * Z) :=
  map (fun w => (before w, after w)) (List.filter (concerns t id) ws).

(** PENDING to PROCESSING and then to one of SUCCESS and ERROR (which
    [ParseNovels] writes once more after [discoverNovel] wrote it), or no
    change at all. *)
Inductive lifecycle : list (option Z * Z) -> Prop :=
| untouched : lifecycle []
| succeeded : lifecycle [(Some PENDING, PROCESSING); (Some PROCESSING, SUCCESS)]
| failed : lifecycle [(Some PENDING, PROCESSING); (Some PROCESSING, ERROR)]
| failedAgain :
    lifecycle [(Some PENDING, PROCESSING); (Some PROCESSING, ERROR); (Some ERROR, ERROR)].

(** PENDING to ERROR at once, without PROCESSING. *)
Definition refused : list (option Z * Z) := [(Some PENDING, ERROR)].

(** The primary keys. *)
Definition keyed (store : Db) : Prop :=
  NoDup (map novel_id (novels store)) /\ NoDup (map chapter_id (chapters store)).

(** A row has reached the end of its processing. *)
Definition settled (status : option Z) : Prop :=
  status = Some SUCCESS \/ status = Some ERROR.

(** What the proofs say of one turn of a loop, and of a whole loop. *)

Definition transition (w : Write) : option Z * Z := (before w, after w).

(** A row keeps its status from one store to a later one, or is a chapter
    that was inserted in between, as PENDING. *)
Definition grows (t : Table) (id : Z) (d d' : Db) : Prop :=
  statusOf t id d' = statusOf t id d \/
  (t = Chapters /\ statusOf t id d = None /\ statusOf t id d' = Some PENDING).

Definition sameRow (t : Table) (id : Z) (t' : Table) (id' : Z) : bool :=
  match t, t' with
  | Novels, Novels | Chapters, Chapters => (id' =? id)%Z
  | _, _ => false
  end.

(** A statement sets the status of the row [id] of table [t] and nothing
    else that the run looks at. *)
Definition sets (t : Table) (id status : Z) (d d' : Db) : Prop :=
  (forall t' id',
     statusOf t' id' d' = if sameRow t id t' id' then Some status else statusOf t' id' d) /\
  map novel_id (novels d') = map novel_id (novels d) /\
  map chapter_id (chapters d') = map chapter_id (chapters d).

(** A turn takes the row [id] of table [t] through writes of a given
    [shape] and leaves every other row alone. *)
Record advances (shape : list (option Z * Z) -> Prop) (t : Table) (id : Z) (r r' : Run)
  : Prop := {
  adv_writes :
    exists ws, writes r' = writes r ++ ws /\ ws <> [] /\
               Forall (fun w => concerns t id w = true) ws /\
               shape (map transition ws);
  adv_settled : settled (statusOf t id (db r'));
  adv_frame : forall t' id', (t' <> t \/ id' <> id) -> grows t' id' (db r) (db r');
  adv_keyed : keyed (db r) -> keyed (db r')
}.

(** A loop takes the rows [ids] of table [t] through writes of a given
    [shape] and leaves every other row alone. *)
Record batch (shape : list (option Z * Z) -> Prop) (t : Table) (ids : list Z) (r r' : Run)
  : Prop := {
  batch_writes :
    exists ws, writes r' = writes r ++ ws /\
               (forall t' id', (t' <> t \/ id' ∉ ids) -> historyOf t' id' ws = []) /\
               (forall id, id ∈ ids ->
                  historyOf t id ws <> [] /\ shape (historyOf t id ws));
  batch_settled : forall id, id ∈ ids -> settled (statusOf t id (db r'));
  batch_frame : forall t' id', (t' <> t \/ id' ∉ ids) -> grows t' id' (db r) (db r');
  batch_keyed : keyed (db r) -> keyed (db r')
}.

(** What identifies a chapter row: the columns no statement of the run
    sets. *)
Definition identity (c : Chapter) : Z * Z * jsstring * Z :=
  (chapter_id c, chapter_novel c, chapter_url c, chapter_number c).

(** A later store holds the rows of an earlier one, in place, and keeps
    the chapter urls apart if they were. *)
Record extends (d d' : Db) : Prop := {
  ext_novel_ids : map novel_id (novels d') = map novel_id (novels d);
  ext_novel_urls : map novel_url (novels d') = map novel_url (novels d);
  ext_chapters : exists added, map identity (chapters d') = map identity (chapters d) ++ added;
  ext_urls : NoDup (map chapter_url (chapters d)) -> NoDup (map chapter_url (chapters d'))
}.

End Orchestrator.

(** ** parser_init.js: the batch run with its sessions *)

Module Batch.
Import JS Orchestrator.

(** The rows as JavaScript gets them from a [SELECT]: every INTEGER column
    arrives as a number. *)
Definition readNovel (n : Novel) : Novel :=
  {| novel_id := toNumber (novel_id n);
     novel_url := novel_url n;
     novel_title := novel_title n;
     total_chapters := toNumber (total_chapters n);
     novel_status := toNumber (novel_status n) |}.

Definition readChapter (c : Chapter) : Chapter :=
  {| chapter_id := toNumber (chapter_id c);
     chapter_novel := toNumber (chapter_novel c);
     chapter_url := chapter_url c;
     chapter_title := chapter_title c;
     chapter_content := chapter_content c;
     chapter_number := toNumber (chapter_number c);
     chapter_status := toNumber (chapter_status c) |}.

(** What the session contributes to one turn of a loop: whether
    [getPageStats] says the page shall be recycled (lines 92-93 and
    182-183), the error of the [recyclePage] that follows when it throws
    (lines 95 and 185), the draw of line 151 and the error of the
    [recyclePage] of line 153 when it throws. *)
Record Session := {
  stale : bool;
  renewalError : option JsError;
  draw : Q;
  secondRenewalError : option JsError
}.

(** The turn starts: the page need not be recycled, or [recyclePage]
    returns. *)
Definition renews (s : Session) : Prop :=
  (if stale s then renewalError s else None) = None.

(** [for] over [items]; a turn that throws ends the loop. *)
Fixpoint each {Item} (turn : Run -> Item -> Completion unit * Run) (items : list Item) (r : Run)
  : Completion unit * Run :=
  match items with
  | [] => (Normal tt, r)
  | item :: rest =>
      match turn r item with
      | (Normal _, r') => each turn rest r'
      | (Throw error, r') => (Throw error, r')
      end
  end.

Section WithSites.

(** What the sites answer, as in [Orchestrator], and the sessions. *)
Variable scrapeNovel : Novel -> Completion NovelData.
Variable scrapeChapter : Chapter -> Completion ChapterResult.
Variable novelSession : Novel -> Session.
Variable chapterSession : Chapter -> Session.

(** The error of [initBrowser()] or of [getPage()] (lines 31-32 and
    49-50) when one of them throws. *)
Variable setupError : option JsError.

(** [discoverNovel(bookId, page)]: the row it finds is read as every
    row. *)
Definition discoverNovel (bookId : Z) (r : Run) : Completion NovelResult * Run :=
  Orchestrator.discoverNovel (fun novel => scrapeNovel (readNovel novel)) bookId r.

(** Lines 144-155 of parser_init.js, the [catch] block of [ParseNovels]:
    an error of the [recyclePage] of line 153 leaves the loop. *)
Definition novelCaught (novel : Novel) (r : Run) : Completion unit * Run :=
  let r := wrote Novels (novel_id novel) ERROR
                 (updateNovelStatus ERROR (novel_id novel) (db r)) r in
  if negb (Qle_bool (draw (novelSession novel)) (1 # 2))
  then match secondRenewalError (novelSession novel) with
       | Some error => (Throw error, r)
       | None => (Normal tt, r)
       end
  else (Normal tt, r).

(** Lines 88-155 of parser_init.js, one turn of [ParseNovels]: the
    session is looked at inside the [try] block, before the row is
    marked. *)
Definition parseNovel (r : Run) (novel : Novel) : Completion unit * Run :=
  match (if stale (novelSession novel) then renewalError (novelSession novel) else None) with
  | Some _ => novelCaught novel r
  | None =>
      let r := wrote Novels (novel_id novel) PROCESSING
                     (updateNovelStatus PROCESSING (novel_id novel) (db r)) r in
      match discoverNovel (novel_id novel) r with
      | (Normal result, r) =>
          (Normal tt,
           if novel_success result
           then
             match novel_data result with
             | Some data => fold_left (insertLink (novel_id novel)) (links data) r
             | None => r
             end
           else wrote Novels (novel_id novel) ERROR
                      (updateNovelStatus ERROR (novel_id novel) (db r)) r)
      | (Throw _, r) => novelCaught novel r
      end
  end.

Definition ParseNovels (novels : list Novel) (r : Run) : Completion unit * Run :=
  each parseNovel novels r.

(** Lines 178-229 of parser_init.js, one turn of [ParseChapters]: when the
    session cannot be renewed the [catch] block writes ERROR (line 224);
    otherwise the turn is the one of [Orchestrator].  The [catch] block
    asks for no session, so the loop is never left by an error. *)
Definition parseChapter (r : Run) (chapter : Chapter) : Run :=
  match (if stale (chapterSession chapter)
         then renewalError (chapterSession chapter) else None) with
  | Some _ =>
      wrote Chapters (chapter_id chapter) ERROR
            (updateChapterStatus ERROR (chapter_id chapter) (db r)) r
  | None => Orchestrator.parseChapter scrapeChapter r chapter
  end.

Definition ParseChapters (chapters : list Chapter) (r : Run) : Run :=
  fold_left parseChapter chapters r.

(** Lines 25-40 of [ParserWrapper()]: the novels; the boolean is
    [browserInitialized]. *)
Definition novelsPhase (r : Run) : Completion bool * Run :=
  let pendingNovels := map readNovel (getNovelsByStatus PENDING (db r)) in
  if (0 <? length pendingNovels)%nat
  then
    match setupError with
    | Some error => (Throw error, r)
    | None =>
        match ParseNovels pendingNovels r with
        | (Normal _, r') => (Normal true, r')
        | (Throw error, r') => (Throw error, r')
        end
    end
  else (Normal false, r).

(** Lines 43-58: the chapters. *)
Definition chaptersPhase (browserInitialized : bool) (r : Run) : Completion unit * Run :=
  let pendingChapters := map readChapter (getChaptersByStatus PENDING (db r)) in
  if (0 <? length pendingChapters)%nat
  then
    match (if browserInitialized then None else setupError) with
    | Some error => (Throw error, r)
    | None => (Normal tt, ParseChapters pendingChapters r)
    end
  else (Normal tt, r).

(** [ParserWrapper()], from the store it finds: how it completes, and the
    store it leaves with the status writes it made.  An error is thrown
    again by line 64; [closeBrowser] in the [finally] block touches no
    row and throws nothing. *)
Definition ParserWrapper (store : Db) : Completion unit * Run :=
  match novelsPhase {| db := store; writes := [] |} with
  | (Throw error, r) => (Throw error, r)
  | (Normal browserInitialized, r) => chaptersPhase browserInitialized r
  end.

End WithSites.

(** Every id of the store is a number JavaScript has exactly: it is read
    as it was written. *)
Definition exactIds (d : Db) : Prop :=
  Forall (fun n => toNumber (novel_id n) = novel_id n) (novels d) /\
  Forall (fun c => toNumber (chapter_id c) = chapter_id c) (chapters d).

(** Number.MAX_SAFE_INTEGER *)
Definition MAX_SAFE_INTEGER : Z := 2 ^ 53 - 1.

End Batch.

(** ** readability.js: cleaning extracted text *)

Module Text.
Import JS.

(** The code units [\s] matches and [trim] strips: WhiteSpace and
    LineTerminator of ECMAScript (tab to carriage return, space, no-break
    space, U+1680, U+2000 to U+200A, U+2028, U+2029, U+202F, U+205F,
    U+3000 and U+FEFF). *)
Definition isWhiteSpace (c : N) : bool :=
  ((9 <=? c) && (c <=? 13) || (c =? 32) || (c =? 160) || (c =? 5760) ||
   (8192 <=? c) && (c <=? 8202) || (c =? 8232) || (c =? 8233) || (c =? 8239) ||
   (c =? 8287) || (c =? 12288) || (c =? 65279))%N.

(** [s.trimStart()] *)
Fixpoint trimStart (s : jsstring) : jsstring :=
  match s with
  | [] => []
  | c :: s' => if isWhiteSpace c then trimStart s' else s
  end.

(** [s.trimEnd()]: a character stays when it is no white space or
    something stays behind it. *)
Fixpoint trimEnd (s : jsstring) : jsstring :=
  match s with
  | [] => []
  | c :: s' =>
      match trimEnd s' with
      | [] => if isWhiteSpace c then [] else [c]
      | kept => c :: kept
      end
  end.

(** [s.trim()] *)
Definition trim (s : jsstring) : jsstring := trimEnd (trimStart s).

(** [s.replace(/[class]/g, '')] for a class of single code units. *)
Definition strip (class : N -> bool) (s : jsstring) : jsstring :=
  List.filter (fun c => negb (class c)) s.

(** [s.replace(/\s+/g, ' ')]: every maximal run of white space becomes one
    space; [inRun] tells that the character before was white space. *)
Fixpoint collapse (inRun : bool) (s : jsstring) : jsstring :=
  match s with
  | [] => []
  | c :: s' =>
      if isWhiteSpace c
      then if inRun then collapse true s' else 32%N :: collapse true s'
      else c :: collapse false s'
  end.

(** [/[\u200B-\u200D\uFEFF]/] *)
Definition isZeroWidth (c : N) : bool := ((8203 <=? c) && (c <=? 8205) || (c =? 65279))%N.

(** readability.js, [cleanText(text)]; [None] is [null] or [undefined]. *)
Definition cleanText (text : option jsstring) : jsstring :=
  match text with
  | None => []
  | Some text =>
      if negb (truthy text) then []
      else trim (collapse false
                   (strip (N.eqb 8288) (strip (N.eqb 6158) (strip (N.eqb 173)
                      (strip isZeroWidth text)))))
  end.

(** The characters [cleanText] deletes, and those it neither deletes nor
    replaces. *)
Definition invisible (c : N) : bool :=
  (isZeroWidth c || (c =? 173) || (c =? 6158) || (c =? 8288))%N.

Definition visible (c : N) : bool := negb (isWhiteSpace c) && negb (invisible c).

(** White space stands alone: no white space is followed by white
    space. *)
Fixpoint spacedOnce (s : jsstring) : Prop :=
  match s with
  | [] => True
  | c :: s' => (isWhiteSpace c = true -> forall c', head s' = Some c' -> isWhiteSpace c' = false)
               /\ spacedOnce s'
  end.

(** An end of a string, if the string has one, is no white space. *)
Definition edge (o : option N) : Prop := forall c, o = Some c -> isWhiteSpace c = false.

End Text.

(** ** ChapterCleaning.js: chapter titles *)

Module Titles.
Import JS Text.

(** [/[a-z0-9]/i] on one code unit. *)
Definition isAlnum (c : N) : bool :=
  ((48 <=? c) && (c <=? 57) || (65 <=? c) && (c <=? 90) || (97 <=? c) && (c <=? 122))%N.

(** An ASCII capital as the small letter, any other code unit as itself. *)
Definition lower (c : N) : N := if ((65 <=? c) && (c <=? 90))%N then (c + 32)%N else c.

(** A literal ASCII character [p] of a pattern with the [i] flag matches
    [c]. *)
Definition sameLetter (p c : N) : bool := (lower p =? lower c)%N.

Fixpoint startsWithCI (s literal : jsstring) {struct literal} : bool :=
  match literal, s with
  | [], _ => true
  | p :: literal', c :: s' => sameLetter p c && startsWithCI s' literal'
  | _ :: _, [] => false
  end.

(** The length of the match of [\s*] at the start of [s]. *)
Fixpoint spaces (s : jsstring) : nat :=
  match s with
  | c :: s' => if isWhiteSpace c then S (spaces s') else 0
  | [] => 0
  end.

(** The length of the match of [/\s*-\s*Chrysanthemum Garden/i] at the
    start of [s], if there is one. *)
Definition watermarkAt (s : jsstring) : option nat :=
  match drop (spaces s) s with
  | 45%N :: s1 =>
      if startsWithCI (drop (spaces s1) s1) (js "Chrysanthemum Garden")
      then Some (spaces s + 1 + spaces s1 + 20)%nat
      else None
  | _ => None
  end.

(** [title.replace(/\s*-\s*Chrysanthemum Garden/gi, '')], from left to
    right: [skip] characters of a match are still to be dropped. *)
Fixpoint removeWatermark (skip : nat) (s : jsstring) : jsstring :=
  match s with
  | [] => []
  | c :: s' =>
      match skip with
      | S skip' => removeWatermark skip' s'
      | O =>
          match watermarkAt s with
          | Some n => removeWatermark (n - 1) s'
          | None => c :: removeWatermark 0 s'
          end
      end
  end.

(** ChapterCleaning.js, [cleanTitle(title)]; [None] is [null]. *)
Definition cleanTitle (title : option jsstring) : jsstring :=
  match title with
  | None => []
  | Some title =>
      if negb (truthy title) then []
      else trim (map (fun c => if isAlnum c then c else 32%N) (removeWatermark 0 title))
  end.

End Titles.

(** ** discover_novel.js: the table of contents *)

Module Contents.
Import JS Text Orchestrator.

(** A link element of the page: [link.href] and [link.innerText]. *)
Record Anchor := { href : jsstring; innerText : jsstring }.

(** Lines 360-371 of discover_novel.js, the [forEach] over the link
    elements, from the element at [index] on. *)
Fixpoint collectFrom (location : jsstring) (index : nat) (linkElements : list Anchor)
  : list ChapterLink :=
  match linkElements with
  | [] => []
  | link :: rest =>
      let text := trim (innerText link) in
      if truthy (href link) && truthy text && negb (includes (href link) (js "#"))
         && negb (bool_decide (href link = location))
      then {| link_url := href link; link_title := text; order := Z.of_nat index + 1 |}
             :: collectFrom location (S index) rest
      else collectFrom location (S index) rest
  end.

(** [chapters.findIndex(c => c.url === url)], counted from [index]. *)
Fixpoint findIndexFrom (url : jsstring) (index : nat) (chapters : list ChapterLink) : Z :=
  match chapters with
  | [] => -1
  | c :: rest =>
      if bool_decide (link_url c = url) then Z.of_nat index
      else findIndexFrom url (S index) rest
  end.

(** Lines 377-380: [chapters.filter((ch, index) => chapters.findIndex(c =>
    c.url === ch.url) === index)], from the element at [index] on. *)
Fixpoint firstsFrom (chapters : list ChapterLink) (index : nat) (rest : list ChapterLink)
  : list ChapterLink :=
  match rest with
  | [] => []
  | ch :: rest' =>
      if (findIndexFrom (link_url ch) 0 chapters =? Z.of_nat index)%Z
      then ch :: firstsFrom chapters (S index) rest'
      else firstsFrom chapters (S index) rest'
  end.

(** [extractTableOfContents(page, baseUrl)]: [location] is
    [window.location.href] and [linkElements] the completion of the
    selection of the link elements in the page (lines 336-358). *)
Definition extractTableOfContents (location : jsstring)
    (linkElements : Completion (list Anchor)) : list ChapterLink :=
  match linkElements with
  | Normal linkElements =>
      let chapters := collectFrom location 0 linkElements in
      firstsFrom chapters 0 chapters
  | Throw _ => []
  end.

(** A link as the [forEach] lets it through, of at most [bound] link
    elements. *)
Definition wellFormed (location : jsstring) (bound : nat) (l : ChapterLink) : Prop :=
  link_url l <> [] /\ includes (link_url l) (js "#") = false /\ link_url l <> location /\
  link_title l <> [] /\ trim (link_title l) = link_title l /\
  (1 <= order l <= Z.of_nat bound)%Z.

End Contents.

(** ** font_decoding.js and epubGenerator.js: file names and markup *)

Module Files.
Import JS Text Titles.

(** *** font_decoding.js: the file a downloaded font is stored in *)

Inductive Format := woff2 | woff | ttf | otf.

Definition formatName (f : Format) : jsstring :=
  match f with
  | woff2 => js "woff2"
  | woff => js "woff"
  | ttf => js "ttf"
  | otf => js "otf"
  end.

(** Lines 72-80: the format a [@font-face] rule declares; [fontFormat]
    keeps the value it has when none is recognised. *)
Definition detectFormat (src fontUrl : jsstring) (fontFormat : option Format) : option Format :=
  if includes src (js "woff2") || includes fontUrl (js ".woff2") then Some woff2
  else if includes src (js "woff") || includes fontUrl (js ".woff") then Some woff
  else if includes src (js "ttf") || includes fontUrl (js ".ttf") then Some ttf
  else if includes src (js "otf") || includes fontUrl (js ".otf") then Some otf
  else fontFormat.

(** Lines 120-122: [fontFamily.replace(/[^a-z0-9]/gi, '_').toLowerCase()];
    what [toLowerCase] is applied to holds ASCII letters, digits and [_]
    only. *)
Definition safeFontName (fontFamily : jsstring) : jsstring :=
  map lower (map (fun c => if isAlnum c then c else 95%N) fontFamily).

(** Lines 124-125. *)
Definition filename (fontFamily : jsstring) (fontFormat : option Format) : jsstring :=
  safeFontName fontFamily ++ js "." ++ formatName (default woff2 fontFormat).

(** *** epubGenerator.js: names and markup *)

(** The entity of one of the five characters the pattern of [escapeXml]
    matches: less-than, greater-than, ampersand, apostrophe and double
    quote. *)
Definition entity (c : N) : option jsstring :=
  if (c =? 60)%N then Some (js "&lt;")
  else if (c =? 62)%N then Some (js "&gt;")
  else if (c =? 38)%N then Some (js "&amp;")
  else if (c =? 39)%N then Some (js "&apos;")
  else if (c =? 34)%N then Some (js "&quot;")
  else None.

(** [escapeXml(unsafe)]; [None] is [null] or [undefined]. *)
Definition escapeXml (unsafe : option jsstring) : jsstring :=
  match unsafe with
  | None => []
  | Some unsafe =>
      if negb (truthy unsafe) then []
      else flat_map (fun c => default [c] (entity c)) unsafe
  end.

(** [/[a-z0-9\-_. ]/i] on one code unit. *)
Definition isFileChar (c : N) : bool :=
  (isAlnum c || (c =? 45) || (c =? 95) || (c =? 46) || (c =? 32))%N.

(** [s.replace(/_{2,}/g, '_')]: [inRun] tells that the character before
    was an underscore. *)
Fixpoint squeeze (inRun : bool) (s : jsstring) : jsstring :=
  match s with
  | [] => []
  | c :: s' =>
      if (c =? 95)%N
      then if inRun then squeeze true s' else 95%N :: squeeze true s'
      else c :: squeeze false s'
  end.

(** [sanitizeFilename(name)] *)
Definition sanitizeFilename (name : jsstring) : jsstring :=
  squeeze false (map (fun c => if isFileChar c then c else 95%N) name).

(** A digit, a small ASCII letter or an underscore. *)
Definition isSmallOrDigit (c : N) : bool :=
  ((48 <=? c) && (c <=? 57) || (97 <=? c) && (c <=? 122) || (c =? 95))%N.

(** No underscore is followed by an underscore. *)
Fixpoint underscoredOnce (s : jsstring) : Prop :=
  match s with
  | [] => True
  | c :: s' => (c = 95%N -> head s' <> Some 95%N) /\ underscoredOnce s'
  end.

End Files.

(** ** api/novels: adding a novel *)

Module Api.
Import JS Text Orchestrator.

(** The id [AUTOINCREMENT] gives the next novel. *)
Definition nextNovelId (db : Db) : Z :=
  fold_right Z.max 0%Z (map novel_id (novels db)) + 1.

(** [INSERT INTO novels (url, title, ..., total_chapters, status) VALUES
    (...)]; [url] is [UNIQUE].  The column holds the text as UTF-8, so
    what is stored, and compared, is the well-formed string; the result
    carries [lastInsertRowid], a number. *)
Definition insertNovel (url : jsstring) (title : option jsstring) (total status : Z) (db : Db)
  : Completion (Db * Z) :=
  if existsb (fun n => bool_decide (novel_url n = toWellFormed url)) (novels db)
  then Throw (Error (js "UNIQUE constraint failed: novels.url"))
  else Normal ({| novels := novels db ++
                    [{| novel_id := nextNovelId db; novel_url := toWellFormed url;
                        novel_title := title;
                        total_chapters := total; novel_status := status |}];
                  chapters := chapters db |},
               toNumber (nextNovelId db)).

(** What the route answers: the HTTP status, and [novelId] or [error]
    (the [details] of a 500 are left out). *)
Record Reply := { code : Z; novelId : option Z; error : option jsstring }.

Definition refuse (code : Z) (error : string) : Reply :=
  {| code := code; novelId := None; error := Some (js error) |}.

(** The url the route stores for the [url] of a request. *)
Definition stored (url : jsstring) : jsstring := toWellFormed (trim url).

(** The store with the row the route inserts for [url]. *)
Definition added (url : jsstring) (d : Db) : Db :=
  {| novels := novels d ++
       [{| novel_id := nextNovelId d; novel_url := stored url; novel_title := None;
           total_chapters := 0; novel_status := PENDING |}];
     chapters := chapters d |}.

Section WithURL.

(** Whether [new URL(url)] returns. *)
Variable parses : jsstring -> bool.

(** [POST /api/novels]; [body] is the completion of [request.json()] with
    the [url] of the body, [None] when that is no string. *)
Definition POST (body : Completion (option jsstring)) (d : Db) : Reply * Db :=
  match body with
  | Throw _ => (refuse 500 "Internal server error", d)
  | Normal None => (refuse 400 "URL is required and must be a string", d)
  | Normal (Some url) =>
      if negb (truthy url) then (refuse 400 "URL is required and must be a string", d)
      else if negb (parses url) then (refuse 400 "Invalid URL format", d)
      else
        match insertNovel (trim url) None 0 0 d with
        | Normal (d', id) => ({| code := 201; novelId := Some id; error := None |}, d')
        | Throw dbError =>
            if includes (message dbError) (js "UNIQUE")
            then (refuse 409 "This URL already exists in the database", d)
            else (refuse 500 "Internal server error", d)
        end
  end.

End WithURL.

End Api.

(** ** Sample inputs *)

Module Sample.
Import JS.

Definition creation : Pool.Creation :=
  {| Pool.agent := js "Mozilla/5.0 (Windows NT 10.0; Win64; x64)";
     Pool.rViewport := 1 # 4;
     Pool.rLanguages := 1 # 2;
     Pool.rTimezone := 3 # 4;
     Pool.now := 1000 |}.

(** The pool after the module is loaded and one page is acquired. *)
Definition onePage : Pool.State := snd (Pool.getPage false creation (Pool.load (1 # 2))).

(** Two hundred letters [x]. *)
Definition story : jsstring := repeat 120%N 200.

Definition responds (code : Z) (body : jsstring) : Fetch.Visit :=
  {| Fetch.goto := Normal (Some {| Fetch.status := code |});
     Fetch.title := Normal (js "Novel");
     Fetch.captchaSolved := true;
     Fetch.content := Normal body;
     Fetch.bodyText := Normal body;
     Fetch.replacement := creation |}.

Definition world (visit : Z -> Fetch.Visit) : Fetch.Env :=
  {| Fetch.time := 2000; Fetch.firstReplacement := creation; Fetch.visit := visit |}.

Definition novelUrl : jsstring := js "https://example.org/novel/1".

(** A font that scrambles every letter but [Z]: the glyph of the letter at
    position [i] of the alphabet is [i + 1] wide and flat. *)
Definition font51 : Decoder.Font :=
  {| Decoder.glyphIndexMap := imap (fun i c => (c, i)) (take 51 Decoder.FULL_ALPHABET);
     Decoder.glyphs := fun i =>
       {| Decoder.xMin := None; Decoder.xMax := Some (inject_Z (Z.of_nat i + 1));
          Decoder.yMin := None; Decoder.yMax := None; Decoder.advanceWidth := None |} |}.

(** A catalog that knows the glyph [i + 1] wide as the letter at position
    [i + 1]. *)
Definition catalog51 (key : jsstring) : option jsstring :=
  (list_to_map (imap (fun i c => (Number_toString (Z.of_nat i + 1) ++ js "x0", [c]))
                     (drop 1 Decoder.FULL_ALPHABET)) : gmap jsstring jsstring) !! key.

(** A font with one glyph, that of [a], which the catalog knows as [b]. *)
Definition fontA : Decoder.Font :=
  {| Decoder.glyphIndexMap := [(97%N, 0%nat)];
     Decoder.glyphs := Decoder.glyphs font51 |}.

Definition onDisk (font : Decoder.Font) (path : jsstring) : Completion Decoder.Font :=
  Normal font.

Definition noSuchFile (path : jsstring) : Completion Decoder.Font :=
  Throw (Error (js "ENOENT: no such file or directory, open '" ++ path ++ js "'")).


(** A site that answers 404 once and serves the page afterwards. *)
Definition missingOnce (attempt : Z) : Fetch.Visit :=
  if (attempt =? 0)%Z then responds 404 [] else responds 200 story.

(** A site that only answers [code]. *)
Definition always (code : Z) (attempt : Z) : Fetch.Visit := responds code [].

(** A site that serves a short page saying the visitor is blocked. *)
Definition refusing (attempt : Z) : Fetch.Visit :=
  responds 200 (story ++ js " you have been blocked").

(** A store with two pending novels, a novel parsed earlier and one of its
    chapters, still pending. *)
Definition store : Orchestrator.Db :=
  {| Orchestrator.novels :=
       [ {| Orchestrator.novel_id := 1; Orchestrator.novel_url := js "https://example.org/novel/1";
            Orchestrator.novel_title := None; Orchestrator.total_chapters := 0;
            Orchestrator.novel_status := Orchestrator.PENDING |};
         {| Orchestrator.novel_id := 2; Orchestrator.novel_url := js "https://example.org/novel/2";
            Orchestrator.novel_title := None; Orchestrator.total_chapters := 0;
            Orchestrator.novel_status := Orchestrator.PENDING |};
         {| Orchestrator.novel_id := 3; Orchestrator.novel_url := js "https://example.org/novel/3";
            Orchestrator.novel_title := Some (js "Three"); Orchestrator.total_chapters := 1;
            Orchestrator.novel_status := Orchestrator.SUCCESS |} ];
     Orchestrator.chapters :=
       [ {| Orchestrator.chapter_id := 7; Orchestrator.chapter_novel := 3;
            Orchestrator.chapter_url := js "https://example.org/novel/3/1";
            Orchestrator.chapter_title := Some (js "Chapter 1");
            Orchestrator.chapter_content := None; Orchestrator.chapter_number := 1;
            Orchestrator.chapter_status := Orchestrator.PENDING |} ] |}.

(** The first novel is found, with one new chapter link and one that is
    already stored; every other novel cannot be fetched. *)
Definition novelSite (novel : Orchestrator.Novel) : Completion Orchestrator.NovelData :=
  if (Orchestrator.novel_id novel =? 1)%Z
  then Normal {| Orchestrator.title := js "One";
                 Orchestrator.links :=
                   [ {| Orchestrator.link_url := js "https://example.org/novel/1/1";
                        Orchestrator.link_title := js "Chapter 1"; Orchestrator.order := 1 |};
                     {| Orchestrator.link_url := js "https://example.org/novel/3/1";
                        Orchestrator.link_title := js "Chapter 1"; Orchestrator.order := 2 |} ] |}
  else Throw (Error (js "Failed to fetch")).

(** Chapter 7 is extracted; every other chapter yields nothing. *)
Definition chapterSite (chapter : Orchestrator.Chapter)
  : Completion Orchestrator.ChapterResult :=
  Normal {| Orchestrator.chapter_success := (Orchestrator.chapter_id chapter =? 7)%Z;
            Orchestrator.result_title := js "Chapter";
            Orchestrator.result_content := story |}.

(** The map that pairs the alphabet with itself read backwards. *)
Definition mirror : gmap jsstring jsstring :=
  list_to_map (zip Decoder.ALL_LETTERS (reverse Decoder.ALL_LETTERS)).

(** A session that starts, and one whose tab cannot be opened. *)
Definition opening : Launch.Opening :=
  {| Launch.launchError := None; Launch.newPageError := None; Launch.settingsError := None;
     Launch.creation := Sample.creation |}.

Definition targetClosed : Launch.Opening :=
  {| Launch.launchError := None;
     Launch.newPageError := Some (Error (js "Protocol error (Target.createTarget): Target closed"));
     Launch.settingsError := None;
     Launch.creation := Sample.creation |}.

(** A site seen through sessions that start. *)
Definition steady (visit : Z -> Fetch.Visit) : Retry.Env :=
  {| Retry.clock := 2000;
     Retry.onEntry := opening;
     Retry.attempts := fun attempt =>
       {| Retry.shown := visit attempt; Retry.afterBlock := opening;
          Retry.afterFailure := opening |} |}.

(** A site seen while no session can be started after a failure. *)
Definition brittle (visit : Z -> Fetch.Visit) : Retry.Env :=
  {| Retry.clock := 2000;
     Retry.onEntry := opening;
     Retry.attempts := fun attempt =>
       {| Retry.shown := visit attempt; Retry.afterBlock := opening;
          Retry.afterFailure := targetClosed |} |}.

(** A session that needs no renewal, and one that cannot be renewed. *)
Definition ready : Batch.Session :=
  {| Batch.stale := false; Batch.renewalError := None;
     Batch.draw := 1 # 4; Batch.secondRenewalError := None |}.

Definition stuck : Batch.Session :=
  {| Batch.stale := true;
     Batch.renewalError :=
       Some (Error (js "Protocol error (Target.createTarget): Target closed"));
     Batch.draw := 1 # 4; Batch.secondRenewalError := None |}.

(** Every turn finds its session ready. *)
Definition steadySessions {Item} (item : Item) : Batch.Session := ready.

(** The session of chapter 7 cannot be renewed. *)
Definition chapterSessions (chapter : Orchestrator.Chapter) : Batch.Session :=
  if (Orchestrator.chapter_id chapter =? 7)%Z then stuck else ready.

End Sample.

(** * Properties *)

(** Membership in a list that computes. *)
Ltac in_list := vm_compute; repeat first [left; reflexivity | right].

(** ** JavaScript strings *)

Module JSFacts.
Import JS.

Lemma startsWith_spec (s prefix : jsstring) :
  startsWith s prefix = true <-> exists post, s = prefix ++ post.
Proof.
  revert s. induction prefix as [|p prefix IH]; intros s; simpl.
  - split; [eauto | done].
  - destruct s as [|c s].
    + split; [done | intros [post H]; discriminate H].
    + rewrite andb_true_iff, N.eqb_eq, IH. split.
      * intros [-> [post ->]]. by exists post.
      * intros [post H]. injection H as -> ->. eauto.
Qed.

Lemma includes_spec (s needle : jsstring) :
  includes s needle = true <-> exists pre post, s = pre ++ needle ++ post.
Proof.
  induction s as [|c s IH]; simpl.
  - rewrite orb_false_r, startsWith_spec. split.
    + intros [post H]. by exists [], post.
    + intros (pre & post & H). destruct pre; [by exists post|discriminate H].
  - rewrite orb_true_iff, startsWith_spec, IH. split.
    + intros [[post H] | (pre & post & ->)].
      * by exists [], post.
      * by exists (c :: pre), post.
    + intros (pre & post & H). destruct pre as [|c' pre]; simpl in H.
      * left. eauto.
      * right. injection H as -> ->. eauto.
Qed.

End JSFacts.

(** ** The session pool *)

Module PoolFacts.
Import JS Pool.

Lemma reuse_keys max pool page pool' :
  reuse max pool = Some (page, pool') -> map fst pool' = map fst pool.
Proof.
  revert page pool'. induction pool as [|[p d] rest IH]; intros page pool'; simpl; [done|].
  destruct (uses d <? max)%Z.
  - by intros [= <- <-].
  - destruct (reuse max rest) as [[found rest']|]; [|done].
    intros [= <- <-]. simpl. f_equal. by eapply IH.
Qed.

Lemma reuse_length max pool page pool' :
  reuse max pool = Some (page, pool') -> length pool' = length pool.
Proof. intros H. apply reuse_keys in H. by rewrite <- (length_map fst), H, length_map. Qed.

Lemma dropExhausted_length max pool : (length (dropExhausted max pool) <= length pool)%nat.
Proof. apply length_filter. Qed.

Lemma Map_delete_length page pool : (length (Map_delete page pool) <= length pool)%nat.
Proof. apply length_filter. Qed.

Lemma dropOldest_room pool :
  (length pool <= MAX_PAGES)%nat -> (length (dropOldest pool) < MAX_PAGES)%nat.
Proof.
  unfold dropOldest. intros Hle. destruct (MAX_PAGES <=? length pool)%nat eqn:Hfull.
  - apply Nat.leb_le in Hfull. destruct pool; simpl in *; unfold MAX_PAGES in *; lia.
  - by apply Nat.leb_gt in Hfull.
Qed.

Lemma dropOldest_length pool : (length (dropOldest pool) <= length pool)%nat.
Proof.
  unfold dropOldest. destruct (MAX_PAGES <=? length pool)%nat; [|done].
  destruct pool; simpl; lia.
Qed.

Lemma Map_set_length page data pool : (length (Map_set page data pool) <= S (length pool))%nat.
Proof.
  induction pool as [|[p d] rest IH]; simpl; [done|].
  destruct (Nat.eqb p page); simpl; lia.
Qed.

Lemma Map_set_fresh page data pool :
  Forall (fun e => (fst e < page)%nat) pool -> Map_set page data pool = pool ++ [(page, data)].
Proof.
  induction 1 as [|[p d] rest Hp _ IH]; simpl; [done|].
  simpl in Hp. destruct (Nat.eqb_spec p page); [lia|]. by rewrite IH.
Qed.

Lemma forget_length page s : (length (pagePool (forget page s)) <= length (pagePool s))%nat.
Proof. simpl. destruct (Map_has page (pagePool s)); [apply Map_delete_length | done]. Qed.

(** The bound holds at every statement of a call that starts within it. *)
Lemma poolsOfGetPage_bounded forceNew c s :
  (length (pagePool s) <= MAX_PAGES)%nat ->
  Forall (fun pool => (length pool <= MAX_PAGES)%nat) (poolsOfGetPage forceNew c s).
Proof.
  intros Hle. unfold poolsOfGetPage.
  destruct (if forceNew then None else reuse (MAX_PAGE_USES s) (pagePool s))
    as [[page pool]|] eqn:Hreuse.
  - destruct forceNew; [done|]. apply reuse_length in Hreuse.
    rewrite Forall_singleton. lia.
  - pose proof (dropExhausted_length (MAX_PAGE_USES s) (pagePool s)) as H1.
    pose proof (dropOldest_length (dropExhausted (MAX_PAGE_USES s) (pagePool s))) as H2.
    pose proof (dropOldest_room (dropExhausted (MAX_PAGE_USES s) (pagePool s))) as H3.
    pose proof (Map_set_length (nextPage s)
      {| uses := 1; created := now c; fingerprint := generateFingerprint c |}
      (dropOldest (dropExhausted (MAX_PAGE_USES s) (pagePool s)))) as H4.
    unfold register. rewrite !Forall_cons, Forall_nil. lia.
Qed.

Lemma poolsOfGetPage_last forceNew c s :
  last (poolsOfGetPage forceNew c s) = Some (pagePool (snd (getPage forceNew c s))).
Proof.
  unfold poolsOfGetPage, getPage. simpl.
  by destruct (if forceNew then None else reuse (MAX_PAGE_USES s) (pagePool s)) as [[page pool]|].
Qed.

Lemma poolsOf_bounded s call :
  (length (pagePool s) <= MAX_PAGES)%nat ->
  Forall (fun pool => (length pool <= MAX_PAGES)%nat) (poolsOf s call).
Proof.
  intros Hle. destruct call as [forceNew c|page c| |]; simpl.
  - by apply poolsOfGetPage_bounded.
  - pose proof (forget_length page s). constructor; [simpl in *; lia|].
    apply poolsOfGetPage_bounded. simpl in *. lia.
  - rewrite Forall_singleton. unfold closeBrowser. destruct (browserInstance s); [simpl; lia|done].
  - rewrite Forall_singleton. simpl. lia.
Qed.

Lemma poolsOf_last s call : last (poolsOf s call) = Some (pagePool (exec s call)).
Proof.
  destruct call as [forceNew c|page c| |]; simpl poolsOf; simpl exec.
  - apply poolsOfGetPage_last.
  - unfold recyclePage. rewrite last_cons, poolsOfGetPage_last. done.
  - done.
  - done.
Qed.

Lemma exec_bounded s call :
  (length (pagePool s) <= MAX_PAGES)%nat -> (length (pagePool (exec s call)) <= MAX_PAGES)%nat.
Proof.
  intros Hle. pose proof (poolsOf_bounded s call Hle) as Hall.
  pose proof (poolsOf_last s call) as Hlast.
  apply last_Some_elem_of in Hlast. by eapply Forall_forall in Hall.
Qed.

Lemma history_bounded calls s :
  (length (pagePool s) <= MAX_PAGES)%nat ->
  Forall (fun pool => (length pool <= MAX_PAGES)%nat) (history calls s).
Proof.
  revert s. induction calls as [|call rest IH]; intros s Hle; simpl.
  - by rewrite Forall_singleton.
  - constructor; [done|]. apply Forall_app. split.
    + by apply poolsOf_bounded.
    + apply IH. by apply exec_bounded.
Qed.

Lemma history_last calls s : last (history calls s) = Some (pagePool (run calls s)).
Proof.
  revert s. induction calls as [|call rest IH]; intros s; simpl; [done|].
  rewrite last_cons, last_app, IH. done.
Qed.

Lemma Forall_filter_keep {A} (P Q : A -> Prop) `{!forall x, Decision (Q x)} (l : list A) :
  Forall P l -> Forall P (filter Q l).
Proof.
  rewrite !Forall_forall. intros HP x Hx. apply HP.
  by apply list_elem_of_filter in Hx as [_ Hx].
Qed.

Lemma Forall_keys (P : Page -> Prop) (pool pool' : list (Page * PageData)) :
  map fst pool' = map fst pool ->
  Forall (fun e => P (fst e)) pool -> Forall (fun e => P (fst e)) pool'.
Proof.
  intros Hkeys H. apply Forall_fmap in H. apply Forall_fmap.
  unfold fmap, list_fmap in *. fold (map fst pool'). fold (map fst pool) in H. by rewrite Hkeys.
Qed.

Lemma getPage_handles forceNew c s : handlesBelow s -> handlesBelow (snd (getPage forceNew c s)).
Proof.
  unfold handlesBelow, getPage. simpl. intros H.
  destruct (if forceNew then None else reuse (MAX_PAGE_USES s) (pagePool s))
    as [[page pool]|] eqn:Hreuse; simpl.
  - destruct forceNew; [done|]. apply reuse_keys in Hreuse.
    by apply (Forall_keys (fun p => (p < nextPage s)%nat) (pagePool s) pool).
  - assert (Hroom : Forall (fun e => (fst e < nextPage s)%nat)
                      (dropOldest (dropExhausted (MAX_PAGE_USES s) (pagePool s)))).
    { unfold dropOldest. destruct (MAX_PAGES <=? _)%nat.
      - apply Forall_tail. by apply Forall_filter_keep.
      - by apply Forall_filter_keep. }
    unfold register. rewrite Map_set_fresh by done.
    apply Forall_app. split.
    + eapply Forall_impl; [exact Hroom|]. simpl. lia.
    + rewrite Forall_singleton. simpl. lia.
Qed.

Lemma exec_handles s call : handlesBelow s -> handlesBelow (exec s call).
Proof.
  intros H. destruct call as [forceNew c|page c| |]; cbn [exec].
  - by apply getPage_handles.
  - unfold recyclePage. apply getPage_handles. unfold handlesBelow in *. cbn [forget pagePool nextPage].
    destruct (Map_has page (pagePool s)); [by apply Forall_filter_keep | done].
  - unfold closeBrowser. destruct (browserInstance s); [constructor | done].
  - constructor.
Qed.

Lemma run_handles calls s : handlesBelow s -> handlesBelow (run calls s).
Proof.
  revert s. induction calls as [|call rest IH]; intros s H; simpl; [done|].
  apply IH. by apply exec_handles.
Qed.

Lemma NoDup_keys_filter (P : Page * PageData -> Prop) `{!forall e, Decision (P e)}
    (pool : list (Page * PageData)) :
  NoDup (map fst pool) -> NoDup (map fst (filter P pool)).
Proof.
  induction pool as [|e pool IH]; simpl; intros Hnd; [done|].
  apply NoDup_cons in Hnd as [He Hnd]. rewrite filter_cons.
  destruct (decide (P e)); [|by apply IH].
  simpl. apply NoDup_cons. split; [|by apply IH].
  intros Hin. apply He. apply list_elem_of_In, in_map_iff in Hin as (e' & Heq & Hin).
  apply list_elem_of_In, list_elem_of_filter in Hin as [_ Hin].
  rewrite <- Heq. apply list_elem_of_In, in_map. by apply list_elem_of_In.
Qed.

Lemma NoDup_keys_tail (pool : list (Page * PageData)) :
  NoDup (map fst pool) -> NoDup (map fst (tail pool)).
Proof. destruct pool as [|e pool]; simpl; [done|]. intros Hnd. by apply NoDup_cons in Hnd as [_ ?]. Qed.

Lemma getPage_entries forceNew c s :
  handlesBelow s -> oneEntryPerPage s -> oneEntryPerPage (snd (getPage forceNew c s)).
Proof.
  unfold handlesBelow, oneEntryPerPage, getPage. simpl. intros Hbelow Hnd.
  destruct (if forceNew then None else reuse (MAX_PAGE_USES s) (pagePool s))
    as [[page pool]|] eqn:Hreuse; simpl.
  - destruct forceNew; [done|]. apply reuse_keys in Hreuse. by rewrite Hreuse.
  - assert (Hroom : Forall (fun e => (fst e < nextPage s)%nat)
                      (dropOldest (dropExhausted (MAX_PAGE_USES s) (pagePool s))) /\
                    NoDup (map fst (dropOldest (dropExhausted (MAX_PAGE_USES s) (pagePool s))))).
    { unfold dropOldest, dropExhausted. destruct (MAX_PAGES <=? _)%nat.
      - split; [apply Forall_tail; by apply Forall_filter_keep|].
        by apply NoDup_keys_tail, NoDup_keys_filter.
      - split; [by apply Forall_filter_keep | by apply NoDup_keys_filter]. }
    destruct Hroom as [Hroom Hnd']. unfold register. rewrite Map_set_fresh by done.
    rewrite map_app. simpl. apply NoDup_app. split; [done|]. split; [|apply NoDup_singleton].
    intros page Hin Hnew. apply list_elem_of_singleton in Hnew as ->.
    apply list_elem_of_In, in_map_iff in Hin as (e & He & Hin).
    apply list_elem_of_In in Hin. eapply Forall_forall in Hroom; [|exact Hin].
    simpl in Hroom, He. unfold Page in *. lia.
Qed.

Lemma exec_entries s call :
  handlesBelow s -> oneEntryPerPage s -> oneEntryPerPage (exec s call).
Proof.
  intros Hbelow Hnd. destruct call as [forceNew c|page c| |]; cbn [exec].
  - by apply getPage_entries.
  - unfold recyclePage. apply getPage_entries.
    + unfold handlesBelow in *. cbn [forget pagePool nextPage].
      destruct (Map_has page (pagePool s)); [by apply Forall_filter_keep | done].
    + unfold oneEntryPerPage in *. cbn [forget pagePool].
      destruct (Map_has page (pagePool s)); [by apply NoDup_keys_filter | done].
  - unfold closeBrowser. destruct (browserInstance s); [constructor | done].
  - constructor.
Qed.

Lemma run_entries calls s :
  handlesBelow s -> oneEntryPerPage s -> oneEntryPerPage (run calls s).
Proof.
  revert s. induction calls as [|call rest IH]; intros s Hbelow Hnd; simpl; [done|].
  apply IH; [by apply exec_handles | by apply exec_entries].
Qed.


(** C7.  From the load of the module on, through every history of
    [getPage], [recyclePage], [closeBrowser] and disconnections, the pool
    holds at most [MAX_PAGES] = 3 pages, at every statement of every call
    ([history]) and after the last call.  When the pool holds three pages
    that are all below the ceiling, acquiring a fourth page
    ([getPage(true)]) hands out a page that is none of the three (the
    four are distinct), deletes the oldest of them, the first key of the
    map, and only then registers the new page, behind the two that
    stay. *)
Theorem pool_within_capacity r calls :
  Forall (fun pool => (length pool <= MAX_PAGES)%nat) (history calls (load r)) /\
  (length (pagePool (run calls (load r))) <= MAX_PAGES)%nat /\
  (forall c p1 d1 p2 d2 p3 d3,
     pagePool (run calls (load r)) = [(p1, d1); (p2, d2); (p3, d3)] ->
     (uses d1 < MAX_PAGE_USES (run calls (load r)))%Z ->
     (uses d2 < MAX_PAGE_USES (run calls (load r)))%Z ->
     (uses d3 < MAX_PAGE_USES (run calls (load r)))%Z ->
     let fourth := fst (getPage true c (run calls (load r))) in
     let data := {| uses := 1; created := now c; fingerprint := generateFingerprint c |} in
     NoDup [p1; p2; p3; fourth] /\
     poolsOfGetPage true c (run calls (load r)) =
       [ [(p1, d1); (p2, d2); (p3, d3)];
         [(p2, d2); (p3, d3)];
         [(p2, d2); (p3, d3); (fourth, data)] ] /\
     pagePool (snd (getPage true c (run calls (load r)))) =
       [(p2, d2); (p3, d3); (fourth, data)]).
Proof.
  assert (Hall : Forall (fun pool => (length pool <= MAX_PAGES)%nat) (history calls (load r))).
  { apply history_bounded. simpl. lia. }
  split; [exact Hall|]. split.
  { pose proof (history_last calls (load r)) as Hlast.
    apply last_Some_elem_of in Hlast. by eapply Forall_forall in Hall. }
  intros c p1 d1 p2 d2 p3 d3 Hpool H1 H2 H3.
  assert (Hbelow : handlesBelow (run calls (load r))).
  { apply run_handles. constructor. }
  set (s := run calls (load r)) in *.
  unfold handlesBelow in Hbelow. rewrite Hpool in Hbelow.
  rewrite !Forall_cons in Hbelow. simpl in Hbelow.
  destruct Hbelow as (Hp1 & Hp2 & Hp3 & _).
  assert (Hkept : dropExhausted (MAX_PAGE_USES s) (pagePool s) = [(p1, d1); (p2, d2); (p3, d3)]).
  { rewrite Hpool. unfold dropExhausted.
    rewrite !filter_cons, filter_nil. simpl.
    repeat (destruct (decide _) as [|Hno]; [| exfalso; apply Hno; lia]). done. }
  assert (Hset : register c (nextPage s) [(p2, d2); (p3, d3)] =
     [(p2, d2); (p3, d3);
      (nextPage s, {| uses := 1; created := now c; fingerprint := generateFingerprint c |})]).
  { unfold register. rewrite Map_set_fresh; [done|].
    rewrite !Forall_cons. simpl. done. }
  assert (Hfourth : fst (getPage true c s) = nextPage s) by done.
  assert (Hdistinct : oneEntryPerPage s).
  { apply run_entries; constructor. }
  unfold oneEntryPerPage in Hdistinct. rewrite Hpool in Hdistinct. simpl in Hdistinct.
  cbv zeta. rewrite Hfourth.
  split.
  { change [p1; p2; p3; nextPage s] with ([p1; p2; p3] ++ [nextPage s]).
    apply NoDup_app. split; [done|]. split; [|apply NoDup_singleton].
    intros page Hin Hnew. apply list_elem_of_singleton in Hnew as ->.
    rewrite !elem_of_cons, elem_of_nil in Hin. lia. }
  unfold poolsOfGetPage, getPage. cbn [initBrowser pagePool MAX_PAGE_USES nextPage snd].
  rewrite Hkept. cbn [dropOldest]. unfold dropOldest. simpl length. simpl Nat.leb.
  cbn [tail]. rewrite Hset. by rewrite <- Hpool.
Qed.

Lemma exec_ceiling s call : MAX_PAGE_USES (exec s call) = MAX_PAGE_USES s.
Proof.
  destruct call as [forceNew c|page c| |]; cbn [exec]; [| | |done].
  - unfold getPage. by destruct (if forceNew then None else _) as [[? ?]|].
  - done.
  - unfold closeBrowser. by destruct (browserInstance s).
Qed.

Lemma run_ceiling calls s : MAX_PAGE_USES (run calls s) = MAX_PAGE_USES s.
Proof.
  revert s. induction calls as [|call rest IH]; intros s; simpl; [done|].
  by rewrite IH, exec_ceiling.
Qed.

Lemma draw_range (r : Q) :
  (0 <= r)%Q -> (r < 1)%Q -> (0 <= Math_floor (r * 6) <= 5)%Z.
Proof.
  intros H0 H1. unfold Math_floor. split.
  - change 0%Z with (Qfloor 0). apply Qfloor_resp_le.
    rewrite <- (Qmult_0_l 6). apply Qmult_le_compat_r; [done|]. done.
  - assert (Hlt : (inject_Z (Qfloor (r * 6)) < inject_Z 6)%Q).
    { eapply Qle_lt_trans; [apply Qfloor_le|].
      change (inject_Z 6) with (1 * 6)%Q. apply Qmult_lt_compat_r; done. }
    rewrite <- Zlt_Qlt in Hlt. lia.
Qed.

(** C6 (as amended).  There is one ceiling, [MAX_PAGE_USES], for the whole
    module: the integer [floor(6 r) + 10] of the one draw [r] made when the
    module is loaded, hence in [10, 15]; no call changes it, and
    [getPageStats] reports it as [maxUses] for every page. *)
Theorem usesCeiling_is_module_wide r calls :
  (0 <= r)%Q ->
  (r < 1)%Q ->
  MAX_PAGE_USES (run calls (load r)) = (Math_floor (r * 6) + 10)%Z /\
  (10 <= MAX_PAGE_USES (run calls (load r)) <= 15)%Z /\
  (forall page time,
     maxUses (getPageStats page time (run calls (load r))) = MAX_PAGE_USES (run calls (load r))).
Proof.
  intros H0 H1. rewrite run_ceiling. cbn [load MAX_PAGE_USES].
  split; [done|]. split; [pose proof (draw_range r H0 H1); lia|].
  intros page time. unfold getPageStats. rewrite run_ceiling.
  by destruct (Map_get page _).
Qed.

(** C6, witness: the draw 1/2 and two sessions. *)
Lemma usesCeiling_witness :
  MAX_PAGE_USES (run [CallGetPage false Sample.creation; CallGetPage true Sample.creation]
                     (load (1 # 2))) = 13%Z.
Proof.
  destruct (usesCeiling_is_module_wide (1 # 2)
              [CallGetPage false Sample.creation; CallGetPage true Sample.creation])
    as (Hmax & _); [discriminate | reflexivity |].
  exact Hmax.
Defined.

(** C6, counterexample: two sessions created at different times from
    different draws report the same ceiling, the module's; and no history
    of calls leads to two pages (or two moments) with different
    ceilings. *)
Lemma sessions_share_the_ceiling :
  (let later := {| agent := js "Mozilla/5.0 (X11; Linux x86_64)"; rViewport := 4 # 5;
                   rLanguages := 0; rTimezone := 1 # 10; now := 90000 |} in
   let s := run [CallGetPage false Sample.creation; CallGetPage true later] (load (1 # 2)) in
   map fst (pagePool s) = [0%nat; 1%nat] /\
   map (fun e => created (snd e)) (pagePool s) = [1000%Z; 90000%Z] /\
   maxUses (getPageStats 0%nat 100000 s) = 13%Z /\
   maxUses (getPageStats 1%nat 100000 s) = 13%Z) /\
  ~ (exists r calls page1 page2 time1 time2,
       maxUses (getPageStats page1 time1 (run calls (load r))) <>
       maxUses (getPageStats page2 time2 (run calls (load r)))).
Proof.
  split; [vm_compute; repeat split|].
  intros (r & calls & page1 & page2 & time1 & time2 & Hne). apply Hne.
  unfold getPageStats. by destruct (Map_get page1 _), (Map_get page2 _).
Qed.

(** C7, witness: three fresh sessions, then a fourth. *)
Lemma fourth_session_witness :
  map fst (pagePool (snd (getPage true Sample.creation
             (run [CallGetPage true Sample.creation; CallGetPage true Sample.creation;
                   CallGetPage true Sample.creation] (load (1 # 2))))))
  = [1%nat; 2%nat; 3%nat].
Proof.
  destruct (pool_within_capacity (1 # 2)
              [CallGetPage true Sample.creation; CallGetPage true Sample.creation;
               CallGetPage true Sample.creation]) as (_ & _ & Hfourth).
  destruct (Hfourth Sample.creation
              0%nat {| uses := 1; created := 1000; fingerprint := generateFingerprint Sample.creation |}
              1%nat {| uses := 1; created := 1000; fingerprint := generateFingerprint Sample.creation |}
              2%nat {| uses := 1; created := 1000; fingerprint := generateFingerprint Sample.creation |})
    as (_ & _ & Hpool); [reflexivity | reflexivity | reflexivity | reflexivity |].
  rewrite Hpool. reflexivity.
Defined.

End PoolFacts.

(** ** The glyph decoder *)

Module DecoderFacts.
Import JS Decoder.

(** *** Decoding a text with a map *)

Lemma decodeChar_step m acc char :
  decodeChar m acc char =
  (fst acc ++ (if isLatinLetter char then default [] (m !! [char]) else [char]),
   snd acc || hit m char).
Proof.
  unfold decodeChar, hit. destruct acc as [decoded any]. simpl.
  destruct (isLatinLetter char); simpl; [|by rewrite orb_false_r].
  destruct (m !! [char]) as [[|c letter]|]; simpl;
    by rewrite ?app_nil_r, ?orb_false_r, ?orb_true_r.
Qed.

Lemma decode_fold m encodedText acc :
  fold_left (decodeChar m) encodedText acc =
  (fst acc ++ substituted m encodedText, snd acc || existsb (hit m) encodedText).
Proof.
  revert acc. induction encodedText as [|char rest IH]; intros acc; simpl.
  - destruct acc. by rewrite app_nil_r, orb_false_r.
  - rewrite IH, decodeChar_step. simpl. by rewrite <- app_assoc, orb_assoc.
Qed.

Lemma hit_substitutes m encodedText :
  existsb (hit m) encodedText = true <-> substitutes m encodedText.
Proof.
  rewrite existsb_exists. unfold substitutes, hit. split.
  - intros (char & Hin & Hhit). apply andb_true_iff in Hhit as [Hletter Htruthy].
    destruct (m !! [char]) as [letter|] eqn:Hm; [|done].
    exists char, letter. rewrite list_elem_of_In. by destruct letter.
  - intros (char & letter & Hin & Hletter & Hm & Hne).
    exists char. rewrite <- list_elem_of_In. split; [done|].
    rewrite Hletter, Hm. by destruct letter.
Qed.

Lemma mapIsValid_nonempty (m : gmap jsstring jsstring) :
  (0 <? length (map_to_list m))%nat = true <-> m <> ∅.
Proof.
  rewrite Nat.ltb_lt, <- (map_to_list_empty_iff m).
  destruct (map_to_list m); simpl; split; (done || lia).
Qed.

(** What lines 59-100 compute: [success] is true exactly when the map is
    non-empty and a character of the input is substituted via the map; an
    empty input or an empty map gives the early return of lines 62-68;
    past it the text is rebuilt character by character. *)
Lemma decodeWith_success_and_text (m : gmap jsstring jsstring) (encodedText : jsstring) :
  (success (decodeWith m encodedText) = true <-> m <> ∅ /\ substitutes m encodedText) /\
  (encodedText = [] \/ m = ∅ ->
   decodeWith m encodedText = {| text := encodedText; success := false |}) /\
  (encodedText <> [] -> m <> ∅ ->
   text (decodeWith m encodedText) = substituted m encodedText).
Proof.
  unfold decodeWith. pose proof (mapIsValid_nonempty m) as Hvalid.
  destruct (0 <? length (map_to_list m))%nat eqn:Hsize.
  - assert (Hm : m <> ∅) by by apply Hvalid.
    destruct encodedText as [|char rest]; simpl negb; cbn [orb].
    + split; [|split; [done|done]]. simpl. split; [done|].
      intros [_ (char & letter & Hin & _)]. by apply elem_of_nil in Hin.
    + rewrite decode_fold. simpl fst. simpl snd. cbn [text success andb orb app].
      split; [|split; [|done]].
      * change (hit m char || existsb (hit m) rest) with (existsb (hit m) (char :: rest)).
        rewrite hit_substitutes. tauto.
      * intros [?|?]; done.
  - assert (Hm : m = ∅).
    { destruct (decide (m = ∅)) as [|Hne]; [done|]. apply Hvalid in Hne. done. }
    rewrite orb_true_r. simpl. split; [|split; [done|done]].
    split; [done|]. tauto.
Qed.

(** C4.  The code where the claim fails: the font on disk has the glyph
    of [a] alone, which the catalog knows as [b], and the text is "x1".
    No character of the text is substituted and [success] is false, yet
    the text returned is "1" and not the unmodified input "x1": the loop
    of lines 75-90 has dropped the letter. *)
Lemma unmapped_letters_are_dropped :
  solveFont Sample.catalog51 (Sample.onDisk Sample.fontA) (js "public/fonts/a.ttf")
  = Normal {[ js "a" := js "b" ]} /\
  decodeObfuscatedText Sample.catalog51 (Sample.onDisk Sample.fontA) (js "x1")
    (js "public/fonts/a.ttf")
  = Normal {| text := js "1"; success := false |} /\
  text (decodeWith {[ js "a" := js "b" ]} (js "x1")) <> js "x1".
Proof. split; [by vm_compute | split; by vm_compute]. Qed.

(** *** The font solver *)

Section WithFonts.
Variable fontMapping : jsstring -> option jsstring.
Variable readFont : jsstring -> Completion Font.

Lemma lookupPhase_misses font decoder entries :
  (forall entry, entry ∈ entries ->
     forall letter, realLetter fontMapping (glyphs font (snd entry)) = Some letter ->
                    letter = []) ->
  fold_left (resolve fontMapping font) entries decoder = decoder.
Proof.
  revert decoder. induction entries as [|entry rest IH]; intros decoder Hmiss; simpl; [done|].
  rewrite IH.
  - unfold resolve.
    destruct (realLetter fontMapping (glyphs font (snd entry))) as [letter|] eqn:Hletter; [|done].
    rewrite (Hmiss entry (proj2 (elem_of_cons _ _ _) (or_introl eq_refl)) letter Hletter). done.
  - intros entry' Hin. apply Hmiss. apply elem_of_cons. by right.
Qed.

(** Neither function has a handler: an error raised while the font is read
    or parsed leaves both as it is.  When the font is parsed and no
    catalog lookup hits, the map is empty and the text comes back
    unchanged with [success = false]. *)
Lemma decoder_degrades_only_without_hits (encodedText fontName : jsstring) :
  (forall error, readFont fontName = Throw error ->
     solveFont fontMapping readFont fontName = Throw error /\
     decodeObfuscatedText fontMapping readFont encodedText fontName = Throw error) /\
  (forall font, readFont fontName = Normal font ->
     ~ hits fontMapping font ->
     solveFont fontMapping readFont fontName = Normal ∅ /\
     decodeObfuscatedText fontMapping readFont encodedText fontName =
       Normal {| text := encodedText; success := false |}).
Proof.
  split.
  - intros error Hread. unfold decodeObfuscatedText, solveFont. by rewrite Hread.
  - intros font Hread Hnone.
    assert (Hempty : lookupPhase fontMapping font = ∅).
    { unfold lookupPhase. apply lookupPhase_misses. intros entry Hin letter Hletter.
      destruct letter as [|c letter]; [done|]. exfalso. apply Hnone.
      by exists entry, (c :: letter). }
    unfold decodeObfuscatedText, solveFont. rewrite Hread. simpl. rewrite Hempty.
    change (completeGap ∅) with (∅ : gmap jsstring jsstring).
    split; [done|]. f_equal. unfold decodeWith. rewrite map_to_list_empty. simpl.
    by rewrite orb_true_r.
Qed.

End WithFonts.

(** C3.  The code where the claim fails: the element is styled with a
    font that has no file under public/fonts.  [fs.readFileSync] throws at
    line 6 of solveFont.js, no handler stands between it and the caller,
    and [decodeObfuscatedText] throws that error instead of returning the
    text unchanged with [success = false]. *)
Lemma missing_font_throws :
  solveFont Sample.catalog51 Sample.noSuchFile (js "public/fonts/arial.ttf")
  = Throw (Error (js "ENOENT: no such file or directory, open 'public/fonts/arial.ttf'")) /\
  decodeObfuscatedText Sample.catalog51 Sample.noSuchFile (js "sCvA") (js "public/fonts/arial.ttf")
  = Throw (Error (js "ENOENT: no such file or directory, open 'public/fonts/arial.ttf'")) /\
  decodeObfuscatedText Sample.catalog51 Sample.noSuchFile (js "sCvA") (js "public/fonts/arial.ttf")
  <> Normal {| text := js "sCvA"; success := false |}.
Proof. split; [reflexivity | split; [reflexivity | discriminate]]. Qed.

(** *** Gap completion *)

Lemma scan_fold keys values letters a b :
  fold_left (scan keys values) letters (a, b) =
  (lastMissing keys letters a, lastMissing values letters b).
Proof.
  revert a b. induction letters as [|char rest IH]; intros a b; simpl; [done|].
  unfold scan at 2. simpl. by rewrite IH.
Qed.

Lemma lastMissing_stable existing letters k :
  (forall c, c ∈ letters -> c ∉ existing -> c = k) ->
  lastMissing existing letters (Some k) = Some k.
Proof.
  induction letters as [|char rest IH]; intros Honly; simpl; [done|].
  assert (Hrest : forall c, c ∈ rest -> c ∉ existing -> c = k).
  { intros c Hin. apply Honly, elem_of_cons. by right. }
  case_bool_decide as Hin; [by apply IH|].
  rewrite (Honly char); [by apply IH | apply elem_of_cons; by left | done].
Qed.

Lemma lastMissing_unique existing letters missing k :
  k ∈ letters -> k ∉ existing ->
  (forall c, c ∈ letters -> c ∉ existing -> c = k) ->
  lastMissing existing letters missing = Some k.
Proof.
  revert missing. induction letters as [|char rest IH]; intros missing Hk Hnew Honly; simpl.
  - by apply elem_of_nil in Hk.
  - assert (Hrest : forall c, c ∈ rest -> c ∉ existing -> c = k).
    { intros c Hin. apply Honly, elem_of_cons. by right. }
    case_bool_decide as Hin.
    + apply IH; [|done|done]. apply elem_of_cons in Hk as [->|Hk]; done.
    + rewrite (Honly char); [by apply lastMissing_stable | apply elem_of_cons; by left | done].
Qed.

Lemma NoDup_ALL_LETTERS : NoDup ALL_LETTERS.
Proof. apply (bool_decide_unpack _). by vm_compute. Qed.

Lemma letter_truthy x : x ∈ ALL_LETTERS -> truthy x = true.
Proof.
  intros Hin. apply list_elem_of_In in Hin. unfold ALL_LETTERS in Hin.
  by apply in_map_iff in Hin as (c & <- & _).
Qed.

(** Of 52 letters, a set of 51 misses exactly one. *)
Lemma one_letter_missing (existing : gset jsstring) :
  existing ⊆ (list_to_set ALL_LETTERS : gset jsstring) ->
  size existing = 51%nat ->
  exists k, k ∈ ALL_LETTERS /\ (k ∉ existing) /\
            forall c, c ∈ ALL_LETTERS -> c ∉ existing -> c = k.
Proof.
  intros Hsub Hsize.
  assert (Hone : size ((list_to_set ALL_LETTERS : gset jsstring) ∖ existing) = 1%nat).
  { rewrite size_difference by done. rewrite size_list_to_set by apply NoDup_ALL_LETTERS.
    rewrite Hsize. reflexivity. }
  apply size_1_elem_of in Hone as [k Hk]. exists k.
  assert (Hall : forall c, c ∈ ALL_LETTERS -> c ∉ existing -> c = k).
  { intros c Hc Hcnew.
    assert (Hck : c ∈ ({[k]} : gset jsstring)); [|by apply elem_of_singleton in Hck].
    apply Hk, elem_of_difference. split; [by apply elem_of_list_to_set | done]. }
  assert (Hin : k ∈ (list_to_set ALL_LETTERS : gset jsstring) ∖ existing).
  { apply Hk. by apply elem_of_singleton. }
  apply elem_of_difference in Hin as [Hin Hnew]. apply elem_of_list_to_set in Hin.
  done.
Qed.

Lemma elem_of_keys (m : gmap jsstring jsstring) k :
  k ∈ (list_to_set (fst <$> map_to_list m) : gset jsstring) <-> is_Some (m !! k).
Proof.
  rewrite elem_of_list_to_set, list_elem_of_fmap. split.
  - intros ([k' v] & -> & Hin). apply elem_of_map_to_list in Hin. by exists v.
  - intros [v Hv]. exists (k, v). split; [done|]. by apply elem_of_map_to_list.
Qed.

Lemma elem_of_values (m : gmap jsstring jsstring) v :
  v ∈ (list_to_set (snd <$> map_to_list m) : gset jsstring) <-> exists k, m !! k = Some v.
Proof.
  rewrite elem_of_list_to_set, list_elem_of_fmap. split.
  - intros ([k v'] & -> & Hin). apply elem_of_map_to_list in Hin. by exists k.
  - intros [k Hk]. exists (k, v). split; [done|]. by apply elem_of_map_to_list.
Qed.

Lemma values_injective (m : gmap jsstring jsstring) k1 k2 v :
  NoDup (snd <$> map_to_list m) ->
  m !! k1 = Some v -> m !! k2 = Some v -> k1 = k2.
Proof.
  intros Hnodup H1 H2.
  apply elem_of_map_to_list in H1, H2.
  assert (Hinj : forall (l : list (jsstring * jsstring)) a b,
            NoDup (snd <$> l) -> a ∈ l -> b ∈ l -> snd a = snd b -> a = b).
  { clear. induction l as [|x l IH]; intros a b Hnd Ha Hb Heq.
    - by apply elem_of_nil in Ha.
    - rewrite fmap_cons in Hnd. apply NoDup_cons in Hnd as [Hx Hnd].
      apply elem_of_cons in Ha as [->|Ha]; apply elem_of_cons in Hb as [->|Hb].
      + done.
      + exfalso. apply Hx. rewrite Heq. apply list_elem_of_fmap. by exists b.
      + exfalso. apply Hx. rewrite <- Heq. apply list_elem_of_fmap. by exists a.
      + by apply IH. }
  by injection (Hinj _ (k1, v) (k2, v) Hnodup H1 H2 eq_refl).
Qed.

(** C5.  When the geometry lookup of [solveFont] leaves a map of exactly
    51 entries whose keys and values are Latin letters, no letter being
    the value of two keys, then exactly one letter is no key and exactly
    one letter is no value, [solveFont] returns the map extended by that
    pair, and the returned map is a total bijection over the 52
    letters. *)
Theorem gap_completion_yields_bijection fontMapping readFont fontPath font :
  readFont fontPath = Normal font ->
  size (lookupPhase fontMapping font) = 51%nat ->
  letterPairs (lookupPhase fontMapping font) ->
  exists missingKey missingValue,
    missingKey ∈ ALL_LETTERS /\
    lookupPhase fontMapping font !! missingKey = None /\
    missingValue ∈ ALL_LETTERS /\
    (forall k, lookupPhase fontMapping font !! k <> Some missingValue) /\
    solveFont fontMapping readFont fontPath =
      Normal (<[missingKey := missingValue]> (lookupPhase fontMapping font)) /\
    totalBijection (<[missingKey := missingValue]> (lookupPhase fontMapping font)).
Proof.
  intros Hread Hsize [Hletters Hnodup].
  set (d := lookupPhase fontMapping font) in *.
  set (keys := list_to_set (fst <$> map_to_list d) : gset jsstring).
  set (values := list_to_set (snd <$> map_to_list d) : gset jsstring).
  assert (Hlen : length (map_to_list d) = 51%nat) by by rewrite length_map_to_list.
  destruct (one_letter_missing keys) as (k & Hk & Hknew & Hkonly).
  { intros c Hc. apply elem_of_keys in Hc as [v Hv].
    apply elem_of_list_to_set. by apply (Hletters c v). }
  { unfold keys. rewrite size_list_to_set by apply NoDup_fst_map_to_list.
    by rewrite length_fmap. }
  destruct (one_letter_missing values) as (v & Hv & Hvnew & Hvonly).
  { intros c Hc. apply elem_of_values in Hc as [c' Hc'].
    apply elem_of_list_to_set. by apply (Hletters c' c). }
  { unfold values. rewrite size_list_to_set by done. by rewrite length_fmap. }
  assert (Hknone : d !! k = None).
  { apply eq_None_not_Some. intros Hsome. by apply Hknew, elem_of_keys. }
  assert (Hvnone : forall c, d !! c <> Some v).
  { intros c Hc. apply Hvnew, elem_of_values. by exists c. }
  exists k, v. split; [done|]. split; [done|]. split; [done|]. split; [done|]. split.
  - unfold solveFont. rewrite Hread. simpl. f_equal. fold d. unfold completeGap.
    rewrite !length_fmap, Hlen. change (51 =? TOTAL_LETTERS - 1)%nat with true. cbn [andb].
    fold keys values. rewrite scan_fold.
    rewrite (lastMissing_unique keys ALL_LETTERS None k) by done.
    rewrite (lastMissing_unique values ALL_LETTERS None v) by done.
    by rewrite (letter_truthy k), (letter_truthy v).
  - split; [|split].
    + intros c. destruct (decide (c = k)) as [->|Hne].
      * rewrite lookup_insert_eq. split; [done|]. by eexists.
      * rewrite lookup_insert_ne by done. split.
        -- intros [x Hx]. by apply (Hletters c x).
        -- intros Hc. apply elem_of_keys. fold keys.
           destruct (decide (c ∈ keys)) as [|Hnew]; [done|]. exfalso. by apply Hne, Hkonly.
    + intros x. split.
      * intros [c Hc]. destruct (decide (c = k)) as [->|Hne].
        -- rewrite lookup_insert_eq in Hc. by injection Hc as <-.
        -- rewrite lookup_insert_ne in Hc by done. by apply (Hletters c x).
      * intros Hx. destruct (decide (x = v)) as [->|Hne].
        -- exists k. by rewrite lookup_insert_eq.
        -- destruct (decide (x ∈ values)) as [Hold|Hnew]; [|exfalso; by apply Hne, Hvonly].
           apply elem_of_values in Hold as [c Hc]. exists c.
           rewrite lookup_insert_ne; [done|]. intros <-. congruence.
    + intros k1 k2 x H1 H2.
      destruct (decide (k1 = k)) as [->|Hne1]; destruct (decide (k2 = k)) as [->|Hne2].
      * done.
      * rewrite lookup_insert_eq in H1. rewrite lookup_insert_ne in H2 by done.
        injection H1 as <-. by destruct (Hvnone k2).
      * rewrite lookup_insert_eq in H2. rewrite lookup_insert_ne in H1 by done.
        injection H2 as <-. by destruct (Hvnone k1).
      * rewrite lookup_insert_ne in H1, H2 by done. by eapply values_injective.
Qed.

(** C5, witness: the font and the catalog of [Sample]. *)
Lemma gap_completion_witness :
  exists missingKey missingValue,
    missingKey ∈ ALL_LETTERS /\
    lookupPhase Sample.catalog51 Sample.font51 !! missingKey = None /\
    missingValue ∈ ALL_LETTERS /\
    (forall k, lookupPhase Sample.catalog51 Sample.font51 !! k <> Some missingValue) /\
    solveFont Sample.catalog51 (Sample.onDisk Sample.font51) (js "public/fonts/mtcijhsegc.ttf") =
      Normal (<[missingKey := missingValue]> (lookupPhase Sample.catalog51 Sample.font51)) /\
    totalBijection (<[missingKey := missingValue]> (lookupPhase Sample.catalog51 Sample.font51)).
Proof.
  apply (gap_completion_yields_bijection Sample.catalog51 (Sample.onDisk Sample.font51)
           (js "public/fonts/mtcijhsegc.ttf") Sample.font51).
  - reflexivity.
  - by vm_compute.
  - apply (bool_decide_unpack _). by vm_compute.
Defined.

End DecoderFacts.

(** ** The fetch protocol *)

Module FetchFacts.
Import JS JSFacts Fetch.

Lemma contains_includes (s phrase : jsstring) :
  includes s phrase = true <-> contains s phrase.
Proof. apply includes_spec. Qed.

(** C8.  The block heuristic flags a response exactly when the body text
    contains one of the four explicit phrases, or the html is shorter than
    5000 and the body text contains a generic phrase; a page of 5000 or
    more that contains no explicit phrase is not flagged. *)
Theorem block_heuristic_exact (bodyText html : jsstring) :
  (isBlocked bodyText html = true <->
     (exists phrase, phrase ∈ explicitPhrases /\ contains bodyText phrase) \/
     ((length html < 5000)%nat /\
      exists phrase, phrase ∈ genericPhrases /\ contains bodyText phrase)) /\
  ((5000 <= length html)%nat ->
   (forall phrase, phrase ∈ explicitPhrases -> ~ contains bodyText phrase) ->
   isBlocked bodyText html = false).
Proof.
  assert (Hiff : isBlocked bodyText html = true <->
     (exists phrase, phrase ∈ explicitPhrases /\ contains bodyText phrase) \/
     ((length html < 5000)%nat /\
      exists phrase, phrase ∈ genericPhrases /\ contains bodyText phrase)).
  { unfold isBlocked, explicitPhrases, genericPhrases.
    rewrite !orb_true_iff, andb_true_iff, orb_true_iff, Nat.ltb_lt, !contains_includes.
    split.
    - intros [[[[H|H]|H]|H]|[Hlen [H|H]]];
        [left | left | left | left | right; split; [done|] | right; split; [done|]];
        eexists; (split; [|exact H]); set_solver.
    - intros [(phrase & Hin & H) | (Hlen & phrase & Hin & H)].
      + rewrite !elem_of_cons, elem_of_nil in Hin.
        destruct Hin as [->|[->|[->|[->|[]]]]]; tauto.
      + rewrite !elem_of_cons, elem_of_nil in Hin.
        destruct Hin as [->|[->|[]]]; tauto. }
  split; [exact Hiff|].
  intros Hlen Hnone. apply not_true_is_false. rewrite Hiff.
  intros [(phrase & Hin & H) | [Hshort _]]; [by eapply Hnone | lia].
Qed.

Section Call.
Variables (url : jsstring) (retries : Z) (visit : Z -> Visit).

Lemma attemptsMade_app es1 es2 :
  attemptsMade (es1 ++ es2) = (attemptsMade es1 + attemptsMade es2)%nat.
Proof. unfold attemptsMade. by rewrite List.filter_app, length_app. Qed.

Lemma attemptsMade_quiet es : quiet es -> attemptsMade es = 0%nat.
Proof.
  unfold attemptsMade. induction 1 as [|e es He _ IH]; simpl; [done|]. by rewrite He.
Qed.

Lemma attemptsMade_cons_fetching b es :
  quiet es -> attemptsMade (Fetching b :: es) = 1%nat.
Proof.
  intros Hq. change (Fetching b :: es) with ([Fetching b] ++ es).
  rewrite attemptsMade_app, (attemptsMade_quiet es Hq). reflexivity.
Qed.

Lemma quiet_no_fetching es b : quiet es -> ~ In (Fetching b) es.
Proof.
  intros Hq Hin. apply list_elem_of_In in Hin.
  eapply Forall_forall in Hq; [|exact Hin]. discriminate Hq.
Qed.

(** The events of one turn: its navigation first, then no other. *)
Lemma handler_events attempt c error l :
  exists rest, events (handler retries attempt c error l) = events l ++ rest /\ quiet rest.
Proof.
  unfold handler. destruct (attempt <? retries - 1)%Z; simpl.
  - destruct ((attempt =? 1)%Z && negb (wasRecycled l)); simpl.
    + eexists. rewrite <- app_assoc. split; [reflexivity|].
      repeat constructor.
    + eexists. split; [reflexivity|]. repeat constructor.
  - exists []. split; [by rewrite app_nil_r | constructor].
Qed.

Lemma attemptOnce_events attempt l :
  match attemptOnce url retries attempt (visit attempt) l with
  | Return _ l' => events l' = events l ++ [Fetching attempt]
  | Continue l' =>
      exists rest, events l' = events l ++ Fetching attempt :: rest /\ quiet rest
  end.
Proof.
  unfold attemptOnce. destruct (visitPage url (visit attempt)) as [[h blocked]|error].
  - destruct (blocked && (attempt <? retries - 1)%Z); simpl; [|done].
    eexists. rewrite <- !app_assoc. split; [reflexivity|]. repeat constructor.
  - destruct (handler_events attempt (replacement (visit attempt)) error
                (log (Fetching attempt) l)) as (rest & -> & Hq).
    exists rest. simpl. by rewrite <- app_assoc.
Qed.

Lemma fetchLoop_split k remaining attempt l lk :
  loopAt url retries visit k attempt l = Some lk ->
  fetchLoop url retries visit (k + remaining) attempt l =
  fetchLoop url retries visit remaining (attempt + Z.of_nat k) lk.
Proof.
  revert attempt l. induction k as [|k IH]; intros attempt l; simpl.
  - intros [= ->]. by rewrite Z.add_0_r.
  - destruct (attemptOnce url retries attempt (visit attempt) l) as [r l'|l']; [done|].
    intros Hk. rewrite (IH _ _ Hk). f_equal. lia.
Qed.

(** A navigation the call started was reached through turns that all went
    on. *)
Lemma fetchLoop_reached remaining attempt l b :
  In (Fetching b) (events (snd (fetchLoop url retries visit remaining attempt l))) ->
  In (Fetching b) (events l) \/
  exists k lk,
    (k < remaining)%nat /\ b = (attempt + Z.of_nat k)%Z /\
    loopAt url retries visit k attempt l = Some lk.
Proof.
  revert attempt l. induction remaining as [|n IH]; intros attempt l; simpl; [by left|].
  pose proof (attemptOnce_events attempt l) as He.
  assert (Hnow : b = attempt -> exists k lk,
    (k < S n)%nat /\ b = (attempt + Z.of_nat k)%Z /\
    loopAt url retries visit k attempt l = Some lk).
  { intros ->. exists 0%nat, l. split; [lia|]. split; [lia|done]. }
  destruct (attemptOnce url retries attempt (visit attempt) l) as [r l'|l'] eqn:Hturn; simpl.
  - rewrite He. intros Hin. apply in_app_or in Hin as [Hin|[[= <-]|[]]]; [by left|].
    right. by apply Hnow.
  - destruct He as (rest & He & Hq). intros Hin.
    destruct (IH _ _ Hin) as [Hold | (k & lk & Hk & Hb & Hat)].
    + rewrite He in Hold.
      apply in_app_or in Hold as [Hold|[[= <-]|Hold]]; [by left | right; by apply Hnow |].
      by apply quiet_no_fetching in Hold.
    + right. exists (S k), lk. split; [lia|]. split; [lia|]. simpl. by rewrite Hturn.
Qed.

End Call.

Lemma enter_quiet page env pool : quiet (events (enter page env pool)).
Proof.
  unfold enter. destruct (Pool.shouldRecycle _); simpl; repeat constructor.
Qed.

Lemma fetchPage_reached url page retries env pool b :
  In (Fetching b) (trace (fetchPage url (Some page) retries env pool)) ->
  exists k l,
    (k < Z.to_nat retries)%nat /\ b = Z.of_nat k /\
    loopAt url retries (visit env) k 0 (enter page env pool) = Some l.
Proof.
  unfold fetchPage. destruct (negb (truthy url)); simpl; [done|].
  intros Hin. apply fetchLoop_reached in Hin as [Hin | (k & l & Hk & -> & Hat)].
  - by apply quiet_no_fetching in Hin; [|apply enter_quiet].
  - exists k, l. split; [done|]. split; [lia|done].
Qed.

Lemma visitPage_status url v response t :
  goto v = Normal (Some response) ->
  title v = Normal t ->
  (status response = 404 \/ 500 <= status response)%Z ->
  visitPage url v =
  Throw (Error (if (status response =? 404)%Z
                then js "Page not found: " ++ url
                else js "Server error (" ++ Number_toString (status response) ++ js ")")).
Proof.
  intros Hgoto Htitle Hstatus. unfold visitPage. rewrite Hgoto, Htitle. simpl.
  destruct (status response =? 404)%Z eqn:H404; [done|].
  destruct (500 <=? status response)%Z eqn:H500; [done|]. lia.
Qed.

(** C10.  When the block heuristic flags the content of the final attempt
    (attempt [retries - 1]), [fetchPage] raises nothing and recycles
    nothing: it returns the flagged page's html with the session and the
    [recycled] flag the attempt started with, the pool is the one the
    attempt found, and the navigation is the last thing the call did. *)
Theorem blocked_final_attempt_is_returned url page retries env pool blockedHtml :
  In (Fetching (retries - 1)) (trace (fetchPage url (Some page) retries env pool)) ->
  visitPage url (visit env (retries - 1)) = Normal (blockedHtml, true) ->
  exists l,
    loopAt url retries (visit env) (Z.to_nat (retries - 1)) 0 (enter page env pool) = Some l /\
    completion (fetchPage url (Some page) retries env pool) =
      Normal {| html := blockedHtml; page := currentPage l; recycled := wasRecycled l |} /\
    poolAfter (fetchPage url (Some page) retries env pool) = Fetch.pool l /\
    trace (fetchPage url (Some page) retries env pool) = events l ++ [Fetching (retries - 1)].
Proof.
  intros Hmade Hvisit.
  destruct (fetchPage_reached _ _ _ _ _ _ Hmade) as (k & l & Hk & Hlast & Hat).
  assert (k = Z.to_nat (retries - 1)) as -> by lia.
  exists l. split; [exact Hat|].
  unfold fetchPage in *. destruct (negb (truthy url)); simpl in *; [done|].
  replace (Z.to_nat retries) with (Z.to_nat (retries - 1) + 1)%nat by lia.
  rewrite (fetchLoop_split _ _ _ _ _ _ _ _ Hat), <- Hlast, Z.add_0_l.
  cbn [fetchLoop]. unfold attemptOnce. rewrite Hvisit.
  by rewrite Z.ltb_irrefl, andb_false_r.
Qed.


Lemma includes_suffix (pre needle : jsstring) : includes (pre ++ needle) needle = true.
Proof. apply includes_spec. exists pre, []. by rewrite app_nil_r. Qed.

(** C10, witness: a site that blocks twice, two attempts allowed. *)
Lemma blocked_final_witness :
  completion (fetchPage Sample.novelUrl (Some 0%nat) 2 (Sample.world Sample.refusing)
                Sample.onePage)
  = Normal {| html := Sample.story ++ js " you have been blocked";
              page := 1%nat; recycled := true |}.
Proof.
  destruct (blocked_final_attempt_is_returned Sample.novelUrl 0%nat 2
              (Sample.world Sample.refusing) Sample.onePage
              (Sample.story ++ js " you have been blocked"))
    as (l & Hat & Hdone & _); [in_list | reflexivity |].
  refine (eq_trans Hdone _). vm_compute in Hat. injection Hat as <-. reflexivity.
Defined.

End FetchFacts.

(** ** The batch run *)

Module OrchestratorFacts.
Import JS Orchestrator.

(** *** Histories *)

Lemma historyOf_app t id ws1 ws2 :
  historyOf t id (ws1 ++ ws2) = historyOf t id ws1 ++ historyOf t id ws2.
Proof. unfold historyOf. by rewrite List.filter_app, map_app. Qed.

Lemma historyOf_own t id ws :
  Forall (fun w => concerns t id w = true) ws -> historyOf t id ws = map transition ws.
Proof.
  unfold historyOf. induction 1 as [|w ws Hw _ IH]; simpl; [done|].
  rewrite Hw. simpl. by rewrite IH.
Qed.

Lemma concerns_other t id t' id' w :
  concerns t id w = true -> (t' <> t \/ id' <> id) -> concerns t' id' w = false.
Proof.
  unfold concerns. destruct (table w), t, t'; try done.
  - intros Hrow [?|?]; [done|]. apply Z.eqb_eq in Hrow. apply Z.eqb_neq. congruence.
  - intros Hrow [?|?]; [done|]. apply Z.eqb_eq in Hrow. apply Z.eqb_neq. congruence.
Qed.

Lemma historyOf_foreign t id t' id' ws :
  Forall (fun w => concerns t id w = true) ws -> (t' <> t \/ id' <> id) ->
  historyOf t' id' ws = [].
Proof.
  unfold historyOf. induction 1 as [|w ws Hw _ IH]; intros Hne; simpl; [done|].
  rewrite (concerns_other t id t' id' w Hw Hne). by apply IH.
Qed.

Lemma historyOf_elem w ws :
  w ∈ ws -> transition w ∈ historyOf (table w) (row w) ws.
Proof.
  intros Hin. unfold historyOf. apply list_elem_of_In, in_map, filter_In.
  split; [by apply list_elem_of_In|].
  unfold concerns. destruct (table w); apply Z.eqb_refl.
Qed.

Lemma lifecycle_marks h before :
  lifecycle h -> (before, PROCESSING) ∈ h -> before = Some PENDING.
Proof.
  intros Hlife Hin. destruct Hlife; unfold PENDING, PROCESSING, SUCCESS, ERROR in *;
    rewrite ?elem_of_cons, ?elem_of_nil in Hin; intuition congruence.
Qed.

(** *** Statements *)

Lemma grows_refl t id d : grows t id d d.
Proof. by left. Qed.

Lemma grows_trans t id d1 d2 d3 : grows t id d1 d2 -> grows t id d2 d3 -> grows t id d1 d3.
Proof.
  intros [H12|(Ht & Hnone & Hnew)] [H23|(Ht' & Hnone' & Hnew')].
  - left. congruence.
  - right. split; [done|]. split; [congruence|done].
  - right. split; [done|]. split; [done|congruence].
  - congruence.
Qed.

Section Rows.
Context {A : Type} (key : A -> Z) (status : A -> Z).

Lemma find_map_keyed (f : A -> A) id id' (rows : list A) :
  (forall x, key (f x) = key x) ->
  find (fun x => (key x =? id')%Z) (map (fun x => if (key x =? id)%Z then f x else x) rows)
  = (fun x => if (key x =? id)%Z then f x else x)
      <$> find (fun x => (key x =? id')%Z) rows.
Proof.
  intros Hkey. induction rows as [|x rows IH]; simpl; [done|].
  assert (Hsame : key (if (key x =? id)%Z then f x else x) = key x).
  { by destruct (key x =? id)%Z. }
  rewrite Hsame. by destruct (key x =? id')%Z.
Qed.

Lemma keys_map_keyed (f : A -> A) id (rows : list A) :
  (forall x, key (f x) = key x) ->
  map key (map (fun x => if (key x =? id)%Z then f x else x) rows) = map key rows.
Proof.
  intros Hkey. rewrite map_map. apply map_ext. intros x. by destruct (key x =? id)%Z.
Qed.

Lemma find_key id (rows : list A) x :
  find (fun x => (key x =? id)%Z) rows = Some x -> key x = id /\ x ∈ rows.
Proof.
  intros Hfind. apply find_some in Hfind as [Hin Hkey].
  split; [by apply Z.eqb_eq | by apply list_elem_of_In].
Qed.

Lemma find_none_key id (rows : list A) :
  find (fun x => (key x =? id)%Z) rows = None <-> id ∉ map key rows.
Proof.
  induction rows as [|x rows IH]; simpl.
  - split; [intros _ Hin; by apply elem_of_nil in Hin | done].
  - rewrite not_elem_of_cons. destruct (Z.eqb_spec (key x) id) as [->|Hne].
    + split; [done | by intros [? _]].
    + rewrite IH. split; [by split | by intros [_ ?]].
Qed.

Lemma find_unique (rows : list A) x :
  NoDup (map key rows) -> x ∈ rows ->
  find (fun y => (key y =? key x)%Z) rows = Some x.
Proof.
  induction rows as [|y rows IH]; simpl; intros Hnd Hin.
  - by apply elem_of_nil in Hin.
  - apply NoDup_cons in Hnd as [Hy Hnd].
    apply elem_of_cons in Hin as [->|Hin]; [by rewrite Z.eqb_refl|].
    destruct (Z.eqb_spec (key y) (key x)) as [Heq|_]; [|by apply IH].
    exfalso. apply Hy. rewrite Heq. apply list_elem_of_In, in_map. by apply list_elem_of_In.
Qed.

Lemma find_snoc (p : A -> bool) (rows : list A) x :
  find p (rows ++ [x]) =
  match find p rows with
  | Some y => Some y
  | None => if p x then Some x else None
  end.
Proof.
  induction rows as [|y rows IH]; simpl; [done|]. by destruct (p y).
Qed.

End Rows.

Lemma max_bound (ids : list Z) id : id ∈ ids -> (id <= fold_right Z.max 0 ids)%Z.
Proof.
  induction ids as [|x ids IH]; simpl; intros Hin.
  - by apply elem_of_nil in Hin.
  - apply elem_of_cons in Hin as [->|Hin]; [lia|]. specialize (IH Hin). lia.
Qed.

Lemma nextChapterId_fresh d : nextChapterId d ∉ map chapter_id (chapters d).
Proof. intros Hin. apply max_bound in Hin. unfold nextChapterId in Hin. lia. Qed.

(** [status] of the row that a statement addresses, and of the others. *)
Lemma statusOf_updateNovelStatus st id t' id' d :
  statusOf t' id' (updateNovelStatus st id d) =
  match t' with
  | Novels => if (id' =? id)%Z then (fun _ => st) <$> statusOf Novels id d
              else statusOf Novels id' d
  | Chapters => statusOf Chapters id' d
  end.
Proof.
  destruct t'; [|done]. unfold statusOf, updateNovelStatus. cbn [novels].
  rewrite (find_map_keyed novel_id) by done.
  destruct (Z.eqb_spec id' id) as [->|Hne].
  - destruct (find _ (novels d)) as [n|] eqn:Hfind; [|done].
    apply (find_key novel_id) in Hfind as [Hkey _]. simpl.
    by rewrite Hkey, Z.eqb_refl.
  - destruct (find _ (novels d)) as [n|] eqn:Hfind; [|done].
    apply (find_key novel_id) in Hfind as [Hkey _]. simpl.
    destruct (Z.eqb_spec (novel_id n) id) as [Heq|_]; [congruence|done].
Qed.

Lemma statusOf_updateNovel title total st id t' id' d :
  statusOf t' id' (updateNovel id title total st d) =
  match t' with
  | Novels => if (id' =? id)%Z then (fun _ => st) <$> statusOf Novels id d
              else statusOf Novels id' d
  | Chapters => statusOf Chapters id' d
  end.
Proof.
  destruct t'; [|done]. unfold statusOf, updateNovel. cbn [novels].
  rewrite (find_map_keyed novel_id) by done.
  destruct (Z.eqb_spec id' id) as [->|Hne].
  - destruct (find _ (novels d)) as [n|] eqn:Hfind; [|done].
    apply (find_key novel_id) in Hfind as [Hkey _]. simpl.
    by rewrite Hkey, Z.eqb_refl.
  - destruct (find _ (novels d)) as [n|] eqn:Hfind; [|done].
    apply (find_key novel_id) in Hfind as [Hkey _]. simpl.
    destruct (Z.eqb_spec (novel_id n) id) as [Heq|_]; [congruence|done].
Qed.

Lemma statusOf_updateChapterStatus st id t' id' d :
  statusOf t' id' (updateChapterStatus st id d) =
  match t' with
  | Novels => statusOf Novels id' d
  | Chapters => if (id' =? id)%Z then (fun _ => st) <$> statusOf Chapters id d
                else statusOf Chapters id' d
  end.
Proof.
  destruct t'; [done|]. unfold statusOf, updateChapterStatus. cbn [chapters].
  rewrite (find_map_keyed chapter_id) by done.
  destruct (Z.eqb_spec id' id) as [->|Hne].
  - destruct (find _ (chapters d)) as [c|] eqn:Hfind; [|done].
    apply (find_key chapter_id) in Hfind as [Hkey _]. simpl.
    by rewrite Hkey, Z.eqb_refl.
  - destruct (find _ (chapters d)) as [c|] eqn:Hfind; [|done].
    apply (find_key chapter_id) in Hfind as [Hkey _]. simpl.
    destruct (Z.eqb_spec (chapter_id c) id) as [Heq|_]; [congruence|done].
Qed.

Lemma statusOf_updateChapter title content st id t' id' d :
  statusOf t' id' (updateChapter id title content st d) =
  match t' with
  | Novels => statusOf Novels id' d
  | Chapters => if (id' =? id)%Z then (fun _ => st) <$> statusOf Chapters id d
                else statusOf Chapters id' d
  end.
Proof.
  destruct t'; [done|]. unfold statusOf, updateChapter. cbn [chapters].
  rewrite (find_map_keyed chapter_id) by done.
  destruct (Z.eqb_spec id' id) as [->|Hne].
  - destruct (find _ (chapters d)) as [c|] eqn:Hfind; [|done].
    apply (find_key chapter_id) in Hfind as [Hkey _]. simpl.
    by rewrite Hkey, Z.eqb_refl.
  - destruct (find _ (chapters d)) as [c|] eqn:Hfind; [|done].
    apply (find_key chapter_id) in Hfind as [Hkey _]. simpl.
    destruct (Z.eqb_spec (chapter_id c) id) as [Heq|_]; [congruence|done].
Qed.


Lemma statusOf_none t id d :
  statusOf t id d = None <->
  match t with
  | Novels => id ∉ map novel_id (novels d)
  | Chapters => id ∉ map chapter_id (chapters d)
  end.
Proof.
  destruct t; unfold statusOf.
  - rewrite <- (find_none_key novel_id). by destruct (find _ _).
  - rewrite <- (find_none_key chapter_id). by destruct (find _ _).
Qed.

(** Inserting a chapter changes no status and keeps the keys apart. *)
Lemma insertChapter_grows novel url title content number d d' t id :
  insertChapter novel url title content number PENDING d = Normal d' ->
  grows t id d d' /\ (keyed d -> keyed d') /\ novels d' = novels d.
Proof.
  unfold insertChapter. destruct (existsb _ _); [done|]. intros [= <-].
  split; [|split; [|done]].
  - destruct t; [by left|]. unfold grows, statusOf. cbn [chapters].
    rewrite find_snoc. cbn [chapter_id].
    destruct (find _ (chapters d)) as [c|] eqn:Hfind; [by left|].
    destruct (nextChapterId d =? id)%Z; [by right | by left].
  - intros [Hnovels Hchapters]. split; [done|]. cbn [chapters].
    rewrite map_app. simpl. apply NoDup_app. split; [done|]. split.
    + intros x Hin Hnew. apply list_elem_of_singleton in Hnew as ->.
      by apply nextChapterId_fresh in Hin.
    + apply NoDup_singleton.
Qed.

Lemma insertLink_grows novel r link t id :
  grows t id (db r) (db (insertLink novel r link)) /\
  (keyed (db r) -> keyed (db (insertLink novel r link))) /\
  novels (db (insertLink novel r link)) = novels (db r) /\
  writes (insertLink novel r link) = writes r.
Proof.
  unfold insertLink.
  destruct (insertChapter _ _ _ _ _ _ _) as [d'|error] eqn:Hinsert.
  - destruct (insertChapter_grows _ _ _ _ _ _ _ t id Hinsert) as (Hg & Hk & Hn). done.
  - split; [apply grows_refl|done].
Qed.

Lemma insertLinks_grow novel links r t id :
  grows t id (db r) (db (fold_left (insertLink novel) links r)) /\
  (keyed (db r) -> keyed (db (fold_left (insertLink novel) links r))) /\
  novels (db (fold_left (insertLink novel) links r)) = novels (db r) /\
  writes (fold_left (insertLink novel) links r) = writes r.
Proof.
  revert r. induction links as [|link rest IH]; intros r; simpl.
  - split; [apply grows_refl|done].
  - destruct (insertLink_grows novel r link t id) as (Hg & Hk & Hn & Hw).
    destruct (IH (insertLink novel r link)) as (Hg' & Hk' & Hn' & Hw').
    split; [by eapply grows_trans|]. split; [auto|]. split; congruence.
Qed.

Lemma concerns_own t id before after :
  concerns t id {| table := t; row := id; before := before; after := after |} = true.
Proof. unfold concerns. destruct t; apply Z.eqb_refl. Qed.

Lemma sameRow_refl t id : sameRow t id t id = true.
Proof. destruct t; apply Z.eqb_refl. Qed.

Lemma sameRow_other t id t' id' : (t' <> t \/ id' <> id) -> sameRow t id t' id' = false.
Proof.
  intros Hother. destruct t, t'; simpl; try done.
  all: apply Z.eqb_neq; by destruct Hother.
Qed.

Lemma sets_updateNovelStatus st id d s :
  statusOf Novels id d = Some s -> sets Novels id st d (updateNovelStatus st id d).
Proof.
  intros Hrow. split; [|split; [|done]].
  - intros t' id'. rewrite statusOf_updateNovelStatus. destruct t'; [|done]. cbn [sameRow].
    destruct (id' =? id)%Z; [by rewrite Hrow|done].
  - apply (keys_map_keyed novel_id). done.
Qed.

Lemma sets_updateNovel title total st id d s :
  statusOf Novels id d = Some s -> sets Novels id st d (updateNovel id title total st d).
Proof.
  intros Hrow. split; [|split; [|done]].
  - intros t' id'. rewrite statusOf_updateNovel. destruct t'; [|done]. cbn [sameRow].
    destruct (id' =? id)%Z; [by rewrite Hrow|done].
  - apply (keys_map_keyed novel_id). done.
Qed.

Lemma sets_updateChapterStatus st id d s :
  statusOf Chapters id d = Some s -> sets Chapters id st d (updateChapterStatus st id d).
Proof.
  intros Hrow. split; [|split; [done|]].
  - intros t' id'. rewrite statusOf_updateChapterStatus. destruct t'; [done|]. cbn [sameRow].
    destruct (id' =? id)%Z; [by rewrite Hrow|done].
  - apply (keys_map_keyed chapter_id). done.
Qed.

Lemma sets_updateChapter title content st id d s :
  statusOf Chapters id d = Some s -> sets Chapters id st d (updateChapter id title content st d).
Proof.
  intros Hrow. split; [|split; [done|]].
  - intros t' id'. rewrite statusOf_updateChapter. destruct t'; [done|]. cbn [sameRow].
    destruct (id' =? id)%Z; [by rewrite Hrow|done].
  - apply (keys_map_keyed chapter_id). done.
Qed.

Lemma sets_keyed t id st d d' : sets t id st d d' -> keyed d -> keyed d'.
Proof. intros (_ & Hn & Hc) [? ?]. split; congruence. Qed.

Lemma sets_own t id st d d' : sets t id st d d' -> statusOf t id d' = Some st.
Proof. intros [Hs _]. by rewrite Hs, sameRow_refl. Qed.

Lemma sets_frame t id st d d' t' id' :
  sets t id st d d' -> (t' <> t \/ id' <> id) -> statusOf t' id' d' = statusOf t' id' d.
Proof. intros [Hs _] Hother. by rewrite Hs, sameRow_other. Qed.

(** PENDING to PROCESSING to [final], by two statements. *)
Lemma two_writes_advance t id final r d1 d2 :
  statusOf t id (db r) = Some PENDING ->
  sets t id PROCESSING (db r) d1 ->
  sets t id final d1 d2 ->
  final = SUCCESS \/ final = ERROR ->
  advances lifecycle t id r (wrote t id final d2 (wrote t id PROCESSING d1 r)).
Proof.
  intros Hpending H1 H2 Hfinal. split; cbn [wrote db writes].
  - eexists. rewrite <- app_assoc. split; [reflexivity|]. split; [done|]. split.
    + repeat constructor; apply concerns_own.
    + cbn [map transition before after app]. rewrite Hpending, (sets_own _ _ _ _ _ H1).
      destruct Hfinal as [-> | ->]; constructor.
  - rewrite (sets_own _ _ _ _ _ H2). destruct Hfinal as [-> | ->]; [by left | by right].
  - intros t' id' Hother. left.
    by rewrite (sets_frame _ _ _ _ _ _ _ H2 Hother), (sets_frame _ _ _ _ _ _ _ H1 Hother).
  - intros Hk. by eapply sets_keyed, sets_keyed.
Qed.

(** PENDING to PROCESSING to ERROR and to ERROR again, by three
    statements. *)
Lemma three_writes_advance t id r d1 d2 d3 :
  statusOf t id (db r) = Some PENDING ->
  sets t id PROCESSING (db r) d1 ->
  sets t id ERROR d1 d2 ->
  sets t id ERROR d2 d3 ->
  advances lifecycle t id r
    (wrote t id ERROR d3 (wrote t id ERROR d2 (wrote t id PROCESSING d1 r))).
Proof.
  intros Hpending H1 H2 H3. split; cbn [wrote db writes].
  - eexists. rewrite <- !app_assoc. split; [reflexivity|]. split; [done|]. split.
    + repeat constructor; apply concerns_own.
    + cbn [map transition before after app].
      rewrite Hpending, (sets_own _ _ _ _ _ H1), (sets_own _ _ _ _ _ H2). constructor.
  - rewrite (sets_own _ _ _ _ _ H3). by right.
  - intros t' id' Hother. left.
    by rewrite (sets_frame _ _ _ _ _ _ _ H3 Hother), (sets_frame _ _ _ _ _ _ _ H2 Hother),
               (sets_frame _ _ _ _ _ _ _ H1 Hother).
  - intros Hk. by eapply sets_keyed, sets_keyed, sets_keyed.
Qed.

Section Sites.
Variable scrapeNovel : Novel -> Completion NovelData.
Variable scrapeChapter : Chapter -> Completion ChapterResult.

(** One turn of [ParseChapters] on a pending chapter. *)
Lemma parseChapter_advances r chapter :
  statusOf Chapters (chapter_id chapter) (db r) = Some PENDING ->
  advances lifecycle Chapters (chapter_id chapter) r (parseChapter scrapeChapter r chapter).
Proof.
  intros Hpending.
  pose proof (sets_updateChapterStatus PROCESSING _ _ _ Hpending) as H1.
  pose proof (sets_own _ _ _ _ _ H1) as Hmarked.
  unfold parseChapter.
  destruct (discoverChapter scrapeChapter chapter) as [result|error];
    [destruct (chapter_success result)|].
  - apply two_writes_advance; [done | done | | by left].
    by eapply sets_updateChapter.
  - apply two_writes_advance; [done | done | | by right].
    by eapply sets_updateChapterStatus.
  - apply two_writes_advance; [done | done | | by right].
    by eapply sets_updateChapterStatus.
Qed.

(** One turn of [ParseNovels] on a pending novel. *)
Lemma parseNovel_advances r novel :
  statusOf Novels (novel_id novel) (db r) = Some PENDING ->
  advances lifecycle Novels (novel_id novel) r (parseNovel scrapeNovel r novel).
Proof.
  intros Hpending. set (id := novel_id novel) in *.
  pose proof (sets_updateNovelStatus PROCESSING _ _ _ Hpending) as H1.
  pose proof (sets_own _ _ _ _ _ H1) as Hmarked.
  unfold parseNovel. fold id.
  set (r1 := wrote Novels id PROCESSING (updateNovelStatus PROCESSING id (db r)) r).
  assert (Hfailed : forall error,
    advances lifecycle Novels id r
      (wrote Novels id ERROR
         (updateNovelStatus ERROR id (db (snd (novelFailed id error r1))))
         (snd (novelFailed id error r1)))).
  { intros error. unfold novelFailed. cbn [snd]. apply three_writes_advance; [done|done| |].
    - by eapply sets_updateNovelStatus.
    - cbn [wrote db]. eapply sets_updateNovelStatus.
      eapply sets_own, sets_updateNovelStatus. exact Hmarked. }
  unfold discoverNovel. destruct (id =? 0)%Z.
  { apply two_writes_advance; [done | done | | by right].
    by eapply sets_updateNovelStatus. }
  destruct (getNovelById id (db r1)) as [found|]; [destruct (truthy (novel_url found))|];
    cbn [bind]; [destruct (scrapeNovel found) as [data|error]; cbn [bind]| |];
    cbn [fst snd novel_success novel_data]; try apply Hfailed.
  set (r2 := wrote Novels id 1 _ r1).
  assert (Hadv : advances lifecycle Novels id r r2).
  { apply (two_writes_advance Novels id SUCCESS); [done | done | | by left].
    by eapply sets_updateNovel. }
  destruct Hadv as [Hw Hs Hf Hk].
  pose proof (fun t' id' => insertLinks_grow id (links data) r2 t' id') as Hins.
  split.
  - destruct (Hins Novels id) as (_ & _ & _ & ->). exact Hw.
  - destruct (Hins Novels id) as ([->|(? & _)] & _); done.
  - intros t' id' Hother. destruct (Hins t' id') as (Hg & _).
    eapply grows_trans; [by apply Hf | exact Hg].
  - intros Hkeyed. destruct (Hins Novels id) as (_ & Hk' & _). auto.
Qed.


Lemma grows_some t id d d' st :
  grows t id d d' -> statusOf t id d = Some st -> statusOf t id d' = Some st.
Proof. intros [->|(_ & Hnone & _)] Hst; congruence. Qed.

(** A loop whose turns each advance their own pending row. *)
Section Loop.
Context {Item : Type} (shape : list (option Z * Z) -> Prop).
Context (t : Table) (key : Item -> Z) (step : Run -> Item -> Run).
Hypothesis step_advances : forall r item,
  statusOf t (key item) (db r) = Some PENDING -> advances shape t (key item) r (step r item).

Lemma loop_batch items r :
  NoDup (map key items) ->
  (forall item, item ∈ items -> statusOf t (key item) (db r) = Some PENDING) ->
  batch shape t (map key items) r (fold_left step items r).
Proof.
  revert r. induction items as [|item rest IH]; intros r Hnodup Hpending; simpl.
  - split.
    + exists []. rewrite app_nil_r. split; [done|]. split; [done|].
      intros id Hin. by apply elem_of_nil in Hin.
    + intros id Hin. by apply elem_of_nil in Hin.
    + intros. apply grows_refl.
    + done.
  - apply NoDup_cons in Hnodup as [Hfresh Hnodup].
    destruct (step_advances r item) as [(ws & Hws & Hne & Hown & Hlife) Hsettled Hframe Hkeyed].
    { apply Hpending, elem_of_cons. by left. }
    destruct (IH (step r item) Hnodup)
      as [(ws' & Hws' & Hforeign' & Hown') Hsettled' Hframe' Hkeyed'].
    { intros item' Hin. eapply grows_some; [|apply Hpending, elem_of_cons; by right].
      apply Hframe. right. intros Heq. apply Hfresh. rewrite <- Heq.
      apply list_elem_of_In, in_map. by apply list_elem_of_In. }
    split.
    + exists (ws ++ ws'). rewrite Hws', Hws, app_assoc. split; [done|]. split.
      * intros t' id' Hother. rewrite historyOf_app.
        rewrite (historyOf_foreign t (key item) t' id' ws Hown).
        -- apply Hforeign'. destruct Hother as [?|Hout]; [by left|right].
           intros Hin. apply Hout, elem_of_cons. by right.
        -- destruct Hother as [?|Hout]; [by left|right].
           intros ->. apply Hout, elem_of_cons. by left.
      * intros id Hin. rewrite historyOf_app.
        destruct (decide (id = key item)) as [->|Hne'].
        -- rewrite (historyOf_own t (key item) ws Hown), (Hforeign' t (key item)) by by right.
           rewrite app_nil_r. split; [by destruct ws|done].
        -- rewrite (historyOf_foreign t (key item) t id ws Hown) by by right.
           apply Hown'. apply elem_of_cons in Hin as [?|?]; done.
    + intros id Hin. destruct (decide (id = key item)) as [->|Hne'].
      * destruct Hsettled as [Hs|Hs]; [left|right];
          (eapply grows_some; [apply Hframe'; by right | exact Hs]).
      * apply Hsettled'. apply elem_of_cons in Hin as [?|?]; done.
    + intros t' id' Hother. eapply grows_trans.
      * apply Hframe. destruct Hother as [?|Hout]; [by left|right].
        intros ->. apply Hout, elem_of_cons. by left.
      * apply Hframe'. destruct Hother as [?|Hout]; [by left|right].
        intros Hin. apply Hout, elem_of_cons. by right.
    + auto.
Qed.

End Loop.

Lemma fold_left_when {A B} (f : A -> B -> A) (items : list B) (a : A) :
  (if (0 <? length items)%nat then fold_left f items a else a) = fold_left f items a.
Proof. by destruct items. Qed.

Section Pending.
Context {A : Type} (key : A -> Z) (status : A -> Z).

Lemma NoDup_pending (rows : list A) st :
  NoDup (map key rows) ->
  NoDup (map key (List.filter (fun x => (status x =? st)%Z) rows)).
Proof.
  induction rows as [|x rows IH]; simpl; intros Hnd; [done|].
  apply NoDup_cons in Hnd as [Hx Hnd]. destruct (status x =? st)%Z; [|by apply IH].
  simpl. apply NoDup_cons. split; [|by apply IH].
  intros Hin. apply Hx. apply list_elem_of_In, in_map_iff in Hin as (y & Hy & Hin).
  apply filter_In in Hin as [Hin _]. rewrite <- Hy. apply list_elem_of_In. by apply in_map.
Qed.

Lemma pending_status (rows : list A) st x :
  NoDup (map key rows) ->
  x ∈ List.filter (fun x => (status x =? st)%Z) rows ->
  status <$> find (fun y => (key y =? key x)%Z) rows = Some st.
Proof.
  intros Hnd Hin. apply list_elem_of_In, filter_In in Hin as [Hin Hst].
  rewrite (find_unique key rows x Hnd) by by apply list_elem_of_In.
  simpl. f_equal. by apply Z.eqb_eq.
Qed.

Lemma status_pending (rows : list A) st id :
  status <$> find (fun y => (key y =? id)%Z) rows = Some st ->
  id ∈ map key (List.filter (fun x => (status x =? st)%Z) rows).
Proof.
  destruct (find _ rows) as [x|] eqn:Hfind; [|done]. intros [= Hst].
  apply (find_key key) in Hfind as [<- Hin].
  apply list_elem_of_In, in_map, filter_In. split; [by apply list_elem_of_In|].
  by apply Z.eqb_eq.
Qed.

End Pending.

End Sites.

End OrchestratorFacts.

(** ** The session pool: counters, reuse and recycling *)

Module PoolInvariants.
Import JS Pool.

Lemma Map_set_Forall (P : Page * PageData -> Prop) page data pool :
  P (page, data) -> Forall P pool -> Forall P (Map_set page data pool).
Proof.
  intros Hnew. induction 1 as [|[p d] rest Hp Hrest IH]; simpl.
  - by rewrite Forall_singleton.
  - destruct (Nat.eqb p page); by constructor.
Qed.

Lemma dropOldest_Forall (P : Page * PageData -> Prop) pool :
  Forall P pool -> Forall P (dropOldest pool).
Proof. intros H. unfold dropOldest. destruct (MAX_PAGES <=? _)%nat; [by apply Forall_tail | done]. Qed.

Lemma reuse_Forall (P : Page * PageData -> Prop) max pool page pool' :
  (forall p d, P (p, d) -> (uses d < max)%Z ->
     P (p, {| uses := uses d + 1; created := created d; fingerprint := fingerprint d |})) ->
  reuse max pool = Some (page, pool') -> Forall P pool -> Forall P pool'.
Proof.
  intros Hstep. revert page pool'. induction pool as [|[p d] rest IH]; intros page pool'; simpl; [done|].
  destruct (uses d <? max)%Z eqn:Hlt.
  - intros [= <- <-] Hall. apply Forall_cons in Hall as [Hp Hrest].
    constructor; [|done]. apply Hstep; [done|]. by apply Z.ltb_lt.
  - destruct (reuse max rest) as [[found rest']|]; [|done].
    intros [= <- <-] Hall. apply Forall_cons in Hall as [Hp Hrest].
    constructor; [done|]. by eapply IH.
Qed.

Lemma getPage_counted forceNew c s : counted s -> counted (snd (getPage forceNew c s)).
Proof.
  intros [Hmax Hall]. unfold counted, getPage. cbn [initBrowser MAX_PAGE_USES pagePool nextPage].
  destruct (if forceNew then None else reuse (MAX_PAGE_USES s) (pagePool s))
    as [[page pool]|] eqn:Hreuse; cbn [snd MAX_PAGE_USES pagePool]; (split; [done|]).
  - destruct forceNew; [done|].
    eapply reuse_Forall; [|exact Hreuse|exact Hall].
    intros p d Hp Hlt. simpl in *. lia.
  - unfold register. apply Map_set_Forall; [simpl; lia|].
    apply dropOldest_Forall. by apply PoolFacts.Forall_filter_keep.
Qed.

Lemma forget_counted page s : counted s -> counted (forget page s).
Proof.
  intros [Hmax Hall]. split; [done|]. cbn [forget pagePool MAX_PAGE_USES].
  destruct (Map_has page (pagePool s)); [by apply PoolFacts.Forall_filter_keep | done].
Qed.

Lemma exec_counted s call : counted s -> counted (exec s call).
Proof.
  intros H. destruct call as [forceNew c|page c| |]; cbn [exec].
  - by apply getPage_counted.
  - by apply getPage_counted, forget_counted.
  - unfold closeBrowser. destruct (browserInstance s); [|done].
    split; [apply H | constructor].
  - split; [apply H | constructor].
Qed.

Lemma run_counted calls s : counted s -> counted (run calls s).
Proof.
  revert s. induction calls as [|call rest IH]; intros s H; simpl; [done|].
  by apply IH, exec_counted.
Qed.

Lemma load_counted r : (0 <= r)%Q -> (r < 1)%Q -> counted (load r).
Proof.
  intros H0 H1. split; [|constructor]. cbn [load MAX_PAGE_USES].
  pose proof (PoolFacts.draw_range r H0 H1). lia.
Qed.

(** X1.  Whatever calls were made since the module was loaded, every pooled
    page has been used at least once and at most [MAX_PAGE_USES] times:
    [getPage] never hands out a page beyond the ceiling. *)
Theorem uses_stay_within_ceiling r calls :
  (0 <= r)%Q ->
  (r < 1)%Q ->
  Forall (fun e => (1 <= uses (snd e) <= MAX_PAGE_USES (run calls (load r)))%Z)
         (pagePool (run calls (load r))).
Proof. intros H0 H1. by apply run_counted, load_counted. Qed.


(** *** What [getPage] does *)

Lemma reuse_first max pre page data post :
  Forall (fun e => (max <= uses (snd e))%Z) pre ->
  (uses data < max)%Z ->
  reuse max (pre ++ (page, data) :: post) = Some (page, pre ++ (page, used data) :: post).
Proof.
  intros Hpre Hlt. induction Hpre as [|[p d] pre Hp _ IH]; simpl.
  - apply Z.ltb_lt in Hlt. by rewrite Hlt.
  - simpl in Hp. apply Z.ltb_ge in Hp. by rewrite Hp, IH.
Qed.

Lemma reuse_none max pool :
  reuse max pool = None <-> Forall (fun e => (max <= uses (snd e))%Z) pool.
Proof.
  induction pool as [|[p d] rest IH]; simpl; [split; [constructor|done]|].
  destruct (uses d <? max)%Z eqn:Hlt.
  - apply Z.ltb_lt in Hlt. split; [done|]. intros H. apply Forall_cons in H as [H _]. simpl in H. lia.
  - apply Z.ltb_ge in Hlt. destruct (reuse max rest) as [[found rest']|].
    + split; [done|]. intros H. apply Forall_cons in H as [_ H]. by apply IH in H.
    + split; [|done]. intros _. constructor; [done|]. by apply IH.
Qed.

Lemma reuse_some max pool page pool' :
  reuse max pool = Some (page, pool') ->
  exists pre data post,
    pool = pre ++ (page, data) :: post /\
    Forall (fun e => (max <= uses (snd e))%Z) pre /\ (uses data < max)%Z /\
    pool' = pre ++ (page, used data) :: post.
Proof.
  revert page pool'. induction pool as [|[p d] rest IH]; intros page pool'; simpl; [done|].
  destruct (uses d <? max)%Z eqn:Hlt.
  - intros [= <- <-]. apply Z.ltb_lt in Hlt. by exists [], d, rest.
  - apply Z.ltb_ge in Hlt. destruct (reuse max rest) as [[found rest']|]; [|done].
    intros [= <- <-]. destruct (IH _ _ eq_refl) as (pre & data & post & -> & Hpre & Hd & ->).
    exists ((p, d) :: pre), data, post. repeat split; [by constructor | done].
Qed.

Lemma dropExhausted_all max pool :
  Forall (fun e => (max <= uses (snd e))%Z) pool -> dropExhausted max pool = [].
Proof.
  induction 1 as [|e pool He _ IH]; [done|].
  unfold dropExhausted in *. rewrite filter_cons. by destruct (decide _).
Qed.

(** X2.  [getPage()] without [forceNew] either reuses the first pooled page
    below the ceiling, counting one more use and leaving every other
    entry and the order of the pool alone, or, when every pooled page has
    reached the ceiling, closes them all and leaves a pool that holds the
    one new page. *)
Theorem getPage_reuses_or_replaces c s :
  (exists pre page data post,
     pagePool s = pre ++ (page, data) :: post /\
     Forall (fun e => (MAX_PAGE_USES s <= uses (snd e))%Z) pre /\
     (uses data < MAX_PAGE_USES s)%Z /\
     fst (getPage false c s) = page /\
     pagePool (snd (getPage false c s)) = pre ++ (page, used data) :: post /\
     nextPage (snd (getPage false c s)) = nextPage s) \/
  (Forall (fun e => (MAX_PAGE_USES s <= uses (snd e))%Z) (pagePool s) /\
   fst (getPage false c s) = nextPage s /\
   pagePool (snd (getPage false c s)) =
     [(nextPage s, {| uses := 1; created := now c; fingerprint := generateFingerprint c |})] /\
   nextPage (snd (getPage false c s)) = S (nextPage s)).
Proof.
  unfold getPage. cbn [initBrowser MAX_PAGE_USES pagePool nextPage].
  destruct (reuse (MAX_PAGE_USES s) (pagePool s)) as [[page pool]|] eqn:Hreuse.
  - left. apply reuse_some in Hreuse as (pre & data & post & Hpool & Hpre & Hd & ->).
    by exists pre, page, data, post.
  - right. apply reuse_none in Hreuse. split; [done|].
    cbn [fst snd pagePool nextPage]. by rewrite dropExhausted_all.
Qed.

(** *** Recycling a page *)

Lemma Map_get_set page data pool : Map_get page (Map_set page data pool) = Some data.
Proof.
  unfold Map_get. induction pool as [|[p d] rest IH]; simpl.
  - by rewrite Nat.eqb_refl.
  - destruct (Nat.eqb p page) eqn:Heq; simpl.
    + by rewrite Nat.eqb_refl.
    + by rewrite Heq.
Qed.

Lemma Map_has_set_other page page' data pool :
  page' <> page -> Map_has page (Map_set page' data pool) = Map_has page pool.
Proof.
  intros Hne. unfold Map_has. induction pool as [|[p d] rest IH]; simpl.
  - destruct (Nat.eqb_spec page' page); [done|]. done.
  - destruct (Nat.eqb_spec p page'); simpl.
    + subst p. destruct (Nat.eqb_spec page' page); done.
    + by rewrite IH.
Qed.

Lemma Map_has_false page (pool : list (Page * PageData)) :
  Map_has page pool = false <-> page ∉ map fst pool.
Proof.
  unfold Map_has. induction pool as [|[p d] rest IH]; simpl.
  - split; [intros _; apply not_elem_of_nil | done].
  - rewrite orb_false_iff, IH, not_elem_of_cons.
    simpl. destruct (Nat.eqb_spec p page) as [->|Hne].
    + split; intros [? ?]; done.
    + split; intros [? ?]; (split; [|done]); [by intros ->|done].
Qed.

Lemma Map_has_filter (P : Page * PageData -> Prop) `{!forall e, Decision (P e)} page pool :
  Map_has page pool = false -> Map_has page (filter P pool) = false.
Proof.
  rewrite !Map_has_false. intros Hno Hin. apply Hno.
  apply list_elem_of_In, in_map_iff in Hin as (e & He & Hin).
  apply list_elem_of_In, list_elem_of_filter in Hin as [_ Hin].
  apply list_elem_of_In, in_map_iff. exists e. by rewrite <- list_elem_of_In.
Qed.

Lemma Map_has_delete page pool : Map_has page (Map_delete page pool) = false.
Proof.
  apply Map_has_false. intros Hin.
  apply list_elem_of_In, in_map_iff in Hin as (e & He & Hin).
  by apply list_elem_of_In, list_elem_of_filter in Hin as [Hne _].
Qed.

Lemma Map_has_dropOldest page pool :
  Map_has page pool = false -> Map_has page (dropOldest pool) = false.
Proof.
  unfold dropOldest. destruct (MAX_PAGES <=? _)%nat; [|done].
  destruct pool as [|e pool]; [done|]. unfold Map_has. simpl. by intros [_ ?]%orb_false_iff.
Qed.

Lemma forget_has page s : Map_has page (pagePool (forget page s)) = false.
Proof.
  cbn [forget pagePool]. destruct (Map_has page (pagePool s)) eqn:Hhas; [|done].
  apply Map_has_delete.
Qed.

(** X3.  [recyclePage(page)], for a page the module handed out, returns a
    page that is not [page]; afterwards [page] is no longer pooled, so
    [getPageStats(page)] asks for a recycle, and the new page is pooled
    with one use, its age counted from its creation, and is not due for
    a recycle. *)
Theorem recyclePage_replaces r calls page c time :
  (0 <= r)%Q ->
  (r < 1)%Q ->
  (page < nextPage (run calls (load r)))%nat ->
  let fresh := fst (recyclePage page c (run calls (load r))) in
  let s' := snd (recyclePage page c (run calls (load r))) in
  fresh <> page /\
  Map_has page (pagePool s') = false /\
  shouldRecycle (getPageStats page time s') = true /\
  getPageStats fresh time s' =
    {| stat_uses := 1; maxUses := MAX_PAGE_USES (run calls (load r));
       shouldRecycle := false; age := Some (time - now c)%Z |}.
Proof.
  intros H0 H1 Hold. set (s := run calls (load r)) in *. cbv zeta.
  assert (Hmax : (2 <= MAX_PAGE_USES s)%Z).
  { unfold s. rewrite PoolFacts.run_ceiling. cbn [load MAX_PAGE_USES].
    pose proof (PoolFacts.draw_range r H0 H1). lia. }
  assert (Hfresh : fst (recyclePage page c s) = nextPage s) by done.
  assert (Hne : nextPage s <> page).
  { intros Heq. rewrite Heq in Hold. unfold Page in *. lia. }
  assert (Hpool : pagePool (snd (recyclePage page c s)) =
            register c (nextPage s)
              (dropOldest (dropExhausted (MAX_PAGE_USES s) (pagePool (forget page s))))) by done.
  assert (Hgone : Map_has page (pagePool (snd (recyclePage page c s))) = false).
  { rewrite Hpool. unfold register. rewrite Map_has_set_other by done.
    apply Map_has_dropOldest, Map_has_filter, forget_has. }
  rewrite Hfresh. split; [done|]. split; [done|]. split.
  - unfold getPageStats, Map_get. unfold Map_has in Hgone.
    destruct (find _ _) as [e|] eqn:Hfind; [|done].
    apply find_some in Hfind as [Hin Heq].
    rewrite <- not_true_iff_false in Hgone. exfalso. apply Hgone.
    apply existsb_exists. by exists e.
  - assert (Hceil : MAX_PAGE_USES (snd (recyclePage page c s)) = MAX_PAGE_USES s) by done.
    unfold getPageStats. rewrite Hpool, Hceil. unfold register. rewrite Map_get_set.
    cbn [uses created]. f_equal. apply Z.leb_gt. lia.
Qed.

(** *** The pool and the browser *)

(** *** Fingerprints *)

Lemma pick_defined {A} (xs : list A) (r : Q) :
  xs <> [] -> (0 <= r)%Q -> (r < 1)%Q -> exists x, pick xs r = Some x /\ x ∈ xs.
Proof.
  intros Hne H0 H1. unfold pick, Math_floor.
  set (n := Z.of_nat (length xs)).
  assert (Hn : (0 < n)%Z) by (destruct xs; [done | unfold n; simpl; lia]).
  assert (Hlo : (0 <= Qfloor (r * inject_Z n))%Z).
  { change 0%Z with (Qfloor 0). apply Qfloor_resp_le.
    rewrite <- (Qmult_0_l (inject_Z n)). apply Qmult_le_compat_r; [done|].
    change 0%Q with (inject_Z 0). rewrite <- Zle_Qle. lia. }
  assert (Hhi : (Qfloor (r * inject_Z n) < n)%Z).
  { rewrite Zlt_Qlt. eapply Qle_lt_trans; [apply Qfloor_le|].
    rewrite <- (Qmult_1_l (inject_Z n)) at 2. apply Qmult_lt_compat_r; [|done].
    change 0%Q with (inject_Z 0). rewrite <- Zlt_Qlt. lia. }
  destruct (Qfloor (r * inject_Z n)) as [|i|i] eqn:Hfloor; [| |lia].
  - destruct xs as [|x xs]; [done|]. exists x. split; [done|]. by left.
  - destruct (lookup_lt_is_Some_2 xs (Z.to_nat (Z.pos i))) as [x Hx]; [unfold n in *; lia|].
    exists x. split; [done|]. by eapply list_elem_of_lookup_2.
Qed.

(** X5.  With draws in [0, 1), [generateFingerprint] never indexes out of
    its tables: viewport, languages and timezone are each an entry of the
    table they are drawn from. *)
Theorem generateFingerprint_defined c :
  (0 <= rViewport c)%Q -> (rViewport c < 1)%Q ->
  (0 <= rLanguages c)%Q -> (rLanguages c < 1)%Q ->
  (0 <= rTimezone c)%Q -> (rTimezone c < 1)%Q ->
  exists v l t,
    viewport (generateFingerprint c) = Some v /\ v ∈ viewports /\
    languages (generateFingerprint c) = Some l /\ l ∈ languageLists /\
    timezone (generateFingerprint c) = Some t /\ t ∈ timezones.
Proof.
  intros Hv0 Hv1 Hl0 Hl1 Ht0 Ht1.
  destruct (pick_defined viewports (rViewport c)) as (v & Hv & Hvin); [done..|].
  destruct (pick_defined languageLists (rLanguages c)) as (l & Hl & Hlin); [done..|].
  destruct (pick_defined timezones (rTimezone c)) as (t & Ht & Htin); [done..|].
  by exists v, l, t.
Qed.


(** X1, witness: the draw 1/2, one page acquired and used again. *)
Lemma uses_within_ceiling_witness :
  Forall (fun e => (1 <= uses (snd e) <= 13)%Z)
         (pagePool (run [CallGetPage false Sample.creation; CallGetPage false Sample.creation]
                        (load (1 # 2)))).
Proof.
  apply (uses_stay_within_ceiling (1 # 2)
           [CallGetPage false Sample.creation; CallGetPage false Sample.creation]);
    [discriminate | reflexivity].
Defined.

(** X3, witness: the one page of [Sample.onePage] is recycled. *)
Lemma recyclePage_witness :
  getPageStats 1%nat 5000 (snd (recyclePage 0%nat Sample.creation Sample.onePage)) =
  {| stat_uses := 1; maxUses := 13; shouldRecycle := false; age := Some 4000%Z |}.
Proof.
  destruct (recyclePage_replaces (1 # 2) [CallGetPage false Sample.creation] 0%nat
              Sample.creation 5000) as (_ & _ & _ & H);
    [discriminate | reflexivity | vm_compute; lia | exact H].
Defined.

(** X5, witness: the draws of [Sample.creation]. *)
Lemma fingerprint_witness :
  exists v l t,
    viewport (generateFingerprint Sample.creation) = Some v /\ v ∈ viewports /\
    languages (generateFingerprint Sample.creation) = Some l /\ l ∈ languageLists /\
    timezone (generateFingerprint Sample.creation) = Some t /\ t ∈ timezones.
Proof.
  apply (generateFingerprint_defined Sample.creation); (discriminate || reflexivity).
Defined.

End PoolInvariants.

(** ** The session pool: sessions that fail to start *)

Module LaunchFacts.
Import JS Pool Launch.

(** *** Sessions that start, and the errors of those that do not *)

Lemma getPage_throws forceNew o s error :
  fst (getPage forceNew o s) = Throw error -> Some error ∈ failures o.
Proof.
  unfold getPage, initBrowser, failures.
  destruct (browserInstance s).
  - destruct (if forceNew then None else _) as [[? ?]|]; [done|].
    destruct (newPageError o) as [e1|] eqn:H1; [intros [= ->]; set_solver|].
    destruct (settingsError o) as [e2|] eqn:H2; [intros [= ->]; set_solver|done].
  - destruct (launchError o) as [e0|] eqn:H0; [intros [= ->]; set_solver|].
    destruct (if forceNew then None else _) as [[? ?]|]; [done|].
    destruct (newPageError o) as [e1|] eqn:H1; [intros [= ->]; set_solver|].
    destruct (settingsError o) as [e2|] eqn:H2; [intros [= ->]; set_solver|done].
Qed.

Lemma recyclePage_throws page o s error :
  fst (recyclePage page o s) = Throw error -> Some error ∈ failures o.
Proof. apply getPage_throws. Qed.

Lemma getPage_opens forceNew o s :
  opens o ->
  getPage forceNew o s =
  (Normal (fst (Pool.getPage forceNew (creation o) s)),
   snd (Pool.getPage forceNew (creation o) s)).
Proof.
  intros (H0 & H1 & H2). unfold getPage, initBrowser, Pool.getPage. rewrite H0, H1, H2.
  destruct s as [max [|] pool next]; cbn [browserInstance Pool.initBrowser MAX_PAGE_USES pagePool nextPage];
    by destruct (if forceNew then None else _) as [[? ?]|].
Qed.

Lemma recyclePage_opens page o s :
  opens o ->
  recyclePage page o s =
  (Normal (fst (Pool.recyclePage page (creation o) s)),
   snd (Pool.recyclePage page (creation o) s)).
Proof. apply getPage_opens. Qed.

(** *** The pool and the browser *)

Lemma forget_attached page s : attached s -> attached (forget page s).
Proof.
  unfold attached, forget. cbn [browserInstance pagePool]. intros H Hoff.
  by rewrite (H Hoff).
Qed.

Lemma getPage_attached forceNew o s : attached s -> attached (snd (getPage forceNew o s)).
Proof.
  intros H. unfold getPage, initBrowser.
  destruct (browserInstance s) eqn:Hon.
  - destruct (if forceNew then None else _) as [[? ?]|].
    + unfold attached. cbn [snd pooling browserInstance]. congruence.
    + destruct (newPageError o), (settingsError o); unfold attached;
        cbn [snd pooling browserInstance]; congruence.
  - destruct (launchError o); [done|].
    destruct (if forceNew then None else _) as [[? ?]|]; [done|].
    by destruct (newPageError o), (settingsError o).
Qed.

Lemma exec_attached s call : attached s -> attached (exec s call).
Proof.
  intros H. destruct call as [forceNew o|page o|closeError|]; cbn [exec].
  - by apply getPage_attached.
  - by apply getPage_attached, forget_attached.
  - unfold closeBrowser, attached. by destruct (browserInstance s) eqn:Hb.
  - done.
Qed.

Lemma run_attached calls s : attached s -> attached (run calls s).
Proof.
  revert s. induction calls as [|call rest IH]; intros s H; simpl; [done|].
  by apply IH, exec_attached.
Qed.

(** X4.  Whatever calls were made and whichever of them failed, the pool
    holds pages only while the browser is set.  [closeBrowser()] leaves
    the pool empty; it leaves the browser unset when
    [browserInstance.close()] returns, and set as it was when that call
    rejects; a second [closeBrowser()] that ends the same way changes
    nothing. *)
Theorem closeBrowser_empties_the_pool r calls closeError :
  (browserInstance (run calls (load r)) = false -> pagePool (run calls (load r)) = []) /\
  pagePool (closeBrowser closeError (run calls (load r))) = [] /\
  browserInstance (closeBrowser closeError (run calls (load r))) =
    match closeError with
    | Some _ => browserInstance (run calls (load r))
    | None => false
    end /\
  closeBrowser closeError (closeBrowser closeError (run calls (load r)))
  = closeBrowser closeError (run calls (load r)).
Proof.
  assert (H : attached (run calls (load r))) by (by apply run_attached).
  split; [exact H|]. unfold closeBrowser.
  destruct (browserInstance (run calls (load r))) eqn:Hb; cbn [pagePool browserInstance].
  - split; [done|]. by destruct closeError.
  - rewrite Hb. split; [by rewrite (H Hb)|]. by destruct closeError.
Qed.

(** A browser that cannot be closed: the pool is emptied and the browser
    stays set. *)
Lemma closeBrowser_rejected :
  closeBrowser (Some (Error (js "Protocol error: Connection closed."))) Sample.onePage =
  {| MAX_PAGE_USES := 13; browserInstance := true; pagePool := []; nextPage := 1 |}.
Proof. reflexivity. Qed.

End LaunchFacts.

(** ** The fetch protocol: sessions, pacing and results *)

Module FetchTrace.
Import JS Pool Fetch.

Section Call.
Variables (url : jsstring) (retries : Z) (visit : Z -> Visit).

(** What holds of the loop's variables after every turn holds when the
    loop is left. *)
Lemma fetchLoop_invariant (I : Loop -> Prop) :
  (forall attempt l, I l ->
     match attemptOnce url retries attempt (visit attempt) l with
     | Return _ l' | Continue l' => I l'
     end) ->
  forall remaining attempt l, I l -> I (snd (fetchLoop url retries visit remaining attempt l)).
Proof.
  intros Hturn. induction remaining as [|n IH]; intros attempt l Hl; simpl; [done|].
  specialize (Hturn attempt l Hl).
  destruct (attemptOnce url retries attempt (visit attempt) l) as [r l'|l']; [done|].
  by apply IH.
Qed.


End Call.

(** *** The session a call works with *)










(** *** The pool a call leaves *)

Lemma recycle_roomy s0 c l : roomy s0 l -> roomy s0 (recycle c l).
Proof.
  intros [Hlen Hmax]. split; cbn [recycle Fetch.pool].
  - apply (PoolFacts.exec_bounded (Fetch.pool l) (CallRecyclePage (currentPage l) c) Hlen).
  - by rewrite <- Hmax.
Qed.

Lemma attemptOnce_roomy s0 url retries attempt v l :
  roomy s0 l ->
  match attemptOnce url retries attempt v l with
  | Return _ l' | Continue l' => roomy s0 l'
  end.
Proof.
  intros Hs. unfold attemptOnce. destruct (visitPage url v) as [[h blocked]|error].
  - destruct (blocked && _); [by apply recycle_roomy | done].
  - unfold handler. destruct (attempt <? retries - 1)%Z; [|done].
    destruct (_ && _); [by apply recycle_roomy | done].
Qed.

(** X7.  A call of [fetchPage] that finds at most [MAX_PAGES] pooled pages
    leaves at most [MAX_PAGES], whatever it recycles, and does not change
    the usage ceiling. *)
Theorem fetchPage_keeps_the_pool_within_capacity url page retries env pool :
  (length (pagePool pool) <= MAX_PAGES)%nat ->
  (length (pagePool (poolAfter (fetchPage url page retries env pool))) <= MAX_PAGES)%nat /\
  MAX_PAGE_USES (poolAfter (fetchPage url page retries env pool)) = MAX_PAGE_USES pool.
Proof.
  intros Hlen. unfold fetchPage. destruct (negb (truthy url)); [done|].
  destruct page as [page|]; [|done]. cbn [poolAfter].
  apply (fetchLoop_invariant url retries (visit env) (roomy pool)).
  - intros attempt l. apply attemptOnce_roomy.
  - unfold enter. destruct (shouldRecycle _); [apply recycle_roomy|]; done.
Qed.

(** *** Attempts, waits and new sessions *)

Lemma attemptsOf_app es1 es2 : attemptsOf (es1 ++ es2) = attemptsOf es1 ++ attemptsOf es2.
Proof. apply flat_map_app. Qed.

Lemma count_app f es1 es2 : count f (es1 ++ es2) = (count f es1 + count f es2)%nat.
Proof. unfold count. by rewrite List.filter_app, length_app. Qed.

Lemma seq_snoc n : seq 0 (S n) = seq 0 n ++ [n].
Proof. by rewrite seq_S. Qed.

Lemma paced_next attempt l :
  (0 <= attempt)%Z -> paced attempt l ->
  attemptsOf (events l ++ [Fetching attempt]) = map Z.of_nat (seq 0 (Z.to_nat (attempt + 1))).
Proof.
  intros H0 [Ha _ _]. rewrite attemptsOf_app, Ha.
  replace (Z.to_nat (attempt + 1)) with (S (Z.to_nat attempt)) by lia.
  rewrite seq_snoc, map_app. simpl. do 3 f_equal. lia.
Qed.

Lemma attemptOnce_paced url retries attempt v l :
  (0 <= attempt)%Z -> paced attempt l ->
  match attemptOnce url retries attempt v l with
  | Return _ l' =>
      attemptsOf (events l') = map Z.of_nat (seq 0 (Z.to_nat (attempt + 1))) /\
      count isWait (events l') = Z.to_nat attempt /\
      (count isRecycled (events l')
         <= count isBlockWait (events l') + (if wasRecycled l' then 1 else 0))%nat
  | Continue l' =>
      if (attempt <? retries - 1)%Z then paced (attempt + 1) l'
      else attemptsOf (events l') = map Z.of_nat (seq 0 (Z.to_nat (attempt + 1))) /\
           count isWait (events l') = Z.to_nat attempt /\
           (count isRecycled (events l')
              <= count isBlockWait (events l') + (if wasRecycled l' then 1 else 0))%nat
  end.
Proof.
  intros H0 Hp. pose proof (paced_next attempt l H0 Hp) as Hnext.
  destruct Hp as [Ha Hw Hs].
  unfold attemptOnce. destruct (visitPage url v) as [[h blocked]|error].
  - destruct (attempt <? retries - 1)%Z eqn:Hmore.
    + destruct blocked; simpl andb; cbv iota.
      * split; cbn [recycle log events wasRecycled].
        -- rewrite !attemptsOf_app in *. simpl. by rewrite !app_nil_r.
        -- rewrite !count_app. unfold count at 2 3 4. simpl. lia.
        -- rewrite !count_app. unfold count at 2 3 4 6 7 8. simpl.
           destruct (wasRecycled l); lia.
      * cbn [log events wasRecycled]. split; [done|].
        rewrite !count_app. unfold count at 2 4 6. simpl. split; lia.
    + rewrite andb_false_r. cbn [log events wasRecycled]. split; [done|].
      rewrite !count_app. unfold count at 2 4 6. simpl. split; lia.
  - unfold handler. destruct (attempt <? retries - 1)%Z eqn:Hmore.
    + destruct ((attempt =? 1)%Z && negb (wasRecycled (log _ (caught error (log _ l))))) eqn:Hrec.
      * apply andb_true_iff in Hrec as [_ Hrec]. cbn [log caught wasRecycled] in Hrec.
        apply negb_true_iff in Hrec.
        split; cbn [recycle log caught events wasRecycled currentPage].
        -- rewrite !attemptsOf_app in *. simpl. by rewrite !app_nil_r.
        -- rewrite !count_app. unfold count at 2 3 4. simpl. lia.
        -- rewrite !count_app. unfold count at 2 3 4 6 7 8. simpl.
           rewrite Hrec in Hs. lia.
      * split; cbn [log caught events wasRecycled].
        -- rewrite !attemptsOf_app in *. simpl. by rewrite !app_nil_r.
        -- rewrite !count_app. unfold count at 2 3. simpl. lia.
        -- rewrite !count_app. unfold count at 2 3 5 6. simpl. lia.
    + cbn [log caught events wasRecycled]. split; [done|].
      rewrite !count_app. unfold count at 2 4 6. simpl. split; lia.
Qed.


Lemma attemptOnce_last url retries attempt v l :
  match attemptOnce url retries attempt v l with
  | Return _ l' => last (events l') = Some (Fetching attempt)
  | Continue l' =>
      if (attempt <? retries - 1)%Z then True else last (events l') = Some (Fetching attempt)
  end.
Proof.
  unfold attemptOnce. destruct (visitPage url v) as [[h blocked]|error].
  - destruct (attempt <? retries - 1)%Z eqn:Hmore.
    + destruct blocked; simpl andb; cbv iota; [done|].
      cbn [log events]. by rewrite last_snoc.
    + rewrite andb_false_r. cbn [log events]. by rewrite last_snoc.
  - unfold handler. destruct (attempt <? retries - 1)%Z eqn:Hmore; [done|].
    cbn [log caught events]. by rewrite last_snoc.
Qed.

Lemma attemptsMade_attemptsOf es : attemptsMade es = length (attemptsOf es).
Proof.
  unfold attemptsMade, attemptsOf. induction es as [|e es IH]; simpl; [done|].
  destruct e; simpl; by rewrite ?IH.
Qed.

Lemma fetchLoop_paced url retries visit remaining attempt l :
  (0 <= attempt)%Z ->
  (attempt + Z.of_nat remaining = retries)%Z ->
  paced attempt l ->
  (remaining = 0%nat /\ snd (fetchLoop url retries visit remaining attempt l) = l) \/
  exists final, finished retries final (snd (fetchLoop url retries visit remaining attempt l)).
Proof.
  revert attempt l. induction remaining as [|n IH]; intros attempt l H0 Hsum Hp; simpl.
  - by left.
  - right.
    pose proof (attemptOnce_paced url retries attempt (visit attempt) l H0 Hp) as Hturn.
    pose proof (attemptOnce_last url retries attempt (visit attempt) l) as Hlast.
    destruct (attemptOnce url retries attempt (visit attempt) l) as [r l'|l']; simpl.
    + exists attempt. destruct Hturn as (? & ? & ?). repeat split; (done || lia).
    + destruct (attempt <? retries - 1)%Z eqn:Hmore.
      * apply Z.ltb_lt in Hmore.
        destruct (IH (attempt + 1)%Z l') as [[-> _] | Hfin]; [lia | lia | done | lia | done].
      * apply Z.ltb_ge in Hmore. assert (n = 0%nat) as -> by lia. simpl.
        exists attempt. destruct Hturn as (? & ? & ?). repeat split; (done || lia).
Qed.

Lemma enter_paced page env pool : paced 0 (enter page env pool).
Proof.
  unfold enter. destruct (shouldRecycle _); split; simpl; (done || (unfold count; simpl; lia)).
Qed.

Lemma fetchPage_finished url page retries env pool :
  trace (fetchPage url page retries env pool) = [] \/
  (exists old new, trace (fetchPage url page retries env pool) = [Recycled old new]) \/
  exists final l,
    finished retries final l /\ trace (fetchPage url page retries env pool) = events l.
Proof.
  unfold fetchPage. destruct (negb (truthy url)); [by left|].
  destruct page as [page|]; [|by left]. cbn [trace].
  destruct (Z.to_nat retries) as [|n] eqn:Hn.
  - simpl. unfold enter. destruct (shouldRecycle _); simpl; [right; left; eauto | by left].
  - destruct (fetchLoop_paced url retries (visit env) (S n) 0 (enter page env pool))
      as [[[=] _] | [final Hfin]]; [lia | lia | apply enter_paced |].
    right. right. eauto.
Qed.

(** X9.  A call opens one new session for every block it waits for and at
    most one more (on entry or after the second failure): a call that
    meets no block opens at most one. *)
Theorem sessions_opened_are_bounded url page retries env pool :
  let T := trace (fetchPage url page retries env pool) in
  (count isRecycled T <= count isBlockWait T + 1)%nat.
Proof.
  cbv zeta.
  destruct (fetchPage_finished url page retries env pool)
    as [-> | [(old & new & ->) | (final & l & Hfin & ->)]].
  - unfold count. simpl. lia.
  - unfold count. simpl. lia.
  - destruct Hfin as (_ & _ & Hs & _). destruct (wasRecycled l); lia.
Qed.


(** *** What a call returns *)





(** X7, witness: a site that blocks, and a call that recycles. *)
Lemma capacity_witness :
  (length (pagePool (poolAfter (fetchPage Sample.novelUrl (Some 0%nat) 2
                                  (Sample.world Sample.refusing) Sample.onePage)))
     <= MAX_PAGES)%nat.
Proof.
  destruct (fetchPage_keeps_the_pool_within_capacity Sample.novelUrl (Some 0%nat) 2
              (Sample.world Sample.refusing) Sample.onePage) as (H & _);
    [vm_compute; lia | exact H].
Defined.


End FetchTrace.

(** ** The fetch protocol when a session fails to start *)

Module RetryFacts.
Import JS JSFacts Fetch Retry.
Import FetchFacts.

Lemma recycle_cases o l :
  (exists fresh s,
     Launch.recyclePage (currentPage l) o (pool l) = (Normal fresh, s) /\
     recycle o l = (Normal tt,
       {| currentPage := fresh; wasRecycled := true; lastError := lastError l;
          pool := s; events := events l ++ [Recycled (currentPage l) fresh] |})) \/
  (exists error s,
     Launch.recyclePage (currentPage l) o (pool l) = (Throw error, s) /\
     Some error ∈ Launch.failures o /\
     recycle o l = (Throw error,
       {| currentPage := currentPage l; wasRecycled := wasRecycled l;
          lastError := lastError l; pool := s; events := events l |})).
Proof.
  unfold recycle.
  destruct (Launch.recyclePage (currentPage l) o (pool l)) as [[fresh|error] s] eqn:H.
  - left. eauto.
  - right. exists error, s. split; [done|]. split; [|done].
    apply (LaunchFacts.recyclePage_throws (currentPage l) o (pool l)). by rewrite H.
Qed.

Section Call.
Variables (url : jsstring) (retries : Z) (attempts : Z -> Attempt).

(** The events of the [catch] block start no navigation. *)
Lemma catch_events attempt o error l :
  match handler retries attempt o error l with
  | GoesOn l' =>
      (exists rest, events l' = events l ++ rest /\ quiet rest) /\
      exists error', lastError l' = Some error'
  | Escapes error' l' =>
      events l' = events l ++ [Backoff 1 4000] /\ attempt = 1%Z /\
      (attempt < retries - 1)%Z /\ Some error' ∈ Launch.failures o
  | Returns _ _ => False
  end.
Proof.
  unfold handler. destruct (attempt <? retries - 1)%Z eqn:Hmore.
  - destruct ((attempt =? 1)%Z && negb _) eqn:Hrec.
    + apply andb_true_iff in Hrec as [H1 _]. apply Z.eqb_eq in H1 as ->.
      destruct (recycle_cases o (log (Backoff 1 (Z.min (2000 * 2 ^ 1) 10000)) (caught error l)))
        as [(fresh & s & _ & ->) | (e & s & _ & Hin & ->)].
      * split; [|by eexists]. cbn [events log caught]. rewrite <- app_assoc.
        eexists. split; [done|]. repeat constructor.
      * cbn [events log caught]. split; [done|]. split; [done|]. split; [lia|done].
    + split; [|by eexists]. cbn [events log caught]. eexists. split; [done|]. repeat constructor.
  - split; [|by eexists]. exists []. cbn [events caught]. split; [by rewrite app_nil_r|constructor].
Qed.

Lemma catch_lastError attempt o error l l' :
  handler retries attempt o error l = GoesOn l' -> lastError l' = Some error.
Proof.
  unfold handler. destruct (attempt <? retries - 1)%Z.
  - destruct ((attempt =? 1)%Z && negb _).
    + destruct (recycle_cases o (log (Backoff attempt (Z.min (2000 * 2 ^ attempt) 10000))
                                   (caught error l)))
        as [(fresh & s & _ & ->) | (e & s & _ & Hin & ->)]; [|done].
      by intros [= <-].
    + by intros [= <-].
  - by intros [= <-].
Qed.

Lemma turn_events attempt l :
  match attemptOnce url retries attempt (attempts attempt) l with
  | Returns _ l' => events l' = events l ++ [Fetching attempt]
  | GoesOn l' | Escapes _ l' =>
      exists rest, events l' = events l ++ Fetching attempt :: rest /\ quiet rest
  end.
Proof.
  unfold attemptOnce. destruct (visitPage url (shown (attempts attempt))) as [[h blocked]|error].
  - destruct (blocked && (attempt <? retries - 1)%Z); [|done].
    destruct (recycle_cases (afterBlock (attempts attempt))
                (log (BlockWait attempt ((attempt + 1) * 5000)) (log (Fetching attempt) l)))
      as [(fresh & s & _ & ->) | (e & s & _ & Hin & ->)].
    + cbn [events log]. rewrite <- !app_assoc. eexists. split; [done|]. repeat constructor.
    + pose proof (catch_events attempt (afterFailure (attempts attempt)) e
         {| currentPage := currentPage l; wasRecycled := wasRecycled l; lastError := lastError l;
            pool := s; events := (events l ++ [Fetching attempt]) ++ [BlockWait attempt ((attempt + 1) * 5000)] |})
        as H.
      cbn [log currentPage wasRecycled lastError events] in *.
      destruct (handler _ _ _ _ _) as [|l'|e' l']; [done| |].
      * destruct H as [(rest & -> & Hq) _]. cbn [events]. rewrite <- !app_assoc.
        eexists. split; [done|]. by repeat constructor.
      * destruct H as (-> & _). cbn [events]. rewrite <- !app_assoc.
        eexists. split; [done|]. by repeat constructor.
  - pose proof (catch_events attempt (afterFailure (attempts attempt)) error
                  (log (Fetching attempt) l)) as H.
    destruct (handler _ _ _ _ _) as [|l'|e' l']; [done| |].
    + destruct H as [(rest & -> & Hq) _]. cbn [events log]. rewrite <- !app_assoc.
      eexists. split; [done|]. done.
    + destruct H as (-> & _). cbn [events log]. rewrite <- !app_assoc.
      eexists. split; [done|]. by repeat constructor.
Qed.

Lemma loop_events_incl remaining attempt l e :
  In e (events l) -> In e (events (snd (fetchLoop url retries attempts remaining attempt l))).
Proof.
  revert attempt l. induction remaining as [|n IH]; intros attempt l Hin; simpl; [done|].
  pose proof (turn_events attempt l) as He.
  destruct (attemptOnce url retries attempt (attempts attempt) l) as [r l'|l'|e' l']; simpl.
  - rewrite He. apply in_or_app. by left.
  - destruct He as (rest & He & _). apply IH. rewrite He. apply in_or_app. by left.
  - destruct He as (rest & He & _). rewrite He. apply in_or_app. by left.
Qed.

Lemma loop_split k remaining attempt l lk :
  loopAt url retries attempts k attempt l = Some lk ->
  fetchLoop url retries attempts (k + remaining) attempt l =
  fetchLoop url retries attempts remaining (attempt + Z.of_nat k) lk.
Proof.
  revert attempt l. induction k as [|k IH]; intros attempt l; simpl.
  - intros [= ->]. by rewrite Z.add_0_r.
  - destruct (attemptOnce url retries attempt (attempts attempt) l) as [r l'|l'|e' l']; [done| |done].
    intros Hk. rewrite (IH _ _ Hk). f_equal. lia.
Qed.

(** A navigation the call started was reached through turns that all went
    on. *)
Lemma loop_reached remaining attempt l b :
  In (Fetching b) (events (snd (fetchLoop url retries attempts remaining attempt l))) ->
  In (Fetching b) (events l) \/
  exists k lk,
    (k < remaining)%nat /\ b = (attempt + Z.of_nat k)%Z /\
    loopAt url retries attempts k attempt l = Some lk.
Proof.
  revert attempt l. induction remaining as [|n IH]; intros attempt l; simpl; [by left|].
  pose proof (turn_events attempt l) as He.
  assert (Hnow : b = attempt -> exists k lk,
    (k < S n)%nat /\ b = (attempt + Z.of_nat k)%Z /\
    loopAt url retries attempts k attempt l = Some lk).
  { intros ->. exists 0%nat, l. split; [lia|]. split; [lia|done]. }
  assert (Hturn : forall rest, quiet rest ->
            In (Fetching b) (events l ++ Fetching attempt :: rest) ->
            In (Fetching b) (events l) \/ b = attempt).
  { intros rest Hq Hin. apply in_app_or in Hin as [Hin|[[= <-]|Hin]]; [by left | by right |].
    by apply quiet_no_fetching in Hin. }
  destruct (attemptOnce url retries attempt (attempts attempt) l) as [r l'|l'|e' l'] eqn:Hstep;
    simpl.
  - rewrite He. intros Hin. destruct (Hturn [] ltac:(constructor) Hin); auto.
  - destruct He as (rest & He & Hq). intros Hin.
    destruct (IH _ _ Hin) as [Hold | (k & lk & Hk & Hb & Hat)].
    + rewrite He in Hold. destruct (Hturn rest Hq Hold); auto.
    + right. exists (S k), lk. split; [lia|]. split; [lia|]. simpl. by rewrite Hstep.
  - destruct He as (rest & -> & Hq). intros Hin. destruct (Hturn rest Hq Hin); auto.
Qed.

Lemma loop_next remaining attempt l :
  match attemptOnce url retries attempt (attempts attempt) l with
  | GoesOn l' =>
      In (Fetching (attempt + 1))
         (events (snd (fetchLoop url retries attempts (S remaining) (attempt + 1) l')))
  | _ => True
  end.
Proof.
  destruct (attemptOnce url retries attempt (attempts attempt) l) as [r l'|l'|e' l'];
    [done| |done].
  simpl. pose proof (turn_events (attempt + 1) l') as He.
  destruct (attemptOnce url retries (attempt + 1) (attempts (attempt + 1)%Z) l')
    as [r l''|l''|e'' l'']; simpl.
  - rewrite He. apply in_or_app. right. by left.
  - destruct He as (rest & He & _). apply loop_events_incl.
    rewrite He. apply in_or_app. right. by left.
  - destruct He as (rest & -> & _). apply in_or_app. right. by left.
Qed.

(** How a turn whose visit fails ends. *)
Lemma turn_failed attempt l error :
  visitPage url (shown (attempts attempt)) = Throw error ->
  match attemptOnce url retries attempt (attempts attempt) l with
  | GoesOn l' => lastError l' = Some error
  | Escapes error' _ =>
      attempt = 1%Z /\ (attempt < retries - 1)%Z /\
      Some error' ∈ Launch.failures (afterFailure (attempts attempt))
  | Returns _ _ => False
  end.
Proof.
  intros Hvisit. unfold attemptOnce. rewrite Hvisit.
  pose proof (catch_events attempt (afterFailure (attempts attempt)) error
                (log (Fetching attempt) l)) as H.
  destruct (handler _ _ _ _ _) as [|l'|e' l'] eqn:Hh; [done| |].
  - by eapply catch_lastError.
  - by destruct H as (_ & ? & ? & ?).
Qed.

(** Every call ends by a return, by line 186 after [retries] attempts, or
    by the error of a session that could not be started. *)
Lemma loop_outcome remaining attempt l :
  (0 <= attempt)%Z ->
  (attempt + Z.of_nat remaining = retries)%Z ->
  let done := fetchLoop url retries attempts remaining attempt l in
  (attemptsMade (events (snd done)) <= attemptsMade (events l) + remaining)%nat /\
  ((exists result, fst done = Normal result) \/
   (fst done = Throw (exhausted url retries (lastError (snd done))) /\
    attemptsMade (events (snd done)) = (attemptsMade (events l) + remaining)%nat /\
    ((1 <= remaining)%nat ->
     exists error, lastError (snd done) = Some error /\
                   visitPage url (shown (attempts (retries - 1)%Z)) = Throw error)) \/
   (exists error,
      fst done = Throw error /\
      Some error ∈ Launch.failures (afterFailure (attempts 1%Z)) /\
      (attemptsMade (events (snd done)) < attemptsMade (events l) + remaining)%nat)).
Proof.
  revert attempt l. induction remaining as [|n IH]; intros attempt l H0 Hsum; simpl.
  - split; [lia|]. right. left. split; [done|]. split; [lia|]. lia.
  - pose proof (turn_events attempt l) as He.
    destruct (attemptOnce url retries attempt (attempts attempt) l) as [r l'|l'|e' l'] eqn:Hstep;
      simpl.
    + rewrite He, attemptsMade_app, attemptsMade_cons_fetching by constructor.
      split; [lia|]. left. eauto.
    + destruct He as (rest & He & Hq).
      assert (Hcount : attemptsMade (events l') = (attemptsMade (events l) + 1)%nat).
      { by rewrite He, attemptsMade_app, attemptsMade_cons_fetching. }
      destruct (IH (attempt + 1)%Z l') as [Hle Hcase]; [lia|lia|].
      split; [lia|].
      destruct Hcase as [Hret | [(Hthrow & Hn & Hlast) | (error & Hthrow & Hin & Hlt)]];
        [by left | | right; right; exists error; split; [done|]; split; [done|lia]].
      right. left. split; [done|]. split; [lia|]. intros _.
      destruct n as [|n]; [|apply Hlast; lia].
      simpl. replace (retries - 1)%Z with attempt by lia.
      unfold attemptOnce in Hstep.
      assert ((attempt <? retries - 1)%Z = false) as Hfinal by lia.
      destruct (visitPage url (shown (attempts attempt))) as [[h blocked]|error].
      * by rewrite Hfinal, andb_false_r in Hstep.
      * exists error. split; [|done]. by eapply catch_lastError.
    + destruct He as (rest & He & Hq).
      assert (Hcount : attemptsMade (events l') = (attemptsMade (events l) + 1)%nat).
      { by rewrite He, attemptsMade_app, attemptsMade_cons_fetching. }
      split; [lia|]. right. right. exists e'. split; [done|].
      unfold attemptOnce in Hstep.
      assert (Hesc : forall error l1,
                handler retries attempt (afterFailure (attempts attempt)) error l1
                  = Escapes e' l' ->
                attempt = 1%Z /\ (attempt < retries - 1)%Z /\
                Some e' ∈ Launch.failures (afterFailure (attempts attempt))).
      { intros error l1 Hh.
        pose proof (catch_events attempt (afterFailure (attempts attempt)) error l1) as H.
        rewrite Hh in H. by destruct H as (_ & ? & ? & ?). }
      assert (attempt = 1%Z /\ (attempt < retries - 1)%Z /\
              Some e' ∈ Launch.failures (afterFailure (attempts attempt)))
        as (-> & Hmore & Hin).
      { destruct (visitPage url (shown (attempts attempt))) as [[h blocked]|error];
          [|by eapply Hesc].
        destruct (blocked && _); [|done].
        destruct (recycle _ _) as [[[]|error] l1]; [done|]. by eapply Hesc. }
      split; [done|]. lia.
Qed.

End Call.

Lemma entry_cases page env s :
  (exists l, enter page env s = (Normal tt, l) /\ quiet (events l) /\ lastError l = None) \/
  (exists error l, enter page env s = (Throw error, l) /\ events l = [] /\
                   Some error ∈ Launch.failures (onEntry env)).
Proof.
  unfold enter. destruct (Pool.shouldRecycle _).
  - match goal with |- context [recycle ?o ?l] =>
      destruct (recycle_cases o l) as [(fresh & s' & _ & ->) | (e & s' & _ & Hin & ->)] end.
    + left. eexists. split; [done|]. cbn [events lastError]. split; [|done]. repeat constructor.
    + right. eexists _, _. split; [done|]. by split.
  - left. eexists. split; [done|]. split; [constructor|done].
Qed.

Lemma call_reached url page retries env s b :
  In (Fetching b) (trace (fetchPage url (Some page) retries env s)) ->
  exists k l,
    (k < Z.to_nat retries)%nat /\ b = Z.of_nat k /\ reaches url page retries env s k l.
Proof.
  unfold fetchPage, reaches. destruct (negb (truthy url)); simpl; [done|].
  destruct (entry_cases page env s) as [(l0 & -> & Hq & _) | (error & l0 & -> & He & _)];
    cbn [trace]; [|by rewrite He].
  intros Hin. apply loop_reached in Hin as [Hin | (k & l & Hk & -> & Hat)].
  - by apply quiet_no_fetching in Hin.
  - exists k, l. split; [done|]. split; [lia|]. eauto.
Qed.

(** From the turn a call reaches, the call is that turn and what follows
    it. *)
Lemma call_from url page retries env s k l :
  url <> [] ->
  (k < Z.to_nat retries)%nat ->
  reaches url page retries env s k l ->
  let done := fetchLoop url retries (attempts env) (Z.to_nat retries - k) (Z.of_nat k) l in
  completion (fetchPage url (Some page) retries env s) = fst done /\
  trace (fetchPage url (Some page) retries env s) = events (snd done).
Proof.
  intros Hurl Hk (l0 & Hl0 & Hat). cbv zeta. unfold fetchPage.
  destruct url; [done|]. cbn [truthy negb]. rewrite Hl0. cbn [completion trace].
  replace (Z.to_nat retries) with (k + (Z.to_nat retries - k))%nat at 1 3 by lia.
  by rewrite (loop_split _ _ _ _ _ _ _ _ Hat).
Qed.

Lemma visitPage_notFound url v response :
  goto v = Normal (Some response) ->
  status response = 404%Z ->
  visitPage url v =
  Throw (match title v with
         | Normal _ => Error (js "Page not found: " ++ url)
         | Throw error => error
         end).
Proof.
  intros Hgoto H404. unfold visitPage. rewrite Hgoto. cbn [bind].
  destruct (title v); cbn [bind]; [|done]. by rewrite H404.
Qed.

(** C1 (as amended).  A 404 response fails the attempt in which it
    occurs, with the error "Page not found: <url>" or, when the title of
    the page cannot be read (line 49), with the error of that read.  The
    loop treats the failure as any other: when attempts remain the next
    one is made, unless the session asked for after the second failure
    (line 179) cannot be started, whose error then ends the call; and
    when the 404 is met on the last attempt the call fails with the error
    of line 186, which carries the message of the failure. *)
Theorem notFound_fails_its_attempt_only url page retries env s attempt response :
  goto (shown (attempts env attempt)) = Normal (Some response) ->
  status response = 404%Z ->
  In (Fetching attempt) (trace (fetchPage url (Some page) retries env s)) ->
  let failure := match title (shown (attempts env attempt)) with
                 | Normal _ => Error (js "Page not found: " ++ url)
                 | Throw error => error
                 end in
  visitPage url (shown (attempts env attempt)) = Throw failure /\
  ((attempt + 1 < retries)%Z ->
   In (Fetching (attempt + 1)) (trace (fetchPage url (Some page) retries env s)) \/
   (attempt = 1%Z /\
    exists error,
      Some error ∈ Launch.failures (afterFailure (attempts env 1)) /\
      completion (fetchPage url (Some page) retries env s) = Throw error)) /\
  ((attempt + 1 = retries)%Z ->
   completion (fetchPage url (Some page) retries env s) =
   Throw (Error (js "Failed to fetch " ++ url ++ js " after " ++ Number_toString retries
                 ++ js " attempts: " ++ message failure))).
Proof.
  intros Hgoto H404 Hmade. cbv zeta.
  pose proof (visitPage_notFound url _ response Hgoto H404) as Hvisit.
  set (failure := match title _ with Normal _ => _ | Throw error => error end) in *.
  split; [exact Hvisit|].
  assert (Hurl : url <> []).
  { intros ->. by cbn in Hmade. }
  destruct (call_reached _ _ _ _ _ _ Hmade) as (k & l & Hk & -> & Hat).
  destruct (call_from url page retries env s k l Hurl Hk Hat) as [-> ->].
  replace (Z.to_nat retries - k)%nat with (S (Z.to_nat retries - S k)) by lia.
  cbn [fetchLoop].
  pose proof (turn_failed url retries (attempts env) (Z.of_nat k) l failure Hvisit) as Hturn.
  pose proof (loop_next url retries (attempts env) (Z.to_nat retries - S (S k))
                (Z.of_nat k) l) as Hnext.
  destruct (attemptOnce url retries (Z.of_nat k) (attempts env (Z.of_nat k)) l)
    as [r l'|l'|e' l']; [done| |].
  - split.
    + intros Hmore. left.
      replace (Z.to_nat retries - S k)%nat with (S (Z.to_nat retries - S (S k))) by lia.
      exact Hnext.
    + intros Hlast. replace (Z.to_nat retries - S k)%nat with 0%nat by lia.
      cbn [fetchLoop fst]. by rewrite Hturn.
  - destruct Hturn as (H1 & Hmore & Hin). split; [|lia].
    intros _. right. split; [done|]. exists e'. rewrite H1 in Hin. by split.
Qed.

Lemma loop_returned url retries attempts remaining attempt l result :
  fst (fetchLoop url retries attempts remaining attempt l) = Normal result ->
  exists k blocked,
    (k < remaining)%nat /\
    visitPage url (shown (attempts (attempt + Z.of_nat k)%Z)) = Normal (html result, blocked).
Proof.
  revert attempt l. induction remaining as [|n IH]; intros attempt l; simpl; [done|].
  destruct (attemptOnce url retries attempt (attempts attempt) l) as [r l'|l'|e' l'] eqn:Hstep;
    simpl; [| |done].
  - intros [= ->]. unfold attemptOnce in Hstep.
    destruct (visitPage url (shown (attempts attempt))) as [[h blocked]|error] eqn:Hvisit.
    + destruct (blocked && _).
      * destruct (recycle _ _) as [[[]|e1] l1]; [done|].
        unfold handler in Hstep. destruct (_ <? _)%Z; [|done].
        destruct (_ && _); [|done]. by destruct (recycle _ _) as [[[]|?] ?].
      * injection Hstep as <- _. exists 0%nat, blocked. split; [lia|].
        by rewrite Z.add_0_r.
    + unfold handler in Hstep. destruct (_ <? _)%Z; [|done].
      destruct (_ && _); [|done]. by destruct (recycle _ _) as [[[]|?] ?].
  - intros Hret. destruct (IH _ _ Hret) as (k & blocked & Hk & Hvisit).
    exists (S k), blocked. split; [lia|]. rewrite <- Hvisit. do 3 f_equal. lia.
Qed.

Lemma opens_no_failure o error : Launch.opens o -> Some error ∉ Launch.failures o.
Proof.
  intros (H0 & H1 & H2). unfold Launch.failures. rewrite H0, H1, H2.
  rewrite !elem_of_cons, elem_of_nil. intros [|[|[|[]]]]; done.
Qed.

(** C2 (as amended).  A call with a non-empty url, a page and a budget
    [retries >= 1] makes at most [retries] attempts and ends in one of
    three ways: it returns a result; or, after exactly [retries]
    attempts, it throws the error of line 186, whose message ends with the
    message of the error that failed the last attempt; or, after fewer
    attempts, it throws the error of a session that could not be started
    on entry (line 28) or after the second failure (line 179).  With
    [retries = 3], three answers 503 on pages whose title can be read,
    and sessions that start, the message of the error contains "Server
    error (503)". *)
Theorem fetch_returns_or_exhausts url page retries env s :
  url <> [] ->
  (1 <= retries)%Z ->
  (attemptsMade (trace (fetchPage url (Some page) retries env s)) <= Z.to_nat retries)%nat /\
  ((exists result, completion (fetchPage url (Some page) retries env s) = Normal result) \/
   (exists error,
      visitPage url (shown (attempts env (retries - 1))) = Throw error /\
      completion (fetchPage url (Some page) retries env s) =
        Throw (Error (js "Failed to fetch " ++ url ++ js " after " ++ Number_toString retries
                      ++ js " attempts: " ++ message error)) /\
      attemptsMade (trace (fetchPage url (Some page) retries env s)) = Z.to_nat retries) \/
   (exists error,
      sessionFailed env error /\
      completion (fetchPage url (Some page) retries env s) = Throw error /\
      (attemptsMade (trace (fetchPage url (Some page) retries env s)) < Z.to_nat retries)%nat)) /\
  (retries = 3%Z ->
   (forall attempt, (0 <= attempt < 3)%Z ->
      goto (shown (attempts env attempt)) = Normal (Some {| status := 503 |}) /\
      exists t, title (shown (attempts env attempt)) = Normal t) ->
   Launch.opens (onEntry env) ->
   Launch.opens (afterFailure (attempts env 1)) ->
   exists msg,
     completion (fetchPage url (Some page) retries env s) = Throw (Error msg) /\
     includes msg (js "Server error (503)") = true).
Proof.
  intros Hurl Hretries.
  assert (Hgeneral :
    (attemptsMade (trace (fetchPage url (Some page) retries env s)) <= Z.to_nat retries)%nat /\
    ((exists result, completion (fetchPage url (Some page) retries env s) = Normal result /\
        exists k blocked, (k < Z.to_nat retries)%nat /\
          visitPage url (shown (attempts env (Z.of_nat k))) = Normal (html result, blocked)) \/
     (exists error,
        visitPage url (shown (attempts env (retries - 1))) = Throw error /\
        completion (fetchPage url (Some page) retries env s) =
          Throw (Error (js "Failed to fetch " ++ url ++ js " after " ++ Number_toString retries
                        ++ js " attempts: " ++ message error)) /\
        attemptsMade (trace (fetchPage url (Some page) retries env s)) = Z.to_nat retries) \/
     (exists error,
        sessionFailed env error /\
        completion (fetchPage url (Some page) retries env s) = Throw error /\
        (attemptsMade (trace (fetchPage url (Some page) retries env s)) < Z.to_nat retries)%nat))).
  { unfold fetchPage. destruct url as [|c url]; [done|]. cbn [truthy negb].
    destruct (entry_cases page env s) as [(l0 & -> & Hq & _) | (error & l0 & -> & He & Hin)];
      cbn [completion trace].
    - destruct (loop_outcome (c :: url) retries (attempts env) (Z.to_nat retries) 0 l0)
        as [Hle Hcase]; [lia|lia|].
      rewrite (attemptsMade_quiet _ Hq) in Hle, Hcase.
      split; [exact Hle|].
      destruct Hcase as [[result Hret] | [(Hthrow & Hn & Hlast) | (error & Hthrow & Hin & Hlt)]].
      + left. exists result. split; [done|].
        destruct (loop_returned _ _ _ _ _ _ _ Hret) as (k & blocked & Hk & Hvisit).
        exists k, blocked. by rewrite Z.add_0_l in Hvisit.
      + right. left. destruct Hlast as (error & Herr & Hvisit); [lia|].
        exists error. split; [exact Hvisit|]. split; [|exact Hn].
        rewrite Hthrow, Herr. reflexivity.
      + right. right. exists error. split; [by right|]. by split.
    - rewrite He. split; [unfold attemptsMade; simpl; lia|].
      right. right. exists error. split; [by left|]. split; [done|].
      unfold attemptsMade. simpl. lia. }
  destruct Hgeneral as [Hle Hcase]. split; [exact Hle|]. split.
  { destruct Hcase as [(result & Hret & _) | [H | H]]; [left; eauto | by right; left | by right; right]. }
  intros -> H503 Hopen0 Hopen1.
  assert (Hvisit : forall attempt, (0 <= attempt < 3)%Z ->
            visitPage url (shown (attempts env attempt)) = Throw (Error (js "Server error (503)"))).
  { intros attempt Hrange. destruct (H503 attempt Hrange) as (Hgoto & t & Htitle).
    by rewrite (visitPage_status url _ _ t Hgoto Htitle) by (simpl; lia). }
  destruct Hcase as [(result & _ & k & blocked & Hk & Hret) |
                     [(error & Hlast & Hthrow & _) | (error & Hfailed & _)]].
  - rewrite Hvisit in Hret by lia. done.
  - rewrite Hvisit in Hlast by lia. injection Hlast as <-.
    eexists. split; [exact Hthrow|].
    rewrite !app_assoc. apply includes_suffix.
  - destruct Hfailed as [Hin|Hin]; by apply opens_no_failure in Hin.
Qed.

(** *** Attempts and waits *)

Lemma count_snoc f es e : count f (es ++ [e]) = (count f es + (if f e then 1 else 0))%nat.
Proof. rewrite FetchTrace.count_app. unfold count at 2. simpl. by destruct (f e). Qed.

Lemma attemptsOf_snoc es e :
  attemptsOf (es ++ [e]) = attemptsOf es ++ match e with Fetching a => [a] | _ => [] end.
Proof. rewrite FetchTrace.attemptsOf_app. simpl. by rewrite app_nil_r. Qed.

(** What a turn that starts paced leaves: a turn that decides the call
    ends with its navigation; a turn that goes on has waited once or
    twice; a turn that lets an error escape has waited and asked for a
    session in vain. *)
Lemma turn_paced url retries attempt a l :
  (0 <= attempt)%Z -> paced attempt l ->
  let decided l' :=
    attemptsOf (events l') = map Z.of_nat (seq 0 (Z.to_nat (attempt + 1))) /\
    last (events l') = Some (Fetching attempt) /\
    (Z.to_nat attempt <= count isWait (events l') <= 2 * Z.to_nat attempt)%nat in
  match attemptOnce url retries attempt a l with
  | Returns _ l' => decided l'
  | GoesOn l' => if (attempt <? retries - 1)%Z then paced (attempt + 1) l' else decided l'
  | Escapes error l' =>
      attempt = 1%Z /\
      attemptsOf (events l') = map Z.of_nat (seq 0 2) /\
      last (events l') = Some (Backoff 1 4000) /\
      Some error ∈ Launch.failures (afterFailure a)
  end.
Proof.
  intros H0 [Ha Hw]. cbv zeta.
  assert (Hnext : attemptsOf (events l ++ [Fetching attempt])
                  = map Z.of_nat (seq 0 (Z.to_nat (attempt + 1)))).
  { rewrite attemptsOf_snoc, Ha.
    replace (Z.to_nat (attempt + 1)) with (S (Z.to_nat attempt)) by lia.
    rewrite FetchTrace.seq_snoc, map_app. simpl. do 3 f_equal. lia. }
  assert (Hdecided : forall l', events l' = events l ++ [Fetching attempt] ->
            attemptsOf (events l') = map Z.of_nat (seq 0 (Z.to_nat (attempt + 1))) /\
            last (events l') = Some (Fetching attempt) /\
            (Z.to_nat attempt <= count isWait (events l') <= 2 * Z.to_nat attempt)%nat).
  { intros l' ->. split; [done|]. split; [apply last_snoc|].
    rewrite count_snoc. simpl. lia. }
  (* the catch block, entered after [waited] waits of this turn *)
  assert (Hhandler : forall error l1 (waited : nat),
            (waited <= 1)%nat ->
            (attempt <? retries - 1)%Z = true \/ waited = 0%nat ->
            attemptsOf (events l1) = map Z.of_nat (seq 0 (Z.to_nat (attempt + 1))) ->
            count isWait (events l1) = (count isWait (events l) + waited)%nat ->
            (waited = 0%nat -> events l1 = events l ++ [Fetching attempt]) ->
            match handler retries attempt (afterFailure a) error l1 with
            | Returns _ _ => False
            | GoesOn l' =>
                if (attempt <? retries - 1)%Z then paced (attempt + 1) l'
                else attemptsOf (events l') = map Z.of_nat (seq 0 (Z.to_nat (attempt + 1))) /\
                     last (events l') = Some (Fetching attempt) /\
                     (Z.to_nat attempt <= count isWait (events l') <= 2 * Z.to_nat attempt)%nat
            | Escapes error' l' =>
                attempt = 1%Z /\
                attemptsOf (events l') = map Z.of_nat (seq 0 2) /\
                last (events l') = Some (Backoff 1 4000) /\
                Some error' ∈ Launch.failures (afterFailure a)
            end).
  { intros error l1 waited Hwaited Hmore1 Ha1 Hw1 Hfirst. unfold handler.
    destruct (attempt <? retries - 1)%Z eqn:Hmore.
    - destruct ((attempt =? 1)%Z && negb _) eqn:Hrec.
      + apply andb_true_iff in Hrec as [H1 _]. apply Z.eqb_eq in H1 as ->.
        destruct (recycle_cases (afterFailure a)
                    (log (Backoff 1 (Z.min (2000 * 2 ^ 1) 10000)) (caught error l1)))
          as [(fresh & s & _ & ->) | (e & s & _ & Hin & ->)].
        * split; cbn [events log caught].
          -- by rewrite !attemptsOf_snoc, Ha1, !app_nil_r.
          -- rewrite !count_snoc, Hw1. simpl. lia.
        * cbn [events log caught]. split; [done|].
          split; [by rewrite attemptsOf_snoc, Ha1, app_nil_r|].
          split; [by rewrite last_snoc | done].
      + split; cbn [events log caught].
        * by rewrite attemptsOf_snoc, Ha1, app_nil_r.
        * rewrite count_snoc, Hw1. simpl. lia.
    - destruct Hmore1 as [?| ->]; [done|]. cbn [events caught].
      apply Hdecided. by apply Hfirst. }
  unfold attemptOnce. destruct (visitPage url (shown a)) as [[h blocked]|error].
  - destruct (blocked && (attempt <? retries - 1)%Z) eqn:Hgo.
    + apply andb_true_iff in Hgo as [_ Hmore].
      destruct (recycle_cases (afterBlock a)
                  (log (BlockWait attempt ((attempt + 1) * 5000)) (log (Fetching attempt) l)))
        as [(fresh & s & _ & ->) | (e & s & _ & Hin & ->)].
      * rewrite Hmore. split; cbn [events log].
        -- by rewrite 2!attemptsOf_snoc, Hnext, !app_nil_r.
        -- rewrite !count_snoc. simpl. lia.
      * match goal with |- context [handler _ _ _ _ ?l1] =>
          assert (H := Hhandler e l1 1%nat) end.
        cbn [events log] in H.
        assert (Hcount : count isWait ((events l ++ [Fetching attempt])
                                         ++ [BlockWait attempt ((attempt + 1) * 5000)])
                         = (count isWait (events l) + 1)%nat).
        { rewrite !count_snoc. simpl. lia. }
        specialize (H ltac:(lia) ltac:(by left)
                      ltac:(by rewrite attemptsOf_snoc, Hnext, app_nil_r) Hcount ltac:(lia)).
        by destruct (handler _ _ _ _ _).
    + by apply Hdecided.
  - assert (H := Hhandler error (log (Fetching attempt) l) 0%nat).
    cbn [events log] in H.
    assert (Hcount : count isWait (events l ++ [Fetching attempt])
                     = (count isWait (events l) + 0)%nat).
    { rewrite count_snoc. simpl. lia. }
    specialize (H ltac:(lia) ltac:(by right) Hnext Hcount ltac:(done)).
    by destruct (handler _ _ _ _ _).
Qed.

Lemma loop_paced url retries (env : Env) remaining attempt l :
  (0 <= attempt)%Z ->
  (attempt + Z.of_nat remaining = retries)%Z ->
  paced attempt l ->
  let done := fetchLoop url retries (attempts env) remaining attempt l in
  (remaining = 0%nat /\ snd done = l) \/
  (attemptsOf (events (snd done)) = map Z.of_nat (seq 0 (attemptsMade (events (snd done)))) /\
   (attempt < Z.of_nat (attemptsMade (events (snd done))) <= retries)%Z /\
   ending env (attemptsMade (events (snd done)))
          {| completion := fst done; poolAfter := pool (snd done);
             trace := events (snd done) |}).
Proof.
  revert attempt l. induction remaining as [|n IH]; intros attempt l H0 Hsum Hp; cbv zeta; simpl.
  - by left.
  - right.
    pose proof (turn_paced url retries attempt (attempts env attempt) l H0 Hp) as Hturn.
    cbv zeta in Hturn.
    assert (Hdecided : forall c l',
      attemptsOf (events l') = map Z.of_nat (seq 0 (Z.to_nat (attempt + 1))) /\
      last (events l') = Some (Fetching attempt) /\
      (Z.to_nat attempt <= count isWait (events l') <= 2 * Z.to_nat attempt)%nat ->
      attemptsOf (events l') = map Z.of_nat (seq 0 (attemptsMade (events l'))) /\
      (attempt < Z.of_nat (attemptsMade (events l')) <= retries)%Z /\
      ending env (attemptsMade (events l'))
             {| completion := c; poolAfter := pool l'; trace := events l' |}).
    { intros c l' (Ha & Hl & Hw).
      assert (Hn : attemptsMade (events l') = Z.to_nat (attempt + 1)).
      { by rewrite FetchTrace.attemptsMade_attemptsOf, Ha, length_map, length_seq. }
      rewrite Hn. split; [done|]. split; [lia|].
      apply ended_by_navigation; cbn [trace].
      - rewrite Hl. do 2 f_equal. lia.
      - lia. }
    destruct (attemptOnce url retries attempt (attempts env attempt) l) as [r l'|l'|e' l'];
      cbn [fst snd].
    + by apply Hdecided.
    + destruct (attempt <? retries - 1)%Z eqn:Hmore.
      * destruct (IH (attempt + 1)%Z l') as [[-> _] | (Ha & Hrange & Hend)];
          [lia | lia | done | lia |].
        split; [done|]. split; [lia|done].
      * assert (n = 0%nat) as -> by lia. cbn [fetchLoop fst snd]. by apply Hdecided.
    + destruct Hturn as (-> & Ha & Hl & Hin).
      assert (Hn : attemptsMade (events l') = 2%nat).
      { by rewrite FetchTrace.attemptsMade_attemptsOf, Ha. }
      rewrite Hn. split; [done|]. split; [lia|].
      by apply (ended_by_session env 2 _ e').
Qed.

Lemma entry_paced page env s l : enter page env s = (Normal tt, l) -> paced 0 l.
Proof.
  unfold enter. destruct (Pool.shouldRecycle _).
  - match goal with |- context [recycle ?o ?l0] =>
      destruct (recycle_cases o l0) as [(fresh & s' & _ & ->) | (e & s' & _ & Hin & ->)] end;
      [|done].
    intros [= <-]. split; cbn [events]; [done|]. unfold count. simpl. lia.
  - intros [= <-]. split; cbn [events]; [done|]. unfold count. simpl. lia.
Qed.

Lemma entry_events page env s :
  events (snd (enter page env s)) = [] \/
  exists old new, events (snd (enter page env s)) = [Recycled old new].
Proof.
  unfold enter. destruct (Pool.shouldRecycle _); [|by left].
  match goal with |- context [recycle ?o ?l0] =>
    destruct (recycle_cases o l0) as [(fresh & s' & _ & ->) | (e & s' & _ & Hin & ->)] end.
  - right. by eexists _, _.
  - by left.
Qed.

(** X8.  The navigations of a call are numbered 0, 1, 2, ... without a
    gap and there are at most [retries] of them.  A call that navigates
    ends with its last navigation, having waited once or twice after each
    earlier one, unless the session asked for after the second failure
    (line 179) could not be started: then the call ends after the backoff
    of its second navigation, with the error of that session. *)
Theorem attempts_are_numbered_and_paced url page retries env s :
  let F := fetchPage url page retries env s in
  attemptsOf (trace F) = map Z.of_nat (seq 0 (attemptsMade (trace F))) /\
  (attemptsMade (trace F) <= Z.to_nat retries)%nat /\
  (trace F = [] \/ (exists old new, trace F = [Recycled old new]) \/
   ending env (attemptsMade (trace F)) F).
Proof.
  cbv zeta. unfold fetchPage. destruct (negb (truthy url)).
  { cbn [trace]. split; [done|]. split; [unfold attemptsMade; simpl; lia | by left]. }
  destruct page as [page|].
  2:{ cbn [trace]. split; [done|]. split; [unfold attemptsMade; simpl; lia | by left]. }
  pose proof (entry_events page env s) as Hevents.
  pose proof (entry_paced page env s) as Hpaced.
  destruct (enter page env s) as [[[]|error] l0]; cbn [trace snd] in *.
  2:{ destruct Hevents as [-> | (old & new & ->)];
        (split; [done|]; split; [unfold attemptsMade; simpl; lia|]); [by left | right; left; eauto]. }
  specialize (Hpaced l0 eq_refl).
  destruct (Z.to_nat retries) as [|n] eqn:Hn.
  - cbn [fetchLoop snd].
    destruct Hevents as [-> | (old & new & ->)];
      (split; [done|]; split; [unfold attemptsMade; simpl; lia|]); [by left | right; left; eauto].
  - destruct (loop_paced url retries env (S n) 0 l0) as [[[=] _] | (Ha & Hrange & Hend)];
      [lia | lia | done |].
    split; [done|]. split; [lia|]. right. right. exact Hend.
Qed.

(** C1, witness: the site of [Sample.missingOnce], three attempts allowed. *)
Lemma notFound_witness :
  In (Fetching (0 + 1))
     (trace (fetchPage Sample.novelUrl (Some 0%nat) 3 (Sample.steady Sample.missingOnce)
               Sample.onePage)) \/
  (0 = 1 /\
   exists error,
     Some error ∈ Launch.failures
                    (afterFailure (attempts (Sample.steady Sample.missingOnce) 1)) /\
     completion (fetchPage Sample.novelUrl (Some 0%nat) 3 (Sample.steady Sample.missingOnce)
                   Sample.onePage) = Throw error)%Z.
Proof.
  apply (notFound_fails_its_attempt_only Sample.novelUrl 0%nat 3
           (Sample.steady Sample.missingOnce) Sample.onePage 0 {| status := 404 |});
    [reflexivity | reflexivity | in_list | lia].
Defined.

(** C1, counterexample: a 404 on the first attempt, the page on the second;
    the call returns the page after two navigations. *)
Lemma notFound_then_fetched :
  goto (Sample.missingOnce 0) = Normal (Some {| status := 404 |}) /\
  completion (fetchPage Sample.novelUrl (Some 0%nat) 3 (Sample.steady Sample.missingOnce)
                Sample.onePage)
  = Normal {| html := Sample.story; page := 0%nat; recycled := false |} /\
  trace (fetchPage Sample.novelUrl (Some 0%nat) 3 (Sample.steady Sample.missingOnce)
           Sample.onePage)
  = [Fetching 0; Backoff 0 2000; Fetching 1].
Proof. vm_compute. repeat split. Qed.

(** Two answers 404 and a session that cannot be started after the second:
    the call ends with the error of the session, after two navigations. *)
Lemma notFound_then_no_session :
  completion (fetchPage Sample.novelUrl (Some 0%nat) 3 (Sample.brittle (Sample.always 404))
                Sample.onePage)
  = Throw (Error (js "Protocol error (Target.createTarget): Target closed")) /\
  trace (fetchPage Sample.novelUrl (Some 0%nat) 3 (Sample.brittle (Sample.always 404))
           Sample.onePage)
  = [Fetching 0; Backoff 0 2000; Fetching 1; Backoff 1 4000].
Proof. vm_compute. repeat split. Qed.

(** C2, witness: three answers 503 and a budget of three. *)
Lemma three_503_witness :
  exists msg,
    completion (fetchPage Sample.novelUrl (Some 0%nat) 3 (Sample.steady (Sample.always 503))
                  Sample.onePage) = Throw (Error msg) /\
    includes msg (js "Server error (503)") = true.
Proof.
  apply (fetch_returns_or_exhausts Sample.novelUrl 0%nat 3 (Sample.steady (Sample.always 503))
           Sample.onePage); [discriminate | lia | reflexivity | | done | done].
  intros attempt _. split; [reflexivity | by eexists].
Defined.

(** C2, counterexample: three calls that neither return nor raise the
    error of line 186.  With a budget of 0 [lastError] is still
    [undefined] at line 186, and reading its [message] raises a
    [TypeError]; with an empty url line 13 rejects the call; and with a
    budget of 3, two answers 503 and no session to be had at line 179 the
    call ends after two navigations with the error of [recyclePage]. *)
Lemma errors_other_than_exhaustion :
  (completion (fetchPage Sample.novelUrl (Some 0%nat) 0 (Sample.steady (Sample.always 503))
                 Sample.onePage)
   = Throw (TypeError (js "Cannot read properties of undefined (reading 'message')")) /\
   trace (fetchPage Sample.novelUrl (Some 0%nat) 0 (Sample.steady (Sample.always 503))
            Sample.onePage) = []) /\
  (completion (fetchPage [] (Some 0%nat) 3 (Sample.steady (Sample.always 503)) Sample.onePage)
   = Throw (Error (js "Invalid URL provided")) /\
   trace (fetchPage [] (Some 0%nat) 3 (Sample.steady (Sample.always 503)) Sample.onePage) = []) /\
  (completion (fetchPage Sample.novelUrl (Some 0%nat) 3 (Sample.brittle (Sample.always 503))
                 Sample.onePage)
   = Throw (Error (js "Protocol error (Target.createTarget): Target closed")) /\
   trace (fetchPage Sample.novelUrl (Some 0%nat) 3 (Sample.brittle (Sample.always 503))
            Sample.onePage)
   = [Fetching 0; Backoff 0 2000; Fetching 1; Backoff 1 4000]).
Proof. vm_compute. repeat split. Qed.

End RetryFacts.

(** ** The glyph decoder: the maps and what they decode *)

Module DecoderMaps.
Import JS Decoder.

(** *** Gap completion *)

Lemma lastMissing_found existing letters missing k :
  lastMissing existing letters missing = Some k ->
  missing = Some k \/ (k ∈ letters /\ k ∉ existing).
Proof.
  revert missing. induction letters as [|char rest IH]; intros missing; simpl; [by left|].
  intros H. apply IH in H as [H | [Hin Hnew]].
  - case_bool_decide as Hchar; [by left|]. injection H as <-. right. split; [by left | done].
  - right. split; [by right | done].
Qed.

Lemma completeGap_cases (decoder : gmap jsstring jsstring) :
  completeGap decoder = decoder \/
  exists k v,
    size decoder = 51%nat /\
    k ∈ ALL_LETTERS /\ decoder !! k = None /\
    v ∈ ALL_LETTERS /\ (forall k', decoder !! k' <> Some v) /\
    completeGap decoder = <[k := v]> decoder.
Proof.
  unfold completeGap. rewrite !length_fmap, andb_diag.
  destruct (length (map_to_list decoder) =? TOTAL_LETTERS - 1)%nat eqn:Hsize; [|by left].
  apply Nat.eqb_eq in Hsize. rewrite length_map_to_list in Hsize.
  rewrite DecoderFacts.scan_fold.
  destruct (lastMissing (list_to_set (fst <$> map_to_list decoder)) ALL_LETTERS None)
    as [k|] eqn:Hk; [|by left].
  destruct (lastMissing (list_to_set (snd <$> map_to_list decoder)) ALL_LETTERS None)
    as [v|] eqn:Hv; [|by left].
  apply lastMissing_found in Hk as [[=] | [Hkin Hknew]].
  apply lastMissing_found in Hv as [[=] | [Hvin Hvnew]].
  rewrite (DecoderFacts.letter_truthy k), (DecoderFacts.letter_truthy v) by done.
  right. exists k, v. split; [done|]. split; [done|]. split.
  { apply eq_None_not_Some. intros Hsome. by apply Hknew, DecoderFacts.elem_of_keys. }
  split; [done|]. split; [|done].
  intros k' Hk'. apply Hvnew, DecoderFacts.elem_of_values. by exists k'.
Qed.

(** X11.  The gap completion of [solveFont] never changes an entry of the
    map: it returns the map as it is, or, for a map of 51 entries, the
    map with one more entry whose key is a letter that was no key and
    whose value is a letter that was no value; completing twice is
    completing once. *)
Theorem completeGap_only_adds (decoder : gmap jsstring jsstring) :
  (forall k v, decoder !! k = Some v -> completeGap decoder !! k = Some v) /\
  (completeGap decoder = decoder \/
   exists k v,
     size decoder = 51%nat /\
     k ∈ ALL_LETTERS /\ decoder !! k = None /\
     v ∈ ALL_LETTERS /\ (forall k', decoder !! k' <> Some v) /\
     completeGap decoder = <[k := v]> decoder) /\
  completeGap (completeGap decoder) = completeGap decoder.
Proof.
  pose proof (completeGap_cases decoder) as Hcases.
  split; [|split; [exact Hcases|]].
  - intros k v Hkv. destruct Hcases as [-> | (k0 & v0 & _ & _ & Hnone & _ & _ & ->)]; [done|].
    rewrite lookup_insert_ne; [done|]. intros <-. congruence.
  - destruct Hcases as [Heq | (k0 & v0 & Hsize & _ & Hnone & _ & _ & ->)].
    { rewrite Heq. exact Heq. }
    unfold completeGap at 1. rewrite !length_fmap, length_map_to_list.
    rewrite map_size_insert_None, Hsize by done. done.
Qed.

(** *** The entries of a map *)

Lemma lookupPhase_entries fontMapping font :
  map_Forall (fun k v => length k = 1%nat /\ v <> []) (lookupPhase fontMapping font).
Proof.
  unfold lookupPhase.
  assert (Hgen : forall entries (d : gmap jsstring jsstring),
    map_Forall (fun k v => length k = 1%nat /\ v <> []) d ->
    map_Forall (fun k v => length k = 1%nat /\ v <> [])
               (fold_left (resolve fontMapping font) entries d)).
  { induction entries as [|entry rest IH]; intros d Hd; simpl; [done|].
    apply IH. unfold resolve.
    destruct (realLetter fontMapping (glyphs font entry.2)) as [letter|]; [|done].
    destruct letter as [|c letter]; [done|]. simpl.
    apply map_Forall_insert_2; [|done]. done. }
  apply Hgen, map_Forall_empty.
Qed.

(** X12.  Every entry of a map [solveFont] returns has a key of one code
    unit, which the decoder's lookup by character can hit, and a
    non-empty value. *)
Theorem solveFont_entries_are_usable fontMapping readFont fontPath m :
  solveFont fontMapping readFont fontPath = Normal m ->
  map_Forall (fun k v => length k = 1%nat /\ v <> []) m.
Proof.
  unfold solveFont. destruct (readFont fontPath) as [font|]; simpl; [|done].
  intros [= <-].
  pose proof (lookupPhase_entries fontMapping font) as Hlook.
  destruct (completeGap_cases (lookupPhase fontMapping font))
    as [-> | (k & v & _ & Hk & _ & Hv & _ & ->)]; [done|].
  apply map_Forall_insert_2; [|done].
  apply list_elem_of_In in Hk, Hv. unfold ALL_LETTERS in *.
  apply in_map_iff in Hk as (c & <- & _). apply in_map_iff in Hv as (c' & <- & _). done.
Qed.


(** *** Decoding with a complete map *)

Lemma letter_of_ALL_LETTERS x :
  x ∈ ALL_LETTERS <-> exists c, x = [c] /\ isLatinLetter c = true.
Proof.
  split.
  - intros Hin. apply list_elem_of_In in Hin. unfold ALL_LETTERS in Hin.
    apply in_map_iff in Hin as (c & <- & Hc). exists c. split; [done|].
    assert (Hall : forallb isLatinLetter FULL_ALPHABET = true) by (by vm_compute).
    by eapply forallb_forall in Hall.
  - intros (c & -> & Hc).
    assert (Hall : forallb (fun n => implb (isLatinLetter (N.of_nat n))
                                       (bool_decide ([N.of_nat n] ∈ ALL_LETTERS)))
                           (seq 0 123) = true) by (by vm_compute).
    assert (Hsmall : (c <= 122)%N).
    { unfold isLatinLetter in Hc. apply orb_true_iff in Hc as [Hc|Hc];
        apply andb_true_iff in Hc as [_ Hc]; apply N.leb_le in Hc; lia. }
    eapply forallb_forall in Hall; [|apply in_seq; split; [lia|]; instantiate (1 := N.to_nat c); lia].
    rewrite N2Nat.id, Hc in Hall. simpl in Hall. by apply bool_decide_eq_true in Hall.
Qed.

Lemma image_spec m char :
  totalBijection m ->
  (if isLatinLetter char then default [] (m !! [char]) else [char]) = [image m char] /\
  isLatinLetter (image m char) = isLatinLetter char.
Proof.
  intros (Hkeys & Hvalues & _). unfold image.
  destruct (isLatinLetter char) eqn:Hletter; [|done].
  destruct (proj2 (Hkeys [char])) as [v Hv]; [apply letter_of_ALL_LETTERS; eauto|].
  rewrite Hv. simpl.
  destruct (proj1 (letter_of_ALL_LETTERS v)) as (c & -> & Hc); [apply Hvalues; eauto|].
  done.
Qed.

Lemma image_injective m c1 c2 :
  totalBijection m -> image m c1 = image m c2 -> c1 = c2.
Proof.
  intros Hm Heq.
  destruct (image_spec m c1 Hm) as [H1 L1], (image_spec m c2 Hm) as [H2 L2].
  rewrite Heq, L2 in L1. rewrite <- L1 in H1. rewrite Heq in H1.
  destruct (isLatinLetter c2) eqn:Hletter.
  - destruct Hm as (Hkeys & _ & Hinj).
    destruct (proj2 (Hkeys [c1])) as [v1 Hv1]; [apply letter_of_ALL_LETTERS; eauto|].
    destruct (proj2 (Hkeys [c2])) as [v2 Hv2]; [apply letter_of_ALL_LETTERS; eauto|].
    rewrite Hv1 in H1. rewrite Hv2 in H2. simpl in *. subst.
    by injection (Hinj _ _ _ Hv1 Hv2).
  - congruence.
Qed.

Lemma substituted_image m encodedText :
  totalBijection m -> substituted m encodedText = map (image m) encodedText.
Proof.
  intros Hm. unfold substituted. induction encodedText as [|c rest IH]; simpl; [done|].
  destruct (image_spec m c Hm) as [-> _]. by rewrite IH.
Qed.

Lemma decodeWith_image m encodedText :
  totalBijection m -> text (decodeWith m encodedText) = map (image m) encodedText.
Proof.
  intros Hm. unfold decodeWith.
  destruct encodedText as [|c rest]; [done|]. cbn [truthy negb orb].
  assert (Hvalid : (0 <? length (map_to_list m))%nat = true).
  { apply DecoderFacts.mapIsValid_nonempty. intros ->.
    destruct Hm as (Hkeys & _). destruct (proj2 (Hkeys (js "a"))) as [v Hv]; [in_list|].
    by rewrite lookup_empty in Hv. }
  rewrite Hvalid. cbn [negb text].
  rewrite DecoderFacts.decode_fold. cbn [fst app]. by apply substituted_image.
Qed.

Lemma bijection_by_lists (m : gmap jsstring jsstring) :
  map_Forall (fun k v => k ∈ ALL_LETTERS /\ v ∈ ALL_LETTERS) m ->
  Forall (fun k => is_Some (m !! k)) ALL_LETTERS ->
  Forall (fun v => v ∈ (snd <$> map_to_list m)) ALL_LETTERS ->
  NoDup (snd <$> map_to_list m) ->
  totalBijection m.
Proof.
  intros Hletters Hkeys Hvalues Hnd. split; [|split].
  - intros k. split.
    + intros [v Hv]. by apply (Hletters k v).
    + intros Hk. by eapply Forall_forall in Hkeys.
  - intros v. split.
    + intros [k Hk]. by apply (Hletters k v).
    + intros Hv. eapply Forall_forall in Hvalues; [|exact Hv].
      apply list_elem_of_fmap in Hvalues as ([k v'] & -> & Hin).
      exists k. by apply elem_of_map_to_list.
  - intros k1 k2 v H1 H2. by eapply DecoderFacts.values_injective.
Qed.

(** X13.  With a map that is a total bijection over the 52 letters,
    decoding keeps the length of the text, leaves every non-letter where
    it is, replaces every letter by its image, a letter, and is
    injective: two different texts never decode to the same text. *)
Theorem complete_map_decodes_losslessly (m : gmap jsstring jsstring) :
  totalBijection m ->
  (forall encodedText,
     length (text (decodeWith m encodedText)) = length encodedText /\
     forall i char,
       encodedText !! i = Some char ->
       exists decoded,
         text (decodeWith m encodedText) !! i = Some decoded /\
         isLatinLetter decoded = isLatinLetter char /\
         (isLatinLetter char = false -> decoded = char) /\
         (isLatinLetter char = true -> m !! [char] = Some [decoded])) /\
  (forall text1 text2,
     text (decodeWith m text1) = text (decodeWith m text2) -> text1 = text2).
Proof.
  intros Hm. split.
  - intros encodedText. rewrite decodeWith_image by done. split; [apply length_map|].
    intros i char Hi. exists (image m char). split.
    { change (map (image m) encodedText) with (image m <$> encodedText).
      by rewrite list_lookup_fmap, Hi. }
    destruct (image_spec m char Hm) as [Himg Hletter]. split; [done|].
    split.
    + intros Hno. unfold image. by rewrite Hno.
    + intros Hyes. rewrite Hyes in Himg.
      destruct Hm as (Hkeys & _).
      destruct (proj2 (Hkeys [char])) as [v Hv]; [apply letter_of_ALL_LETTERS; eauto|].
      rewrite Hv in Himg. simpl in Himg. by rewrite Hv, Himg.
  - intros text1 text2. rewrite !decodeWith_image by done.
    revert text2. induction text1 as [|c1 rest1 IH]; intros [|c2 rest2]; simpl; try done.
    intros [= Hc Hrest]. f_equal; [by eapply image_injective | by apply IH].
Qed.


(** X12, witness: the font and the catalog of [Sample]. *)
Lemma usable_entries_witness :
  map_Forall (fun k v => length k = 1%nat /\ v <> [])
             (completeGap (lookupPhase Sample.catalog51 Sample.font51)).
Proof.
  apply (solveFont_entries_are_usable Sample.catalog51 (Sample.onDisk Sample.font51)
           (js "public/fonts/mtcijhsegc.ttf")).
  reflexivity.
Defined.

(** X13, witness: the map that pairs the alphabet with itself read
    backwards. *)
Lemma lossless_witness :
  length (text (decodeWith Sample.mirror (js "Hello, world"))) = length (js "Hello, world").
Proof.
  destruct (complete_map_decodes_losslessly Sample.mirror) as (H & _);
    [|exact (proj1 (H (js "Hello, world")))].
  apply bijection_by_lists; apply (bool_decide_unpack _); by vm_compute.
Defined.

End DecoderMaps.

(** ** The batch run: what it leaves behind *)

Module RunFacts.
Import JS Orchestrator OrchestratorFacts.

(** *** What a run leaves to the next one *)

Lemma filter_none {A} (p : A -> bool) (rows : list A) :
  (forall x, x ∈ rows -> p x = false) -> List.filter p rows = [].
Proof.
  induction rows as [|x rows IH]; intros Hall; simpl; [done|].
  rewrite (Hall x) by by left. apply IH. intros y Hy. apply Hall. by right.
Qed.

Lemma statusOf_novel d n :
  keyed d -> n ∈ novels d -> statusOf Novels (novel_id n) d = Some (novel_status n).
Proof. intros [Hk _] Hin. unfold statusOf. by rewrite (find_unique novel_id (novels d) n). Qed.

Lemma statusOf_chapter d c :
  keyed d -> c ∈ chapters d -> statusOf Chapters (chapter_id c) d = Some (chapter_status c).
Proof. intros [_ Hk] Hin. unfold statusOf. by rewrite (find_unique chapter_id (chapters d) c). Qed.

Section Sites.
Variable scrapeNovel : Novel -> Completion NovelData.
Variable scrapeChapter : Chapter -> Completion ChapterResult.

End Sites.


(** *** Rows are kept *)

Lemma extends_refl d : extends d d.
Proof. split; [done | done | exists []; by rewrite app_nil_r | done]. Qed.

Lemma extends_trans d1 d2 d3 : extends d1 d2 -> extends d2 d3 -> extends d1 d3.
Proof.
  intros [A1 B1 [a1 C1] D1] [A2 B2 [a2 C2] D2]. split; [congruence | congruence | | auto].
  exists (a1 ++ a2). by rewrite C2, C1, app_assoc.
Qed.

Lemma map_keyed_same {A B} (key : A -> Z) (g : A -> B) (f : A -> A) id (rows : list A) :
  (forall x, g (f x) = g x) ->
  map g (map (fun x => if (key x =? id)%Z then f x else x) rows) = map g rows.
Proof.
  intros Hg. rewrite map_map. apply map_ext. intros x. by destruct (key x =? id)%Z.
Qed.

Lemma extends_same d d' :
  map novel_id (novels d') = map novel_id (novels d) ->
  map novel_url (novels d') = map novel_url (novels d) ->
  map identity (chapters d') = map identity (chapters d) ->
  extends d d'.
Proof.
  intros Hid Hurl Hch. split; [done | done | exists []; by rewrite app_nil_r |].
  assert (Hurls : map chapter_url (chapters d') = map chapter_url (chapters d)).
  { change chapter_url with (fun c => snd (fst (identity c))).
    rewrite <- !(map_map identity (fun i => snd (fst i))). by rewrite Hch. }
  by rewrite Hurls.
Qed.

Lemma extends_updateNovelStatus st id d : extends d (updateNovelStatus st id d).
Proof.
  apply extends_same; [| |done]; unfold updateNovelStatus; cbn [novels];
    by apply (map_keyed_same novel_id).
Qed.

Lemma extends_updateNovel id title total st d : extends d (updateNovel id title total st d).
Proof.
  apply extends_same; [| |done]; unfold updateNovel; cbn [novels];
    by apply (map_keyed_same novel_id).
Qed.

Lemma extends_updateChapterStatus st id d : extends d (updateChapterStatus st id d).
Proof.
  apply extends_same; [done|done|]. unfold updateChapterStatus. cbn [chapters].
  by apply (map_keyed_same chapter_id).
Qed.

Lemma extends_updateChapter id title content st d :
  extends d (updateChapter id title content st d).
Proof.
  apply extends_same; [done|done|]. unfold updateChapter. cbn [chapters].
  by apply (map_keyed_same chapter_id).
Qed.

Lemma existsb_url url (rows : list Chapter) :
  existsb (fun c => bool_decide (chapter_url c = url)) rows = false ->
  url ∉ map chapter_url rows.
Proof.
  induction rows as [|c rows IH]; simpl; [intros _; apply not_elem_of_nil|].
  intros [Hc Hrows]%orb_false_iff. apply not_elem_of_cons. split; [|by apply IH].
  apply bool_decide_eq_false in Hc. congruence.
Qed.

Lemma extends_insertChapter novel url title content number st d d' :
  insertChapter novel url title content number st d = Normal d' -> extends d d'.
Proof.
  unfold insertChapter. destruct (existsb _ _) eqn:Hnew; [done|]. intros [= <-].
  split; cbn [novels chapters]; [done | done | |].
  - eexists. by rewrite map_app.
  - intros Hnd. rewrite map_app. apply NoDup_app. split; [done|]. split; [|apply NoDup_singleton].
    intros x Hin Hx. apply list_elem_of_singleton in Hx as ->.
    by apply existsb_url in Hnew.
Qed.

Section Kept.
Variable scrapeNovel : Novel -> Completion NovelData.
Variable scrapeChapter : Chapter -> Completion ChapterResult.

Lemma extends_insertLink novel r link : extends (db r) (db (insertLink novel r link)).
Proof.
  unfold insertLink. destruct (insertChapter _ _ _ _ _ _ _) as [d'|error] eqn:Hins.
  - by eapply extends_insertChapter.
  - apply extends_refl.
Qed.

Lemma extends_fold {Item} (step : Run -> Item -> Run) (items : list Item) r :
  (forall r item, extends (db r) (db (step r item))) ->
  extends (db r) (db (fold_left step items r)).
Proof.
  intros Hstep. revert r. induction items as [|item rest IH]; intros r; simpl.
  - apply extends_refl.
  - eapply extends_trans; [apply Hstep | apply IH].
Qed.

Lemma extends_parseChapter r chapter :
  extends (db r) (db (parseChapter scrapeChapter r chapter)).
Proof.
  unfold parseChapter.
  destruct (discoverChapter scrapeChapter chapter) as [result|error];
    [destruct (chapter_success result)|]; cbn [wrote db];
    (eapply extends_trans; [apply extends_updateChapterStatus|]);
    (apply extends_updateChapter || apply extends_updateChapterStatus).
Qed.

Lemma extends_parseNovel r novel :
  extends (db r) (db (parseNovel scrapeNovel r novel)).
Proof.
  unfold parseNovel.
  set (r1 := wrote Novels (novel_id novel) PROCESSING _ r).
  assert (H1 : extends (db r) (db r1)) by apply extends_updateNovelStatus.
  assert (Hfailed : forall error,
    extends (db r)
      (db (wrote Novels (novel_id novel) ERROR
             (updateNovelStatus ERROR (novel_id novel)
                (db (snd (novelFailed (novel_id novel) error r1))))
             (snd (novelFailed (novel_id novel) error r1))))).
  { intros error. unfold novelFailed. cbn [snd wrote db].
    eapply extends_trans; [exact H1|].
    eapply extends_trans; apply extends_updateNovelStatus. }
  unfold discoverNovel. destruct (novel_id novel =? 0)%Z.
  { cbn [wrote db]. eapply extends_trans; [exact H1 | apply extends_updateNovelStatus]. }
  destruct (getNovelById (novel_id novel) (db r1)) as [found|];
    [destruct (truthy (novel_url found))|];
    cbn [bind]; [destruct (scrapeNovel found) as [data|error]; cbn [bind]| |];
    cbn [fst snd novel_success novel_data]; try apply Hfailed.
  eapply extends_trans; [exact H1|].
  eapply extends_trans; [|apply extends_fold; intros; apply extends_insertLink].
  cbn [wrote db]. apply extends_updateNovel.
Qed.

Lemma extends_run store :
  extends store (db (ParserWrapper scrapeNovel scrapeChapter store)).
Proof.
  unfold ParserWrapper, ParseNovels, ParseChapters. cbv zeta. rewrite !fold_left_when.
  eapply extends_trans; [|apply extends_fold; intros; apply extends_parseChapter].
  apply (extends_fold (parseNovel scrapeNovel) _ {| db := store; writes := [] |}).
  intros. apply extends_parseNovel.
Qed.

(** X15.  A run deletes no row and moves none: the novels keep their ids
    and urls in place, and the chapters the run found keep id, novel,
    url and number in place, new chapters being appended. *)
Theorem run_keeps_every_row store :
  map novel_id (novels (db (ParserWrapper scrapeNovel scrapeChapter store)))
    = map novel_id (novels store) /\
  map novel_url (novels (db (ParserWrapper scrapeNovel scrapeChapter store)))
    = map novel_url (novels store) /\
  exists added,
    map identity (chapters (db (ParserWrapper scrapeNovel scrapeChapter store)))
      = map identity (chapters store) ++ added.
Proof. destruct (extends_run store) as [H1 H2 H3 _]. done. Qed.

(** X16.  A run keeps the chapter urls pairwise distinct. *)
Theorem chapter_urls_stay_unique store :
  NoDup (map chapter_url (chapters store)) ->
  NoDup (map chapter_url (chapters (db (ParserWrapper scrapeNovel scrapeChapter store)))).
Proof. apply (extends_run store). Qed.

(** *** Storing the links of a table of contents *)






End Kept.


(** X16, witness: the store and the sites of [Sample]. *)
Lemma unique_urls_witness :
  NoDup (map chapter_url
           (chapters (db (ParserWrapper Sample.novelSite Sample.chapterSite Sample.store)))).
Proof.
  apply (chapter_urls_stay_unique Sample.novelSite Sample.chapterSite Sample.store).
  apply (bool_decide_unpack _). by vm_compute.
Defined.

End RunFacts.

(** ** The batch run with its sessions *)

Module BatchFacts.
Import JS Orchestrator OrchestratorFacts RunFacts Batch.

(** *** Ids as JavaScript reads them *)

Lemma toNumber_safe z : (Z.abs z <= MAX_SAFE_INTEGER)%Z -> toNumber z = z.
Proof.
  unfold MAX_SAFE_INTEGER. intros Hz. unfold toNumber.
  assert (Z.log2 (Z.abs z) < 53)%Z.
  { destruct (Z.eq_dec (Z.abs z) 0%Z) as [->|Hne]; [done|].
    apply Z.log2_lt_pow2; lia. }
  destruct (Z.leb_spec (Z.log2 (Z.abs z) - 52) 0%Z); [done|lia].
Qed.

Lemma exactIds_extends d d' : extends d d' -> exactIds d' -> exactIds d.
Proof.
  intros [Hn _ [added Hc] _] [En Ec]. split.
  - apply (Forall_fmap novel_id (fun id => toNumber id = id)).
    change (fmap novel_id (novels d)) with (map novel_id (novels d)). rewrite <- Hn.
    by apply (Forall_fmap novel_id (fun id => toNumber id = id)).
  - apply (Forall_fmap identity (fun i => toNumber (fst (fst (fst i))) = fst (fst (fst i)))).
    apply (Forall_fmap identity (fun i => toNumber (fst (fst (fst i))) = fst (fst (fst i)))) in Ec.
    change (fmap identity (chapters d')) with (map identity (chapters d')) in Ec.
    rewrite Hc in Ec. by apply Forall_app in Ec as [? _].
Qed.

Lemma read_novel_ids (rows : list Novel) :
  Forall (fun n => toNumber (novel_id n) = novel_id n) rows ->
  map novel_id (map readNovel rows) = map novel_id rows.
Proof.
  induction 1 as [|n rows Hn _ IH]; simpl; [done|]. by rewrite Hn, IH.
Qed.

Lemma read_chapter_ids (rows : list Chapter) :
  Forall (fun c => toNumber (chapter_id c) = chapter_id c) rows ->
  map chapter_id (map readChapter rows) = map chapter_id rows.
Proof.
  induction 1 as [|c rows Hc _ IH]; simpl; [done|]. by rewrite Hc, IH.
Qed.

Lemma Forall_filtered {A} (P : A -> Prop) (p : A -> bool) (rows : list A) :
  Forall P rows -> Forall P (List.filter p rows).
Proof.
  induction 1 as [|x rows Hx _ IH]; simpl; [done|]. destruct (p x); [by constructor|done].
Qed.

(** *** One turn *)

Lemma one_write_advance (shape : list (option Z * Z) -> Prop) t id r d1 :
  shape refused ->
  statusOf t id (db r) = Some PENDING ->
  sets t id ERROR (db r) d1 ->
  advances shape t id r (wrote t id ERROR d1 r).
Proof.
  intros Hshape Hpending H1. split; cbn [wrote db writes].
  - eexists. split; [reflexivity|]. split; [done|]. split.
    + repeat constructor; apply concerns_own.
    + cbn [map transition before after]. by rewrite Hpending.
  - rewrite (sets_own _ _ _ _ _ H1). by right.
  - intros t' id' Hother. left. by rewrite (sets_frame _ _ _ _ _ _ _ H1 Hother).
  - intros Hk. by eapply sets_keyed.
Qed.

Lemma advances_weaken (shape shape' : list (option Z * Z) -> Prop) t id r r' :
  (forall h, shape h -> shape' h) -> advances shape t id r r' -> advances shape' t id r r'.
Proof.
  intros Hsub [(ws & Hws & Hne & Hown & Hshape) Hs Hf Hk]. split; [|done..].
  exists ws. auto.
Qed.

Section Sites.
Variable scrapeNovel : Novel -> Completion NovelData.
Variable scrapeChapter : Chapter -> Completion ChapterResult.
Variable novelSession : Novel -> Session.
Variable chapterSession : Chapter -> Session.
Variable setupError : option JsError.

Local Abbreviation parseNovel := (Batch.parseNovel scrapeNovel novelSession).
Local Abbreviation parseChapter := (Batch.parseChapter scrapeChapter chapterSession).
Local Abbreviation novelsPhase := (Batch.novelsPhase scrapeNovel novelSession setupError).
Local Abbreviation chaptersPhase := (Batch.chaptersPhase scrapeChapter chapterSession setupError).
Local Abbreviation ParserWrapper :=
  (Batch.ParserWrapper scrapeNovel scrapeChapter novelSession chapterSession setupError).

Lemma novel_caught_run novel r :
  snd (novelCaught novelSession novel r) =
  wrote Novels (novel_id novel) ERROR (updateNovelStatus ERROR (novel_id novel) (db r)) r.
Proof.
  unfold novelCaught. destruct (negb _); [|done].
  by destruct (secondRenewalError (novelSession novel)).
Qed.

(** A turn of [ParseNovels] writes ERROR at once, or does what the turn
    of [Orchestrator] does. *)
Lemma novel_turn_run r novel :
  snd (parseNovel r novel) =
  match (if stale (novelSession novel) then renewalError (novelSession novel) else None) with
  | Some _ =>
      wrote Novels (novel_id novel) ERROR (updateNovelStatus ERROR (novel_id novel) (db r)) r
  | None => Orchestrator.parseNovel (fun n => scrapeNovel (readNovel n)) r novel
  end.
Proof.
  unfold Batch.parseNovel, Orchestrator.parseNovel, Batch.discoverNovel.
  destruct (if stale _ then _ else None); [apply novel_caught_run|].
  destruct (Orchestrator.discoverNovel _ _ _) as [[result|error] r']; [done|].
  apply novel_caught_run.
Qed.

(** The shapes the writes of a row may take: those of [lifecycle], and
    [refused] if some turn may fail to start. *)
Variable shape : list (option Z * Z) -> Prop.
Hypothesis shape_lifecycle : forall h, lifecycle h -> shape h.
Hypothesis shape_novels : forall novel, renews (novelSession novel) \/ shape refused.
Hypothesis shape_chapters : forall chapter, renews (chapterSession chapter) \/ shape refused.

Lemma novel_turn_advances r novel :
  statusOf Novels (novel_id novel) (db r) = Some PENDING ->
  advances shape Novels (novel_id novel) r (snd (parseNovel r novel)).
Proof.
  intros Hpending. rewrite novel_turn_run.
  destruct (shape_novels novel) as [Hrenews | Hrefused].
  - rewrite Hrenews. apply (advances_weaken lifecycle); [done|].
    by apply OrchestratorFacts.parseNovel_advances.
  - destruct (if stale _ then _ else None).
    + apply one_write_advance; [done|done|]. by eapply sets_updateNovelStatus.
    + apply (advances_weaken lifecycle); [done|].
      by apply OrchestratorFacts.parseNovel_advances.
Qed.

Lemma chapter_turn_advances r chapter :
  statusOf Chapters (chapter_id chapter) (db r) = Some PENDING ->
  advances shape Chapters (chapter_id chapter) r (parseChapter r chapter).
Proof.
  intros Hpending. unfold Batch.parseChapter.
  destruct (shape_chapters chapter) as [Hrenews | Hrefused].
  - rewrite Hrenews. apply (advances_weaken lifecycle); [done|].
    by apply OrchestratorFacts.parseChapter_advances.
  - destruct (if stale _ then _ else None).
    + apply one_write_advance; [done|done|]. by eapply sets_updateChapterStatus.
    + apply (advances_weaken lifecycle); [done|].
      by apply OrchestratorFacts.parseChapter_advances.
Qed.

Lemma extends_novel_turn r novel : extends (db r) (db (snd (parseNovel r novel))).
Proof.
  rewrite novel_turn_run. destruct (if stale _ then _ else None).
  - apply extends_updateNovelStatus.
  - apply RunFacts.extends_parseNovel.
Qed.

Lemma extends_chapter_turn r chapter : extends (db r) (db (parseChapter r chapter)).
Proof.
  unfold Batch.parseChapter. destruct (if stale _ then _ else None).
  - apply extends_updateChapterStatus.
  - apply RunFacts.extends_parseChapter.
Qed.

Lemma chapter_turn_ids r chapter :
  map chapter_id (chapters (db (parseChapter r chapter))) = map chapter_id (chapters (db r)).
Proof.
  unfold Batch.parseChapter, Orchestrator.parseChapter.
  destruct (if stale _ then _ else None);
    [|destruct (discoverChapter scrapeChapter chapter) as [result|error];
      [destruct (chapter_success result)|]]; cbn [wrote db];
    unfold updateChapter, updateChapterStatus; cbn [chapters];
    by rewrite !(keys_map_keyed chapter_id).
Qed.

Lemma chapter_turns_ids items r :
  map chapter_id (chapters (db (fold_left parseChapter items r))) =
  map chapter_id (chapters (db r)).
Proof.
  revert r. induction items as [|item rest IH]; intros r; simpl; [done|].
  by rewrite IH, chapter_turn_ids.
Qed.

(** *** A loop that an error may end *)

(** The turns that ran are a prefix of the loop, and the whole of it when
    the loop was not left by an error. *)
Lemma each_prefix {Item} (turn : Run -> Item -> Completion unit * Run) items r :
  exists ran rest,
    items = ran ++ rest /\
    snd (each turn items r) = fold_left (fun r item => snd (turn r item)) ran r /\
    (fst (each turn items r) = Normal tt -> rest = []).
Proof.
  revert r. induction items as [|item items IH]; intros r; simpl.
  - by exists [], [].
  - destruct (turn r item) as [[[]|error] r'] eqn:Hturn.
    + destruct (IH r') as (ran & rest & -> & Hrun & Hall).
      exists (item :: ran), rest. simpl. by rewrite Hturn.
    + exists [item], items. simpl. by rewrite Hturn.
Qed.

Lemma batch_nil t r : batch shape t [] r r.
Proof.
  split.
  - exists []. rewrite app_nil_r. split; [done|]. split; [done|].
    intros id Hin. by apply elem_of_nil in Hin.
  - intros id Hin. by apply elem_of_nil in Hin.
  - intros. apply grows_refl.
  - done.
Qed.

Lemma extends_each {Item} (turn : Run -> Item -> Completion unit * Run) items r :
  (forall r item, extends (db r) (db (snd (turn r item)))) ->
  extends (db r) (db (snd (each turn items r))).
Proof.
  intros Hturn. destruct (each_prefix turn items r) as (ran & rest & _ & -> & _).
  apply (extends_fold (fun r item => snd (turn r item))). apply Hturn.
Qed.

Lemma extends_novelsPhase r : extends (db r) (db (snd (novelsPhase r))).
Proof.
  unfold Batch.novelsPhase. destruct (0 <? _)%nat; [|apply extends_refl].
  destruct setupError; [apply extends_refl|].
  unfold ParseNovels.
  pose proof (extends_each parseNovel (map readNovel (getNovelsByStatus PENDING (db r))) r
                extends_novel_turn) as H.
  by destruct (each _ _ _) as [[[]|error] r'].
Qed.

Lemma extends_chaptersPhase b r : extends (db r) (db (snd (chaptersPhase b r))).
Proof.
  unfold Batch.chaptersPhase. destruct (0 <? _)%nat; [|apply extends_refl].
  destruct (if b then None else setupError); [apply extends_refl|].
  apply extends_fold. apply extends_chapter_turn.
Qed.

Lemma extends_batch_run store : extends store (db (snd (ParserWrapper store))).
Proof.
  unfold Batch.ParserWrapper.
  pose proof (extends_novelsPhase {| db := store; writes := [] |}) as H1.
  destruct (novelsPhase _) as [[b|error] r1]; [|done].
  eapply extends_trans; [exact H1 | apply extends_chaptersPhase].
Qed.

Lemma NoDup_prefix {A} (xs ys : list A) : NoDup (xs ++ ys) -> NoDup xs.
Proof. intros H. by apply NoDup_app in H as [? _]. Qed.

(** The novels: the rows the loop went through were PENDING, each was
    taken through its writes, and they are all the PENDING rows when the
    phase was not left by an error. *)
Lemma novelsPhase_batch store :
  keyed store -> exactIds store ->
  let r0 := {| db := store; writes := [] |} in
  exists ids,
    batch shape Novels ids r0 (snd (novelsPhase r0)) /\
    (forall id, id ∈ ids -> statusOf Novels id store = Some PENDING) /\
    (forall b, fst (novelsPhase r0) = Normal b ->
       forall id, statusOf Novels id store = Some PENDING -> id ∈ ids).
Proof.
  intros Hkeyed [Hexact _] r0.
  set (rows := getNovelsByStatus PENDING store).
  assert (Hids : map novel_id (map readNovel rows) = map novel_id rows).
  { apply read_novel_ids. by apply Forall_filtered. }
  assert (Hpending : forall id, id ∈ map novel_id rows -> statusOf Novels id store = Some PENDING).
  { intros id Hin. apply list_elem_of_In, in_map_iff in Hin as (n & <- & Hin).
    apply (pending_status novel_id novel_status (novels store));
      [apply Hkeyed | by apply list_elem_of_In]. }
  assert (Hselected : forall id, statusOf Novels id store = Some PENDING ->
                                 id ∈ map novel_id rows).
  { intros id. apply (status_pending novel_id novel_status). }
  assert (Hnone : exists ids,
    batch shape Novels ids r0 r0 /\
    (forall id, id ∈ ids -> statusOf Novels id store = Some PENDING) /\
    (rows = [] -> forall id, statusOf Novels id store = Some PENDING -> id ∈ ids)).
  { exists []. split; [apply batch_nil|]. split.
    - intros id Hin. by apply elem_of_nil in Hin.
    - intros Hrows id Hid. apply Hselected in Hid. by rewrite Hrows in Hid. }
  unfold Batch.novelsPhase. change (db r0) with store. fold rows.
  destruct (0 <? length (map readNovel rows))%nat eqn:Hsome.
  2:{ destruct Hnone as (ids & ? & ? & Hall). exists ids. cbn [fst snd].
      split; [done|]. split; [done|]. intros _ _. apply Hall.
      apply Nat.ltb_ge in Hsome. rewrite length_map in Hsome. destruct rows; [done|simpl in *; lia]. }
  destruct setupError as [error|].
  { destruct Hnone as (ids & ? & ? & _). exists ids. cbn [fst snd].
    split; [done|]. split; [done|]. by intros b [=]. }
  unfold ParseNovels.
  destruct (each_prefix parseNovel (map readNovel rows) r0) as (ran & rest & Hsplit & Hrun & Hall).
  assert (Hran : forall id, id ∈ map novel_id ran -> id ∈ map novel_id rows).
  { intros id Hin. rewrite <- Hids, Hsplit, map_app. apply elem_of_app. by left. }
  assert (B : batch shape Novels (map novel_id ran) r0 (snd (each parseNovel (map readNovel rows) r0))).
  { rewrite Hrun. apply (loop_batch shape Novels novel_id (fun r item => snd (parseNovel r item))).
    - intros r item. apply novel_turn_advances.
    - apply (NoDup_prefix _ (map novel_id rest)). rewrite <- map_app, <- Hsplit, Hids.
      apply (NoDup_pending novel_id novel_status). apply Hkeyed.
    - intros item Hin. apply Hpending, Hran.
      apply list_elem_of_In, in_map. by apply list_elem_of_In. }
  exists (map novel_id ran).
  destruct (each parseNovel (map readNovel rows) r0) as [[[]|error] r1]; cbn [fst snd] in *.
  - split; [done|]. split; [by auto|]. intros _ _ id Hid.
    rewrite (Hall eq_refl), app_nil_r in Hsplit. rewrite <- Hsplit, Hids. by apply Hselected.
  - split; [done|]. split; [by auto|]. done.
Qed.

(** The chapters. *)
Lemma chaptersPhase_batch b r1 :
  keyed (db r1) -> exactIds (db r1) ->
  exists ids,
    batch shape Chapters ids r1 (snd (chaptersPhase b r1)) /\
    (forall id, id ∈ ids -> statusOf Chapters id (db r1) = Some PENDING) /\
    (fst (chaptersPhase b r1) = Normal tt ->
       forall id, statusOf Chapters id (db r1) = Some PENDING -> id ∈ ids) /\
    map chapter_id (chapters (db (snd (chaptersPhase b r1)))) = map chapter_id (chapters (db r1)).
Proof.
  intros Hkeyed [_ Hexact].
  set (rows := getChaptersByStatus PENDING (db r1)).
  assert (Hids : map chapter_id (map readChapter rows) = map chapter_id rows).
  { apply read_chapter_ids. by apply Forall_filtered. }
  assert (Hpending : forall id, id ∈ map chapter_id rows ->
                                statusOf Chapters id (db r1) = Some PENDING).
  { intros id Hin. apply list_elem_of_In, in_map_iff in Hin as (c & <- & Hin).
    apply (pending_status chapter_id chapter_status (chapters (db r1)));
      [apply Hkeyed | by apply list_elem_of_In]. }
  assert (Hselected : forall id, statusOf Chapters id (db r1) = Some PENDING ->
                                 id ∈ map chapter_id rows).
  { intros id. apply (status_pending chapter_id chapter_status). }
  assert (Hnone : exists ids,
    batch shape Chapters ids r1 r1 /\
    (forall id, id ∈ ids -> statusOf Chapters id (db r1) = Some PENDING) /\
    (rows = [] -> forall id, statusOf Chapters id (db r1) = Some PENDING -> id ∈ ids)).
  { exists []. split; [apply batch_nil|]. split.
    - intros id Hin. by apply elem_of_nil in Hin.
    - intros Hrows id Hid. apply Hselected in Hid. by rewrite Hrows in Hid. }
  unfold Batch.chaptersPhase. fold rows.
  destruct (0 <? length (map readChapter rows))%nat eqn:Hsome.
  2:{ destruct Hnone as (ids & ? & ? & Hall). exists ids. cbn [fst snd].
      split; [done|]. split; [done|]. split; [|done]. intros _. apply Hall.
      apply Nat.ltb_ge in Hsome. rewrite length_map in Hsome. destruct rows; [done|simpl in *; lia]. }
  destruct (if b then None else setupError) as [error|].
  { destruct Hnone as (ids & ? & ? & _). exists ids. cbn [fst snd].
    split; [done|]. split; [done|]. split; [by intros [=]|done]. }
  cbn [fst snd]. exists (map chapter_id rows). rewrite <- Hids at 1.
  split; [|split; [done|split; [by auto|apply chapter_turns_ids]]].
  unfold ParseChapters. apply (loop_batch shape Chapters chapter_id parseChapter).
  - apply chapter_turn_advances.
  - rewrite Hids. apply (NoDup_pending chapter_id chapter_status). apply Hkeyed.
  - intros item Hin. apply Hpending. rewrite <- Hids.
    apply list_elem_of_In, in_map. by apply list_elem_of_In.
Qed.

(** A run is a loop over PENDING novels followed by a loop over PENDING
    chapters. *)
Lemma run_batches store :
  keyed store ->
  exactIds (db (snd (ParserWrapper store))) ->
  exists novelsDone chaptersDone r1,
    batch shape Novels novelsDone {| db := store; writes := [] |} r1 /\
    batch shape Chapters chaptersDone r1 (snd (ParserWrapper store)) /\
    (forall id, id ∈ novelsDone -> statusOf Novels id store = Some PENDING) /\
    (forall id, id ∈ chaptersDone -> statusOf Chapters id (db r1) = Some PENDING) /\
    (fst (ParserWrapper store) = Normal tt ->
       (forall id, statusOf Novels id store = Some PENDING -> id ∈ novelsDone) /\
       (forall id, statusOf Chapters id (db r1) = Some PENDING -> id ∈ chaptersDone)) /\
    map chapter_id (chapters (db (snd (ParserWrapper store)))) = map chapter_id (chapters (db r1)).
Proof.
  intros Hkeyed Hexact.
  assert (Hexact0 : exactIds store).
  { eapply exactIds_extends; [apply extends_batch_run | exact Hexact]. }
  destruct (novelsPhase_batch store Hkeyed Hexact0) as (ids1 & B1 & Hpending1 & Hall1).
  cbv zeta in *. revert Hexact. unfold Batch.ParserWrapper.
  pose proof (extends_chaptersPhase) as Hext.
  destruct (novelsPhase {| db := store; writes := [] |}) as [[b|error] r1]; cbn [fst snd] in *.
  - intros Hexact.
    assert (Hkeyed1 : keyed (db r1)) by by apply (batch_keyed _ _ _ _ _ B1).
    assert (Hexact1 : exactIds (db r1)).
    { eapply exactIds_extends; [apply Hext | exact Hexact]. }
    destruct (chaptersPhase_batch b r1 Hkeyed1 Hexact1) as (ids2 & B2 & Hpending2 & Hall2 & Hsame).
    exists ids1, ids2, r1. split; [done|]. split; [done|]. split; [done|]. split; [done|].
    split; [|done]. intros Hnormal. split; [by apply (Hall1 b) | by apply Hall2].
  - intros _. exists ids1, [], r1. split; [done|]. split; [apply batch_nil|].
    split; [done|]. split; [|done]. intros id Hin. by apply elem_of_nil in Hin.
Qed.

(** What a run does to every row. *)
Lemma run_histories store :
  keyed store ->
  exactIds (db (snd (ParserWrapper store))) ->
  (forall t id,
     historyOf t id (writes (snd (ParserWrapper store))) = [] \/
     shape (historyOf t id (writes (snd (ParserWrapper store))))) /\
  (fst (ParserWrapper store) = Normal tt ->
   forall t id,
     statusOf t id store = Some PENDING ->
     historyOf t id (writes (snd (ParserWrapper store))) <> []) /\
  (forall t id,
     historyOf t id (writes (snd (ParserWrapper store))) <> [] ->
     settled (statusOf t id (db (snd (ParserWrapper store))))) /\
  (forall t id status,
     statusOf t id store = Some status -> status <> PENDING ->
     historyOf t id (writes (snd (ParserWrapper store))) = [] /\
     statusOf t id (db (snd (ParserWrapper store))) = Some status) /\
  (fst (ParserWrapper store) = Normal tt ->
   getNovelsByStatus PENDING (db (snd (ParserWrapper store))) = [] /\
   getChaptersByStatus PENDING (db (snd (ParserWrapper store))) = []).
Proof.
  intros Hkeyed Hexact.
  destruct (run_batches store Hkeyed Hexact)
    as (ids1 & ids2 & r1 & B1 & B2 & Hpending1 & Hpending2 & Hall & Hsame).
  set (r2 := snd (ParserWrapper store)) in *.
  destruct B1 as [(ws1 & Hws1 & Hforeign1 & Hown1) Hsettled1 Hframe1 Hkeyed1].
  destruct B2 as [(ws2 & Hws2 & Hforeign2 & Hown2) Hsettled2 Hframe2 Hkeyed2].
  cbn [writes db] in *.
  assert (Hwrites : writes r2 = ws1 ++ ws2) by by rewrite Hws2, Hws1.
  rewrite Hwrites.
  assert (Hnovel : forall id, historyOf Novels id (ws1 ++ ws2) = historyOf Novels id ws1).
  { intros id. rewrite historyOf_app, (Hforeign2 Novels id) by by left. apply app_nil_r. }
  assert (Hchapter : forall id, historyOf Chapters id (ws1 ++ ws2) = historyOf Chapters id ws2).
  { intros id. by rewrite historyOf_app, (Hforeign1 Chapters id) by by left. }
  split; [|split; [|split; [|split]]].
  - intros [|] id.
    + rewrite Hnovel. destruct (decide (id ∈ ids1)) as [Hin|Hout].
      * right. by apply Hown1.
      * left. apply Hforeign1. by right.
    + rewrite Hchapter. destruct (decide (id ∈ ids2)) as [Hin|Hout].
      * right. by apply Hown2.
      * left. apply Hforeign2. by right.
  - intros Hnormal [|] id Hpending; destruct (Hall Hnormal) as [Hall1 Hall2].
    + rewrite Hnovel. by apply Hown1, Hall1.
    + rewrite Hchapter. apply Hown2, Hall2.
      eapply grows_some; [apply Hframe1; by left | exact Hpending].
  - intros [|] id.
    + rewrite Hnovel. intros Hhistory.
      destruct (decide (id ∈ ids1)) as [Hin|Hout].
      * destruct (Hsettled1 id Hin) as [Hs|Hs]; [left|right];
          (eapply grows_some; [apply Hframe2; by left | exact Hs]).
      * destruct Hhistory. apply Hforeign1. by right.
    + rewrite Hchapter. intros Hhistory.
      destruct (decide (id ∈ ids2)) as [Hin|Hout].
      * by apply Hsettled2.
      * destruct Hhistory. apply Hforeign2. by right.
  - intros [|] id status Hstatus Hne.
    + assert (Hout : id ∉ ids1).
      { intros Hin. apply Hpending1 in Hin. congruence. }
      split.
      * rewrite Hnovel. apply Hforeign1. by right.
      * eapply grows_some; [apply Hframe2; by left|].
        eapply grows_some; [apply Hframe1; by right | exact Hstatus].
    + assert (Hstatus1 : statusOf Chapters id (db r1) = Some status).
      { eapply grows_some; [apply Hframe1; by left | exact Hstatus]. }
      assert (Hout : id ∉ ids2).
      { intros Hin. apply Hpending2 in Hin. congruence. }
      split.
      * rewrite Hchapter. apply Hforeign2. by right.
      * eapply grows_some; [apply Hframe2; by right | exact Hstatus1].
  - intros Hnormal. destruct (Hall Hnormal) as [Hall1 Hall2].
    assert (Hk2 : keyed (db r2)) by auto.
    assert (Hsettled : forall st, settled (Some st) -> st <> PENDING).
    { intros st [[= ->] | [= ->]]; done. }
    split; apply filter_none.
    + intros n Hin. apply Z.eqb_neq. intros Hst.
      pose proof (statusOf_novel (db r2) n Hk2 Hin) as H2. rewrite Hst in H2.
      assert (H1 : statusOf Novels (novel_id n) (db r1) = Some PENDING).
      { destruct (Hframe2 Novels (novel_id n)) as [<- | ([=] & _)]; [by left | done]. }
      destruct (decide (novel_id n ∈ ids1)) as [Hsel|Hout].
      * specialize (Hsettled1 _ Hsel). rewrite H1 in Hsettled1. by apply Hsettled in Hsettled1.
      * apply Hout, Hall1.
        destruct (Hframe1 Novels (novel_id n)) as [Heq | ([=] & _)]; [by right|].
        by rewrite <- Heq.
    + intros c Hin. apply Z.eqb_neq. intros Hst.
      pose proof (statusOf_chapter (db r2) c Hk2 Hin) as H2. rewrite Hst in H2.
      destruct (decide (chapter_id c ∈ ids2)) as [Hsel|Hout].
      * specialize (Hsettled2 _ Hsel). rewrite H2 in Hsettled2. by apply Hsettled in Hsettled2.
      * apply Hout, Hall2.
        destruct (Hframe2 Chapters (chapter_id c)) as [Heq | (_ & Hnew & _)];
          [by right | by rewrite <- Heq |].
        apply statusOf_none in Hnew. exfalso. apply Hnew.
        rewrite <- Hsame. apply list_elem_of_In, in_map. by apply list_elem_of_In.
Qed.

End Sites.

Section Run.
Variable scrapeNovel : Novel -> Completion NovelData.
Variable scrapeChapter : Chapter -> Completion ChapterResult.
Variable novelSession : Novel -> Session.
Variable chapterSession : Chapter -> Session.
Variable setupError : option JsError.

Local Abbreviation ParserWrapper :=
  (Batch.ParserWrapper scrapeNovel scrapeChapter novelSession chapterSession setupError).

(** C9 (as amended).  In one run of [ParserWrapper] over a store whose
    ids are primary keys that JavaScript reads exactly, those of the
    chapters the run adds included: a row is marked PROCESSING only when
    its status is PENDING.  The status writes of every row, in order,
    are none at all, or PENDING to PROCESSING
    followed by PROCESSING to SUCCESS, or PENDING to PROCESSING followed
    by PROCESSING to ERROR (written a second time for a novel whose
    discovery failed), or PENDING to ERROR at once; the last is met only
    if the session of some turn could not be renewed before the row was
    marked.  When the run ends without an error, every row that is PENDING
    when it starts is written; every row that is written ends in SUCCESS
    or in ERROR; a row that starts in another status, SUCCESS and ERROR
    included, is never written and keeps its status. *)
Theorem batch_run_lifecycle store :
  keyed store ->
  exactIds (db (snd (ParserWrapper store))) ->
  (forall w, w ∈ writes (snd (ParserWrapper store)) ->
     after w = PROCESSING -> before w = Some PENDING) /\
  (forall t id,
     lifecycle (historyOf t id (writes (snd (ParserWrapper store)))) \/
     historyOf t id (writes (snd (ParserWrapper store))) = refused) /\
  ((forall novel, renews (novelSession novel)) ->
   (forall chapter, renews (chapterSession chapter)) ->
   forall t id, lifecycle (historyOf t id (writes (snd (ParserWrapper store))))) /\
  (fst (ParserWrapper store) = Normal tt ->
   forall t id,
     statusOf t id store = Some PENDING ->
     historyOf t id (writes (snd (ParserWrapper store))) <> []) /\
  (forall t id,
     historyOf t id (writes (snd (ParserWrapper store))) <> [] ->
     settled (statusOf t id (db (snd (ParserWrapper store))))) /\
  (forall t id status,
     statusOf t id store = Some status -> status <> PENDING ->
     historyOf t id (writes (snd (ParserWrapper store))) = [] /\
     statusOf t id (db (snd (ParserWrapper store))) = Some status).
Proof.
  intros Hkeyed Hexact.
  destruct (run_histories scrapeNovel scrapeChapter novelSession chapterSession setupError
              (fun h => lifecycle h \/ h = refused)
              ltac:(by left) ltac:(by right; right) ltac:(by right; right)
              store Hkeyed Hexact) as (Hshape & Hall & Hsettled & Hother & _).
  assert (Hlife : forall t id,
    lifecycle (historyOf t id (writes (snd (ParserWrapper store)))) \/
    historyOf t id (writes (snd (ParserWrapper store))) = refused).
  { intros t id. destruct (Hshape t id) as [-> | H]; [left; constructor | exact H]. }
  split; [|split; [exact Hlife|split; [|done]]].
  - intros w Hin Hmark.
    assert (Hw : (before w, PROCESSING)
                   ∈ historyOf (table w) (row w) (writes (snd (ParserWrapper store)))).
    { rewrite <- Hmark. by apply (historyOf_elem w). }
    clear Hin. rename Hw into Hin.
    destruct (Hlife (table w) (row w)) as [H | H].
    + by apply (lifecycle_marks _ _ H).
    + rewrite H in Hin. unfold refused in Hin. by apply list_elem_of_singleton in Hin.
  - intros Hnovels Hchapters t id.
    destruct (run_histories scrapeNovel scrapeChapter novelSession chapterSession setupError
                lifecycle ltac:(done) ltac:(by left) ltac:(by left)
                store Hkeyed Hexact) as (Hstrict & _).
    destruct (Hstrict t id) as [-> | H]; [constructor | exact H].
Qed.

(** X14.  When a run of [ParserWrapper] over a store whose ids are
    primary keys that JavaScript reads exactly, those of the chapters the
    run adds included, ends without an error, no
    novel and no chapter is PENDING, the chapters the run discovered
    included; a second run on the store it leaves writes nothing and
    asks for no session, whatever the sites and the browser answer. *)
Theorem run_leaves_nothing_pending store :
  keyed store ->
  exactIds (db (snd (ParserWrapper store))) ->
  fst (ParserWrapper store) = Normal tt ->
  getNovelsByStatus PENDING (db (snd (ParserWrapper store))) = [] /\
  getChaptersByStatus PENDING (db (snd (ParserWrapper store))) = [] /\
  forall scrapeNovel' scrapeChapter' novelSession' chapterSession' setupError',
    Batch.ParserWrapper scrapeNovel' scrapeChapter' novelSession' chapterSession' setupError'
                        (db (snd (ParserWrapper store))) =
    (Normal tt, {| db := db (snd (ParserWrapper store)); writes := [] |}).
Proof.
  intros Hkeyed Hexact Hnormal.
  destruct (run_histories scrapeNovel scrapeChapter novelSession chapterSession setupError
              (fun _ => True) ltac:(done) ltac:(by right) ltac:(by right)
              store Hkeyed Hexact) as (_ & _ & _ & _ & Hnone).
  destruct (Hnone Hnormal) as [Hnovels Hchapters]. split; [done|]. split; [done|].
  intros scrapeNovel' scrapeChapter' novelSession' chapterSession' setupError'.
  unfold Batch.ParserWrapper at 1, Batch.novelsPhase, Batch.chaptersPhase. cbn [db].
  rewrite Hnovels. cbn [map length]. change (0 <? 0)%nat with false. cbv iota. cbn [db].
  by rewrite Hchapters.
Qed.

(** A row that is PENDING when a run starts that ends without an error
    is settled by it. *)
Lemma pending_is_settled store t id :
  keyed store ->
  exactIds (db (snd (ParserWrapper store))) ->
  fst (ParserWrapper store) = Normal tt ->
  statusOf t id store = Some PENDING ->
  settled (statusOf t id (db (snd (ParserWrapper store)))).
Proof.
  intros Hkeyed Hexact Hnormal Hpending.
  destruct (run_histories scrapeNovel scrapeChapter novelSession chapterSession setupError
              (fun _ => True) ltac:(done) ltac:(by right) ltac:(by right)
              store Hkeyed Hexact) as (_ & Hall & Hsettled & _).
  by apply Hsettled, Hall.
Qed.

End Run.

(** C9, witness: the store and the sites of [Sample], with sessions that
    need no renewal. *)
Lemma batch_run_witness :
  (lifecycle (historyOf Novels 2
                (writes (snd (ParserWrapper Sample.novelSite Sample.chapterSite
                                Sample.steadySessions Sample.steadySessions None
                                Sample.store)))) \/
   historyOf Novels 2
     (writes (snd (ParserWrapper Sample.novelSite Sample.chapterSite
                     Sample.steadySessions Sample.steadySessions None
                     Sample.store))) = refused) /\
  settled (statusOf Chapters 8
             (db (snd (ParserWrapper Sample.novelSite Sample.chapterSite
                         Sample.steadySessions Sample.steadySessions None
                         Sample.store)))).
Proof.
  destruct (batch_run_lifecycle Sample.novelSite Sample.chapterSite
              Sample.steadySessions Sample.steadySessions None Sample.store)
    as (_ & Hlife & _ & _ & Hsettled & _).
  - split; apply (bool_decide_unpack _); by vm_compute.
  - split; apply (bool_decide_unpack _); by vm_compute.
  - split; [apply Hlife|]. apply Hsettled. by vm_compute.
Defined.

(** C9, counterexample: the session of chapter 7 cannot be renewed when
    its turn comes.  The chapter was PENDING and selected, the run ends
    without an error, and the only write of the chapter is PENDING to
    ERROR: it was never PROCESSING. *)
Lemma refused_chapter_skips_processing :
  statusOf Chapters 7 Sample.store = Some PENDING /\
  fst (ParserWrapper Sample.novelSite Sample.chapterSite
         Sample.steadySessions Sample.chapterSessions None Sample.store) = Normal tt /\
  historyOf Chapters 7
    (writes (snd (ParserWrapper Sample.novelSite Sample.chapterSite
                    Sample.steadySessions Sample.chapterSessions None Sample.store)))
  = [(Some PENDING, ERROR)] /\
  ~ lifecycle
      (historyOf Chapters 7
         (writes (snd (ParserWrapper Sample.novelSite Sample.chapterSite
                         Sample.steadySessions Sample.chapterSessions None Sample.store)))).
Proof.
  assert (H : historyOf Chapters 7
    (writes (snd (ParserWrapper Sample.novelSite Sample.chapterSite
                    Sample.steadySessions Sample.chapterSessions None Sample.store)))
    = [(Some PENDING, ERROR)]) by by vm_compute.
  split; [by vm_compute|]. split; [by vm_compute|]. split; [exact H|].
  rewrite H. intros Hlife. inversion Hlife.
Qed.

(** X14, witness: the store and the sites of [Sample]. *)
Lemma nothing_pending_witness :
  getChaptersByStatus PENDING
    (db (snd (ParserWrapper Sample.novelSite Sample.chapterSite
                Sample.steadySessions Sample.chapterSessions None Sample.store))) = [].
Proof.
  destruct (run_leaves_nothing_pending Sample.novelSite Sample.chapterSite
              Sample.steadySessions Sample.chapterSessions None Sample.store)
    as (_ & H & _); [| | |exact H].
  - split; apply (bool_decide_unpack _); by vm_compute.
  - split; apply (bool_decide_unpack _); by vm_compute.
  - by vm_compute.
Defined.

End BatchFacts.

(** ** Cleaning extracted text *)

Module TextFacts.
Import JS JSFacts Text.

(** *** Pieces of [trim] and of the replacements *)

Lemma trimStart_head s : edge (head (trimStart s)).
Proof.
  induction s as [|c s IH]; simpl; [by intros ? [=]|].
  destruct (isWhiteSpace c) eqn:Hc; [done|]. by intros ? [= <-].
Qed.

Lemma trimStart_id s : edge (head s) -> trimStart s = s.
Proof. destruct s as [|c s]; simpl; [done|]. intros H. by rewrite (H c). Qed.

Lemma trimEnd_nil s : trimEnd s = [] <-> Forall (fun c => isWhiteSpace c = true) s.
Proof.
  induction s as [|c s IH]; simpl; [split; [constructor|done]|].
  destruct (trimEnd s) as [|k kept] eqn:Hk.
  - destruct (isWhiteSpace c) eqn:Hc.
    + split; [|done]. intros _. constructor; [done|]. by apply IH.
    + split; [done|]. intros H. apply Forall_cons in H as [H _]. congruence.
  - split; [done|]. intros H. apply Forall_cons in H as [_ H]. by apply IH in H.
Qed.

Lemma trimEnd_cons c s :
  trimEnd (c :: s) = if decide (trimEnd s = []) then (if isWhiteSpace c then [] else [c])
                     else c :: trimEnd s.
Proof. simpl. destruct (trimEnd s); by destruct (decide _). Qed.

Lemma trimEnd_last s : edge (last (trimEnd s)).
Proof.
  induction s as [|c s IH]; [by intros ? [=]|].
  rewrite trimEnd_cons. destruct (decide (trimEnd s = [])) as [Hnil|Hne].
  - destruct (isWhiteSpace c) eqn:Hc; [by intros ? [=]|]. by intros ? [= <-].
  - destruct (trimEnd s) as [|k kept]; [done|]. by rewrite last_cons_cons.
Qed.

Lemma trimEnd_head s : edge (head s) -> head (trimEnd s) = head s.
Proof.
  destruct s as [|c s]; [done|]. rewrite trimEnd_cons. intros H.
  destruct (decide _); [|done]. by rewrite (H c).
Qed.

Lemma trimEnd_id s : edge (last s) -> trimEnd s = s.
Proof.
  induction s as [|c s IH]; [done|]. intros H. rewrite trimEnd_cons.
  destruct s as [|c' s].
  - simpl. by rewrite (H c).
  - rewrite last_cons_cons in H. rewrite IH by done. by destruct (decide _).
Qed.

Lemma trimEnd_Forall (P : N -> Prop) s : Forall P s -> Forall P (trimEnd s).
Proof.
  induction 1 as [|c s Hc Hs IH]; [done|]. rewrite trimEnd_cons.
  destruct (decide _); [destruct (isWhiteSpace c); by repeat constructor | by constructor].
Qed.

Lemma trimStart_Forall (P : N -> Prop) s : Forall P s -> Forall P (trimStart s).
Proof.
  induction 1 as [|c s Hc Hs IH]; simpl; [done|]. destruct (isWhiteSpace c); [done | by constructor].
Qed.

Lemma trimStart_spacedOnce s : spacedOnce s -> spacedOnce (trimStart s).
Proof.
  induction s as [|c s IH]; simpl; [done|]. intros [Hc Hs].
  destruct (isWhiteSpace c) eqn:E; [by apply IH|]. split; [|done]. by rewrite E.
Qed.

Lemma trimEnd_spacedOnce s : spacedOnce s -> spacedOnce (trimEnd s).
Proof.
  induction s as [|c s IH]; [done|]. intros [Hc Hs]. rewrite trimEnd_cons.
  destruct (decide _) as [Hnil|Hne].
  - destruct (isWhiteSpace c); simpl; [done|]. split; [done|done].
  - split; [|by apply IH]. intros Hws c' Hhead.
    destruct s as [|k s]; [done|]. rewrite trimEnd_cons in Hhead, Hne.
    destruct (decide (trimEnd s = [])).
    + destruct (isWhiteSpace k) eqn:Hk; [done|]. by injection Hhead as <-.
    + injection Hhead as <-. by apply Hc.
Qed.

Lemma trim_visible s : List.filter visible (trim s) = List.filter visible s.
Proof.
  unfold trim.
  assert (Hend : forall u, List.filter visible (trimEnd u) = List.filter visible u).
  { induction u as [|c u IH]; [done|]. rewrite trimEnd_cons.
    destruct (decide (trimEnd u = [])) as [Hnil|Hne].
    - rewrite Hnil in IH. simpl in *. rewrite <- IH.
      unfold visible at 2. destruct (isWhiteSpace c) eqn:Hc; [done|]. simpl.
      unfold visible. by rewrite Hc.
    - simpl. by rewrite IH. }
  rewrite Hend. induction s as [|c s IH]; simpl; [done|].
  destruct (isWhiteSpace c) eqn:Hc; [|done]. unfold visible at 2. by rewrite Hc.
Qed.


Lemma strip_class class s : Forall (fun c => class c = false) (strip class s).
Proof.
  unfold strip. apply Forall_forall. intros c Hin.
  apply list_elem_of_In, filter_In in Hin as [_ Hc]. by apply negb_true_iff.
Qed.

Lemma strip_Forall (P : N -> Prop) class s : Forall P s -> Forall P (strip class s).
Proof.
  unfold strip. rewrite !Forall_forall. intros H c Hin. apply H.
  apply list_elem_of_In, filter_In in Hin as [Hin _]. by apply list_elem_of_In.
Qed.

Lemma strip_id class s : Forall (fun c => class c = false) s -> strip class s = s.
Proof.
  unfold strip. induction 1 as [|c s Hc Hs IH]; simpl; [done|]. by rewrite Hc, IH.
Qed.

Lemma strip_visible class s :
  (forall c, class c = true -> visible c = false) ->
  List.filter visible (strip class s) = List.filter visible s.
Proof.
  intros Hclass. unfold strip. induction s as [|c s IH]; simpl; [done|].
  destruct (class c) eqn:Hc; simpl; [by rewrite (Hclass c Hc) | by rewrite IH].
Qed.

Lemma collapse_head b s : edge (head s) -> collapse b s = collapse false s.
Proof. destruct s as [|c s]; simpl; [done|]. intros H. by rewrite (H c). Qed.

Lemma collapse_shape b s :
  Forall (fun c => invisible c = false) s ->
  Forall (fun c => invisible c = false /\ (isWhiteSpace c = true -> c = 32%N)) (collapse b s) /\
  spacedOnce (collapse b s) /\
  (b = true -> edge (head (collapse b s))).
Proof.
  intros Hs. revert b. induction Hs as [|c s Hc Hs IH]; intros b; simpl.
  - split; [done|]. split; [done|]. by intros _ ? [=].
  - destruct (isWhiteSpace c) eqn:Hws.
    + destruct (IH true) as (HF & HS & HE). destruct b; [done|].
      split; [by constructor|]. split; [|done]. simpl. split; [|done].
      intros _ c' Hhead. by apply HE.
    + destruct (IH false) as (HF & HS & _).
      split; [constructor; [split; [done | congruence] | done]|].
      split; [simpl; split; [congruence | done]|]. intros _ c' [= <-]. done.
Qed.

Lemma collapse_id s :
  Forall (fun c => isWhiteSpace c = true -> c = 32%N) s -> spacedOnce s -> collapse false s = s.
Proof.
  induction 1 as [|c s Hc Hs IH]; simpl; [done|]. intros [Hnext Hrest].
  destruct (isWhiteSpace c) eqn:Hws.
  - rewrite (Hc eq_refl). f_equal. rewrite collapse_head; [by apply IH|].
    intros c' Hhead. by apply Hnext.
  - f_equal. by apply IH.
Qed.

Lemma collapse_visible b s : List.filter visible (collapse b s) = List.filter visible s.
Proof.
  revert b. induction s as [|c s IH]; intros b; simpl; [done|].
  unfold visible at 2. destruct (isWhiteSpace c) eqn:Hws; simpl.
  - destruct b; simpl; by rewrite IH.
  - unfold visible at 1. rewrite Hws. simpl. by rewrite IH.
Qed.

Lemma spacedOnce_includes s :
  Forall (fun c => isWhiteSpace c = true -> c = 32%N) s ->
  (includes s (js "  ") = false <-> spacedOnce s).
Proof.
  induction 1 as [|c s Hc Hs IH]; [done|].
  cbn [includes spacedOnce]. rewrite orb_false_iff, IH.
  assert (Hstart : startsWith (c :: s) (js "  ") = false <->
            (isWhiteSpace c = true -> forall c', head s = Some c' -> isWhiteSpace c' = false)).
  { change (js "  ") with [32%N; 32%N]. cbn [startsWith].
    destruct s as [|c' s]; cbn [startsWith head].
    - rewrite andb_false_r. split; [by intros _ _ ? [=] | done].
    - rewrite andb_true_r. apply Forall_cons in Hs as [Hc' _]. split.
      + intros Hno Hws c'' [= <-]. apply not_true_is_false. intros Hws'.
        rewrite (Hc Hws), (Hc' Hws') in Hno. done.
      + intros Hnext. apply not_true_is_false. intros Hboth.
        apply andb_true_iff in Hboth as [H1 H2].
        apply N.eqb_eq in H1, H2. subst c c'.
        by specialize (Hnext eq_refl _ eq_refl). }
  by rewrite Hstart.
Qed.

(** *** [cleanText] *)

Lemma cleanText_stages text :
  text <> [] ->
  exists u, cleanText (Some text) = trim (collapse false u) /\
            Forall (fun c => invisible c = false) u /\
            List.filter visible u = List.filter visible text.
Proof.
  intros Hne. eexists. split; [unfold cleanText; by destruct text|]. split.
  - set (u0 := strip isZeroWidth text).
    pose proof (strip_class isZeroWidth text) as H0. fold u0 in H0.
    set (u1 := strip (N.eqb 173) u0).
    pose proof (strip_class (N.eqb 173) u0) as H1. fold u1 in H1.
    pose proof (strip_Forall _ (N.eqb 173) u0 H0) as H0'. fold u1 in H0'.
    set (u2 := strip (N.eqb 6158) u1).
    pose proof (strip_class (N.eqb 6158) u1) as H2. fold u2 in H2.
    pose proof (strip_Forall _ (N.eqb 6158) u1 H0') as H0''. fold u2 in H0''.
    pose proof (strip_Forall _ (N.eqb 6158) u1 H1) as H1'. fold u2 in H1'.
    set (u3 := strip (N.eqb 8288) u2).
    pose proof (strip_class (N.eqb 8288) u2) as H3. fold u3 in H3.
    pose proof (strip_Forall _ (N.eqb 8288) u2 H0'') as A. fold u3 in A.
    pose proof (strip_Forall _ (N.eqb 8288) u2 H1') as B. fold u3 in B.
    pose proof (strip_Forall _ (N.eqb 8288) u2 H2) as C. fold u3 in C.
    rewrite Forall_forall in *. intros c Hin. unfold invisible.
    specialize (A c Hin). specialize (B c Hin). specialize (C c Hin). specialize (H3 c Hin).
    cbv beta in *.
    by rewrite A, (N.eqb_sym c 173), B, (N.eqb_sym c 6158), C, (N.eqb_sym c 8288), H3.
  - rewrite !strip_visible; [done|..]; intros c Hc; unfold visible, invisible.
    + rewrite Hc. simpl. apply andb_false_r.
    + apply N.eqb_eq in Hc as <-. done.
    + apply N.eqb_eq in Hc as <-. done.
    + apply N.eqb_eq in Hc as <-. done.
Qed.

Lemma cleanText_tidy text :
  Forall (fun c => invisible c = false /\ (isWhiteSpace c = true -> c = 32%N)) (cleanText text) /\
  spacedOnce (cleanText text) /\
  edge (head (cleanText text)) /\ edge (last (cleanText text)).
Proof.
  destruct text as [[|c0 text]|]; try (split; [done|split; [done|split; by intros ? [=]]]).
  destruct (cleanText_stages (c0 :: text)) as (u & -> & Hu & _); [done|].
  destruct (collapse_shape false u Hu) as (HF & HS & _).
  unfold trim. split; [by apply trimEnd_Forall, trimStart_Forall|].
  split; [by apply trimEnd_spacedOnce, trimStart_spacedOnce|].
  split; [|apply trimEnd_last].
  rewrite trimEnd_head; apply trimStart_head.
Qed.

(** X18.  [cleanText] returns a text without zero-width characters, soft
    hyphens, U+180E and U+2060, whose only white space is the space
    U+0020, never two in a row and never at either end; cleaning a
    cleaned text changes nothing. *)
Theorem cleanText_normalises (text : option jsstring) :
  Forall (fun c => invisible c = false /\ (isWhiteSpace c = true -> c = 32%N)) (cleanText text) /\
  includes (cleanText text) (js "  ") = false /\
  (forall c, head (cleanText text) = Some c -> isWhiteSpace c = false) /\
  (forall c, last (cleanText text) = Some c -> isWhiteSpace c = false) /\
  cleanText (Some (cleanText text)) = cleanText text.
Proof.
  destruct (cleanText_tidy text) as (HF & HS & Hhead & Hlast).
  assert (Hws : Forall (fun c => isWhiteSpace c = true -> c = 32%N) (cleanText text)).
  { eapply Forall_impl; [exact HF|]. by intros c [_ ?]. }
  split; [done|]. split; [by apply spacedOnce_includes|]. split; [done|]. split; [done|].
  remember (cleanText text) as s eqn:Es. clear Es text.
  destruct s as [|c0 s']; [done|]. unfold cleanText. cbn [truthy negb].
  assert (Hclass : forall class, (forall c, class c = true -> invisible c = true) ->
                                 strip class (c0 :: s') = c0 :: s').
  { intros class Hclass. apply strip_id. eapply Forall_impl; [exact HF|].
    intros c' [Hinv _]. apply not_true_is_false. intros Hc'. apply Hclass in Hc'. congruence. }
  rewrite (Hclass isZeroWidth), (Hclass (N.eqb 173)), (Hclass (N.eqb 6158)), (Hclass (N.eqb 8288)).
  - rewrite collapse_id by done. unfold trim. rewrite trimStart_id by done. by apply trimEnd_id.
  - intros c' Hc'. apply N.eqb_eq in Hc' as <-. done.
  - intros c' Hc'. apply N.eqb_eq in Hc' as <-. done.
  - intros c' Hc'. apply N.eqb_eq in Hc' as <-. done.
  - intros c' Hc'. unfold invisible. by rewrite Hc'.
Qed.

(** X19.  [cleanText] keeps every character that is neither white space
    nor one of the invisible characters it deletes, in order, and adds
    none. *)
Theorem cleanText_keeps_what_is_visible (text : option jsstring) :
  List.filter visible (cleanText text) = List.filter visible (default [] text).
Proof.
  destruct text as [[|c0 text]|]; [done| |done].
  destruct (cleanText_stages (c0 :: text)) as (u & -> & _ & Hu); [done|].
  by rewrite trim_visible, collapse_visible.
Qed.

End TextFacts.

(** ** Chapter titles *)

Module TitleFacts.
Import JS Text Titles TextFacts.

Lemma watermarkAt_dash s n : watermarkAt s = Some n -> 45%N ∈ s.
Proof.
  unfold watermarkAt. destruct (drop (spaces s) s) as [|c s1] eqn:Hdrop; [done|].
  intros H. assert (c = 45%N) as ->.
  { destruct c as [|p]; [done|]. repeat (destruct p as [p|p|]; try done). }
  rewrite <- (take_drop (spaces s) s), Hdrop. apply elem_of_app. right. by left.
Qed.

Lemma removeWatermark_id s : 45%N ∉ s -> removeWatermark 0 s = s.
Proof.
  induction s as [|c s IH]; [done|]. intros Hno. cbn [removeWatermark].
  destruct (watermarkAt (c :: s)) as [n|] eqn:Hat; [by apply watermarkAt_dash in Hat|].
  f_equal. apply IH. intros Hin. apply Hno. by right.
Qed.

(** X20.  [cleanTitle] returns only ASCII letters, digits and spaces,
    beginning and ending with a letter or digit unless empty; cleaning a
    cleaned title changes nothing. *)
Theorem cleanTitle_normalises (title : option jsstring) :
  Forall (fun c => isAlnum c = true \/ c = 32%N) (cleanTitle title) /\
  (forall c, head (cleanTitle title) = Some c -> isAlnum c = true) /\
  (forall c, last (cleanTitle title) = Some c -> isAlnum c = true) /\
  cleanTitle (Some (cleanTitle title)) = cleanTitle title.
Proof.
  assert (Hshape : Forall (fun c => isAlnum c = true \/ c = 32%N) (cleanTitle title) /\
                   edge (head (cleanTitle title)) /\ edge (last (cleanTitle title))).
  { destruct title as [[|c0 title]|]; try (split; [done|split; by intros ? [=]]).
    unfold cleanTitle. cbn [truthy negb]. unfold trim. split; [|split].
    - apply trimEnd_Forall, trimStart_Forall, Forall_forall. intros c Hin.
      apply list_elem_of_In, in_map_iff in Hin as (c' & <- & _).
      destruct (isAlnum c') eqn:Hc'; [by left | by right].
    - rewrite trimEnd_head; apply trimStart_head.
    - apply trimEnd_last. }
  destruct Hshape as (HF & Hhead & Hlast).
  remember (cleanTitle title) as s eqn:Es. clear Es title.
  assert (Hedge : forall o : option N, (exists c, o = Some c /\ c ∈ s) \/ o = None ->
                    edge o -> forall c, o = Some c -> isAlnum c = true).
  { intros o Hin He c ->. destruct Hin as [(c' & [= <-] & Hin)|[=]].
    eapply Forall_forall in HF; [|exact Hin]. destruct HF as [?| ->]; [done|].
    by specialize (He _ eq_refl). }
  split; [done|]. split; [|split].
  - apply Hedge; [|done]. destruct s as [|c s]; [by right|]. left. exists c. split; [done | by left].
  - apply Hedge; [|done]. destruct (last s) as [c|] eqn:Hl; [|by right].
    left. exists c. split; [done|]. by apply last_Some_elem_of.
  - destruct s as [|c0 s']; [done|]. unfold cleanTitle. cbn [truthy negb].
    rewrite removeWatermark_id.
    + assert (Hmap : map (fun c => if isAlnum c then c else 32%N) (c0 :: s') = c0 :: s').
      { rewrite <- (map_id (c0 :: s')) at 2. apply map_ext_Forall.
        eapply Forall_impl; [exact HF|]. intros c [-> | ->]; done. }
      rewrite Hmap. unfold trim. rewrite trimStart_id by done. by apply trimEnd_id.
    + intros Hin. eapply Forall_forall in HF; [|exact Hin]. by destruct HF.
Qed.

End TitleFacts.

(** ** The table of contents *)

Module ContentsFacts.
Import JS Text Orchestrator Contents.

Lemma collectFrom_shape location index linkElements :
  Forall (fun l => wellFormed location (index + length linkElements) l /\
                   (Z.of_nat index < order l)%Z)
         (collectFrom location index linkElements) /\
  StronglySorted Z.lt (map order (collectFrom location index linkElements)).
Proof.
  revert index. induction linkElements as [|link rest IH]; intros index; simpl.
  - split; constructor.
  - destruct (IH (S index)) as [HF HS].
    assert (HF' : Forall (fun l => wellFormed location (index + S (length rest)) l /\
                                   (Z.of_nat index < order l)%Z)
                         (collectFrom location (S index) rest)).
    { eapply Forall_impl; [exact HF|]. intros l [(H1 & H2 & H3 & H4 & H5 & H6) Hlt].
      split; [|lia]. repeat split; try done; lia. }
    destruct (truthy (href link) && truthy (trim (innerText link))
              && negb (includes (href link) (js "#"))
              && negb (bool_decide (href link = location))) eqn:Hok; [|done].
    apply andb_true_iff in Hok as [Hok Hloc]. apply andb_true_iff in Hok as [Hok Hhash].
    apply andb_true_iff in Hok as [Hhref Htext].
    apply negb_true_iff in Hloc, Hhash. apply bool_decide_eq_false in Hloc.
    split.
    + constructor; [|done]. split; [|simpl; lia]. unfold wellFormed. simpl.
      split; [by destruct (href link)|]. split; [done|]. split; [done|].
      split; [by destruct (trim (innerText link))|]. split; [|lia].
      unfold trim. rewrite TextFacts.trimStart_id.
      * apply TextFacts.trimEnd_id, TextFacts.trimEnd_last.
      * rewrite TextFacts.trimEnd_head; apply TextFacts.trimStart_head.
    + simpl. constructor; [done|]. apply Forall_forall. intros o Hin.
      apply list_elem_of_In, in_map_iff in Hin as (l & <- & Hin).
      apply list_elem_of_In in Hin. eapply Forall_forall in HF; [|exact Hin]. lia.
Qed.

Lemma collectFrom_length location index linkElements :
  (length (collectFrom location index linkElements) <= length linkElements)%nat.
Proof.
  revert index. induction linkElements as [|link rest IH]; intros index; simpl; [done|].
  specialize (IH (S index)). destruct (_ && _); simpl; lia.
Qed.

Lemma findIndexFrom_seen url index pre rest :
  url ∈ map link_url pre ->
  (findIndexFrom url index (pre ++ rest) < Z.of_nat (index + length pre))%Z.
Proof.
  revert index. induction pre as [|c pre IH]; intros index Hin; simpl.
  - by apply elem_of_nil in Hin.
  - case_bool_decide as Hc; [lia|].
    apply elem_of_cons in Hin as [Heq|Hin]; [congruence|].
    specialize (IH (S index) Hin). lia.
Qed.

Lemma findIndexFrom_new url index pre rest :
  url ∉ map link_url pre ->
  findIndexFrom url index (pre ++ rest) = findIndexFrom url (index + length pre) rest.
Proof.
  revert index. induction pre as [|c pre IH]; intros index Hout; simpl.
  - by rewrite Nat.add_0_r.
  - apply not_elem_of_cons in Hout as [Hne Hout].
    case_bool_decide as Hc; [congruence|]. rewrite IH by done. f_equal. lia.
Qed.

Lemma firstsFrom_shape pre rest :
  sublist (firstsFrom (pre ++ rest) (length pre) rest) rest /\
  NoDup (map link_url (firstsFrom (pre ++ rest) (length pre) rest)) /\
  (forall l, l ∈ firstsFrom (pre ++ rest) (length pre) rest -> link_url l ∉ map link_url pre) /\
  (forall l, l ∈ rest -> link_url l ∉ map link_url pre ->
     link_url l ∈ map link_url (firstsFrom (pre ++ rest) (length pre) rest)).
Proof.
  revert pre. induction rest as [|ch rest IH]; intros pre; simpl.
  - split; [done|]. split; [constructor|]. split; intros l Hin; by apply elem_of_nil in Hin.
  - specialize (IH (pre ++ [ch])). rewrite <- app_assoc, length_app in IH. simpl in IH.
    replace (length pre + 1)%nat with (S (length pre)) in IH by lia.
    destruct IH as (Hsub & Hnd & Hnew & Hall).
    destruct (decide (link_url ch ∈ map link_url pre)) as [Hseen|Hfresh].
    + pose proof (findIndexFrom_seen (link_url ch) 0 pre (ch :: rest) Hseen) as Hlt.
      simpl in Hlt. destruct (Z.eqb_spec (findIndexFrom (link_url ch) 0 (pre ++ ch :: rest))
                                         (Z.of_nat (length pre))) as [Heq|_]; [lia|].
      split; [by apply sublist_cons|]. split; [done|]. split.
      * intros l Hin Hpre. apply (Hnew l Hin). rewrite map_app. apply elem_of_app. by left.
      * intros l Hin Hout. apply elem_of_cons in Hin as [->|Hin]; [done|].
        apply Hall; [done|]. rewrite map_app. intros Hin'.
        apply elem_of_app in Hin' as [Hin'|Hin']; [done|].
        apply list_elem_of_singleton in Hin'. simpl in Hin'. congruence.
    + rewrite (findIndexFrom_new _ 0 pre (ch :: rest) Hfresh). simpl.
      rewrite bool_decide_eq_true_2 by done. rewrite Z.eqb_refl.
      split; [by apply sublist_skip|]. split.
      * simpl. apply NoDup_cons. split; [|done]. intros Hin.
        apply list_elem_of_In, in_map_iff in Hin as (l & Hl & Hin).
        apply list_elem_of_In in Hin. apply (Hnew l Hin).
        rewrite map_app, Hl. apply elem_of_app. right. by left.
      * split.
        -- intros l Hin. apply elem_of_cons in Hin as [->|Hin]; [done|].
           intros Hpre. apply (Hnew l Hin). rewrite map_app. apply elem_of_app. by left.
        -- intros l Hin Hout. simpl. apply elem_of_cons in Hin as [->|Hin]; [by left|].
           destruct (decide (link_url l = link_url ch)) as [->|Hne]; [by left|].
           right. apply Hall; [done|]. rewrite map_app. intros Hin'.
           apply elem_of_app in Hin' as [Hin'|Hin']; [done|].
           apply list_elem_of_singleton in Hin'. simpl in Hin'. congruence.
Qed.

Lemma StronglySorted_sublist (l1 l2 : list Z) :
  sublist l1 l2 -> StronglySorted Z.lt l2 -> StronglySorted Z.lt l1.
Proof.
  induction 1 as [|x l1 l2 Hsub IH|x l1 l2 Hsub IH]; intros Hs; [done| |].
  - apply StronglySorted_inv in Hs as [Hs Hx]. constructor; [by apply IH|].
    rewrite Forall_forall in *. intros y Hy. apply Hx. by eapply elem_of_sublist.
  - apply StronglySorted_inv in Hs as [Hs _]. by apply IH.
Qed.

(** X21.  The links [extractTableOfContents] returns have pairwise distinct
    urls and strictly increasing [order]s from 1 on; each has a non-empty
    url without [#] that is not the page's own, and a non-empty trimmed
    title.  When the page yields its link elements, there are at most as
    many links as elements, no [order] exceeds their number, and every
    url the filter of the elements lets through is the url of a link. *)
Theorem tableOfContents_links_are_distinct location linkElements :
  let links := extractTableOfContents location linkElements in
  NoDup (map link_url links) /\
  StronglySorted Z.lt (map order links) /\
  Forall (fun l =>
            link_url l <> [] /\ includes (link_url l) (js "#") = false /\
            link_url l <> location /\ link_title l <> [] /\
            trim (link_title l) = link_title l /\ (1 <= order l)%Z) links /\
  (forall anchors, linkElements = Normal anchors ->
     (length links <= length anchors)%nat /\
     Forall (fun l => (order l <= Z.of_nat (length anchors))%Z) links /\
     forall l, l ∈ collectFrom location 0 anchors -> link_url l ∈ map link_url links).
Proof.
  cbv zeta. destruct linkElements as [anchors|error]; simpl.
  2:{ split; [constructor|]. split; [constructor|]. split; [constructor|]. done. }
  destruct (collectFrom_shape location 0 anchors) as [HF HS].
  destruct (firstsFrom_shape [] (collectFrom location 0 anchors)) as (Hsub & Hnd & _ & Hall).
  simpl in Hsub, Hnd, Hall.
  set (all := collectFrom location 0 anchors) in *.
  set (links := firstsFrom all 0 all) in *.
  assert (HF' : Forall (fun l => wellFormed location (length anchors) l) links).
  { apply Forall_forall. intros l Hin. eapply elem_of_sublist in Hin; [|exact Hsub].
    eapply Forall_forall in HF; [|exact Hin]. by destruct HF. }
  split; [done|]. split.
  { eapply StronglySorted_sublist; [|exact HS]. by apply (fmap_sublist order). }
  split.
  { eapply Forall_impl; [exact HF'|]. intros l (H1 & H2 & H3 & H4 & H5 & H6).
    repeat split; try done; lia. }
  intros ? [= <-]. split; [|split].
  - apply sublist_length in Hsub. pose proof (collectFrom_length location 0 anchors). fold all in H. lia.
  - eapply Forall_impl; [exact HF'|]. intros l (_ & _ & _ & _ & _ & H6). lia.
  - intros l Hin. apply Hall; [done|]. apply not_elem_of_nil.
Qed.

End ContentsFacts.

(** ** File names and markup *)

Module FileFacts.
Import JS JSFacts Text Titles Files.

Lemma safeFontName_chars fontFamily : Forall (fun c => isSmallOrDigit c = true) (safeFontName fontFamily).
Proof.
  unfold safeFontName. rewrite map_map. apply Forall_forall. intros c Hin.
  apply list_elem_of_In, in_map_iff in Hin as (c' & <- & _).
  destruct (isAlnum c') eqn:Hc'; [|done].
  unfold isAlnum in Hc'. unfold lower, isSmallOrDigit.
  destruct ((65 <=? c') && (c' <=? 90))%N eqn:Hup.
  - apply andb_true_iff in Hup as [H1 H2]. apply N.leb_le in H1, H2.
    apply orb_true_iff. left. apply orb_true_iff. right.
    apply andb_true_iff. split; apply N.leb_le; lia.
  - rewrite orb_false_r in Hc'. by rewrite Hc'.
Qed.

Lemma safeFontName_id s : Forall (fun c => isSmallOrDigit c = true) s -> safeFontName s = s.
Proof.
  unfold safeFontName. rewrite map_map. induction 1 as [|c s Hc Hs IH]; simpl; [done|].
  rewrite IH. f_equal. unfold isSmallOrDigit in Hc. unfold isAlnum, lower.
  apply orb_true_iff in Hc as [Hc| ->%N.eqb_eq]; [|done].
  apply orb_true_iff in Hc as [Hc|Hc]; apply andb_true_iff in Hc as [H1 H2];
    pose proof H1 as H1'; pose proof H2 as H2'; apply N.leb_le in H1', H2'.
  - rewrite H1, H2. simpl.
    destruct ((65 <=? c) && (c <=? 90))%N eqn:Hup; [|done].
    apply andb_true_iff in Hup as [H3 _]. apply N.leb_le in H3. lia.
  - rewrite H1, H2, !orb_true_r.
    destruct ((65 <=? c) && (c <=? 90))%N eqn:Hup; [|done].
    apply andb_true_iff in Hup as [_ H4]. apply N.leb_le in H4. lia.
Qed.

(** X22.  The name a downloaded font is stored under is the family name
    with every character that is no ASCII letter or digit replaced by an
    underscore, in small letters, followed by a dot and one of the four
    extensions; it has the length of the family name plus the extension,
    contains no slash, no backslash and no two dots in a row, and naming
    a name again changes nothing. *)
Theorem stored_font_filename_is_plain fontFamily fontFormat :
  length (safeFontName fontFamily) = length fontFamily /\
  Forall (fun c => isSmallOrDigit c = true) (safeFontName fontFamily) /\
  safeFontName (safeFontName fontFamily) = safeFontName fontFamily /\
  (exists extension,
     extension ∈ [js "woff2"; js "woff"; js "ttf"; js "otf"] /\
     filename fontFamily fontFormat = safeFontName fontFamily ++ js "." ++ extension) /\
  Forall (fun c => c <> 47%N /\ c <> 92%N) (filename fontFamily fontFormat) /\
  includes (filename fontFamily fontFormat) (js "..") = false.
Proof.
  pose proof (safeFontName_chars fontFamily) as Hchars.
  split; [unfold safeFontName; by rewrite !length_map|]. split; [done|].
  split; [by apply safeFontName_id|]. split.
  { exists (formatName (default woff2 fontFormat)). split; [|done].
    destruct fontFormat as [[]|]; in_list. }
  assert (Hplain : Forall (fun c => c <> 47%N /\ c <> 92%N /\ c <> 46%N) (safeFontName fontFamily)).
  { eapply Forall_impl; [exact Hchars|]. intros c Hc.
    repeat split; intros ->; by vm_compute in Hc. }
  split.
  - unfold filename. apply Forall_app. split.
    + eapply Forall_impl; [exact Hplain|]. by intros c (? & ? & ?).
    + destruct fontFormat as [[]|]; simpl; repeat constructor; done.
  - unfold filename. clear Hchars. induction Hplain as [|c s (_ & _ & Hc) Hs IH].
    + by destruct fontFormat as [[]|].
    + cbn [app includes]. rewrite IH, orb_false_r.
      change (js "..") with [46%N; 46%N]. cbn [startsWith].
      apply andb_false_iff. left. apply N.eqb_neq. congruence.
Qed.


(** *** Markup *)

Lemma entity_cases c :
  (c = 60%N /\ entity c = Some (js "&lt;")) \/
  (c = 62%N /\ entity c = Some (js "&gt;")) \/
  (c = 38%N /\ entity c = Some (js "&amp;")) \/
  (c = 39%N /\ entity c = Some (js "&apos;")) \/
  (c = 34%N /\ entity c = Some (js "&quot;")) \/
  (entity c = None /\ c <> 60%N /\ c <> 62%N /\ c <> 38%N /\ c <> 39%N /\ c <> 34%N).
Proof.
  unfold entity.
  destruct (N.eqb_spec c 60); [by left|]. destruct (N.eqb_spec c 62); [right; by left|].
  destruct (N.eqb_spec c 38); [right; right; by left|].
  destruct (N.eqb_spec c 39); [right; right; right; by left|].
  destruct (N.eqb_spec c 34); [right; right; right; right; by left|].
  by repeat right.
Qed.

Lemma escapeXml_flat unsafe :
  escapeXml (Some unsafe) = flat_map (fun c => default [c] (entity c)) unsafe.
Proof. by destruct unsafe. Qed.

Lemma escaped_prefix c1 c2 (x y : jsstring) :
  default [c1] (entity c1) ++ x = default [c2] (entity c2) ++ y -> c1 = c2 /\ x = y.
Proof.
  destruct (entity_cases c1) as [[-> ->]|[[-> ->]|[[-> ->]|[[-> ->]|[[-> ->]|(-> & H1)]]]]];
  destruct (entity_cases c2) as [[-> ->]|[[-> ->]|[[-> ->]|[[-> ->]|[[-> ->]|(-> & H2)]]]]];
    cbn; intros Heq; try discriminate Heq;
    try (injection Heq as Heq; by subst);
    try (injection Heq as Hc _; exfalso; subst; tauto).
Qed.

(** X23.  [escapeXml] returns no less-than, greater-than, apostrophe or
    double quote, and is injective: two different texts never have the
    same escaped text. *)
Theorem escapeXml_is_safe_and_lossless :
  (forall unsafe,
     Forall (fun c => c <> 60%N /\ c <> 62%N /\ c <> 39%N /\ c <> 34%N) (escapeXml unsafe)) /\
  (forall text1 text2, escapeXml (Some text1) = escapeXml (Some text2) -> text1 = text2).
Proof.
  split.
  - intros [unsafe|]; [|constructor]. rewrite escapeXml_flat.
    induction unsafe as [|c rest IH]; [constructor|]. cbn [flat_map]. apply Forall_app.
    split; [|done].
    destruct (entity_cases c) as [[-> ->]|[[-> ->]|[[-> ->]|[[-> ->]|[[-> ->]|(-> & H)]]]]];
      cbn; repeat constructor; (done || tauto).
  - intros text1 text2. rewrite !escapeXml_flat. revert text2.
    induction text1 as [|c1 rest1 IH]; intros [|c2 rest2]; cbn [flat_map]; [done| | |].
    + intros Heq. destruct (entity_cases c2)
        as [[-> Hc]|[[-> Hc]|[[-> Hc]|[[-> Hc]|[[-> Hc]|(Hc & _)]]]]];
        rewrite Hc in Heq; discriminate Heq.
    + intros Heq. destruct (entity_cases c1)
        as [[-> Hc]|[[-> Hc]|[[-> Hc]|[[-> Hc]|[[-> Hc]|(Hc & _)]]]]];
        rewrite Hc in Heq; discriminate Heq.
    + intros Heq. apply escaped_prefix in Heq as [-> Heq]. f_equal. by apply IH.
Qed.

(** *** File names *)

Lemma squeeze_shape (P : N -> Prop) b s :
  P 95%N -> Forall P s ->
  Forall P (squeeze b s) /\ underscoredOnce (squeeze b s) /\
  (b = true -> head (squeeze b s) <> Some 95%N) /\
  (length (squeeze b s) <= length s)%nat.
Proof.
  intros H95 Hs. revert b. induction Hs as [|c s Hc Hs IH]; intros b; simpl.
  - split; [done|]. split; [done|]. split; [by intros _ [=] | done].
  - destruct (N.eqb_spec c 95) as [->|Hne].
    + destruct (IH true) as (HF & HU & HE & HL). destruct b.
      * split; [done|]. split; [done|]. split; [auto | lia].
      * split; [by constructor|]. split; [simpl; auto|]. split; [done | simpl; lia].
    + destruct (IH false) as (HF & HU & _ & HL).
      split; [by constructor|]. split; [simpl; split; [done | done]|].
      split; [intros _ [=]; done | simpl; lia].
Qed.

Lemma squeeze_head b s : head s <> Some 95%N -> squeeze b s = squeeze false s.
Proof.
  destruct s as [|c s]; simpl; [done|]. intros H.
  destruct (N.eqb_spec c 95) as [->|Hne]; done.
Qed.

Lemma squeeze_id s : underscoredOnce s -> squeeze false s = s.
Proof.
  induction s as [|c s IH]; simpl; [done|]. intros [Hnext Hrest].
  destruct (N.eqb_spec c 95) as [->|Hne].
  - f_equal. rewrite squeeze_head by auto. by apply IH.
  - f_equal. by apply IH.
Qed.

Lemma underscoredOnce_includes s : underscoredOnce s -> includes s (js "__") = false.
Proof.
  induction s as [|c s IH]; [done|]. intros [Hnext Hrest].
  cbn [includes]. rewrite IH, orb_false_r by done.
  change (js "__") with [95%N; 95%N]. cbn [startsWith].
  destruct s as [|c' s]; cbn [startsWith]; [apply andb_false_r|]. rewrite andb_true_r.
  apply andb_false_iff. destruct (N.eqb_spec 95 c) as [<-|Hne]; [right|by left].
  apply N.eqb_neq. intros <-. by apply Hnext.
Qed.

(** X24.  [sanitizeFilename] returns only ASCII letters, digits, hyphens,
    underscores, dots and spaces, hence no slash or backslash, never two
    underscores in a row and never more characters than the name;
    sanitizing a sanitized name changes nothing. *)
Theorem sanitizeFilename_is_a_plain_name (name : jsstring) :
  Forall (fun c => isFileChar c = true) (sanitizeFilename name) /\
  Forall (fun c => c <> 47%N /\ c <> 92%N) (sanitizeFilename name) /\
  includes (sanitizeFilename name) (js "__") = false /\
  (length (sanitizeFilename name) <= length name)%nat /\
  sanitizeFilename (sanitizeFilename name) = sanitizeFilename name.
Proof.
  unfold sanitizeFilename.
  set (mapped := map (fun c => if isFileChar c then c else 95%N) name).
  assert (Hmapped : Forall (fun c => isFileChar c = true) mapped).
  { apply Forall_forall. intros c Hin.
    apply list_elem_of_In, in_map_iff in Hin as (c' & <- & _).
    by destruct (isFileChar c') eqn:Hc'. }
  destruct (squeeze_shape (fun c => isFileChar c = true) false mapped eq_refl Hmapped)
    as (HF & HU & _ & HL).
  split; [done|]. split.
  { eapply Forall_impl; [exact HF|]. intros c Hc. split; intros ->; by vm_compute in Hc. }
  split; [by apply underscoredOnce_includes|].
  split; [unfold mapped in HL; by rewrite length_map in HL|].
  assert (Hid : map (fun c => if isFileChar c then c else 95%N) (squeeze false mapped)
                = squeeze false mapped).
  { rewrite <- (map_id (squeeze false mapped)) at 2. apply map_ext_Forall.
    eapply Forall_impl; [exact HF|]. intros c Hc. by rewrite Hc. }
  rewrite Hid. by apply squeeze_id.
Qed.

End FileFacts.

(** ** Adding a novel *)

Module ApiFacts.
Import JS Text Orchestrator OrchestratorFacts Api.

Lemma nextNovelId_fresh d : nextNovelId d ∉ map novel_id (novels d).
Proof. intros Hin. apply max_bound in Hin. unfold nextNovelId in Hin. lia. Qed.

Lemma existsb_novel_url url (rows : list Novel) :
  existsb (fun n => bool_decide (novel_url n = url)) rows = true <-> url ∈ map novel_url rows.
Proof.
  induction rows as [|n rows IH]; simpl.
  - split; [done | intros H; by apply elem_of_nil in H].
  - rewrite orb_true_iff, IH, elem_of_cons, bool_decide_eq_true. split.
    + intros [<-|?]; [by left | by right].
    + intros [->|?]; [by left | by right].
Qed.

Section Route.
Variable parses : jsstring -> bool.

Lemma added_pending url d : statusOf Novels (nextNovelId d) (added url d) = Some PENDING.
Proof.
  unfold statusOf, added. cbn [novels]. rewrite find_snoc. cbn [novel_id].
  destruct (find _ (novels d)) as [n|] eqn:Hfind.
  - apply (find_key novel_id) in Hfind as [Hid Hin].
    destruct (nextNovelId_fresh d). rewrite <- Hid.
    apply list_elem_of_In, in_map. by apply list_elem_of_In.
  - by rewrite Z.eqb_refl.
Qed.

Lemma added_keyed url d : keyed d -> keyed (added url d).
Proof.
  intros [Hn Hc]. split; [|done]. unfold added. cbn [novels]. rewrite map_app. simpl.
  apply NoDup_app. split; [done|]. split; [|apply NoDup_singleton].
  intros x Hin Hx. apply list_elem_of_singleton in Hx as ->.
  by apply nextNovelId_fresh in Hin.
Qed.

Lemma POST_created url d :
  url <> [] -> parses url = true -> (stored url ∉ map novel_url (novels d)) ->
  POST parses (Normal (Some url)) d =
  ({| code := 201; novelId := Some (toNumber (nextNovelId d)); error := None |}, added url d).
Proof.
  intros Hne Hparses Hnew. unfold POST, insertNovel.
  destruct url as [|c0 url0]; [done|]. cbn [truthy negb]. rewrite Hparses. cbn [negb].
  destruct (existsb _ (novels d)) eqn:Hold; [|done].
  by apply existsb_novel_url in Hold.
Qed.

Lemma POST_known url d :
  url <> [] -> parses url = true -> stored url ∈ map novel_url (novels d) ->
  POST parses (Normal (Some url)) d = (refuse 409 "This URL already exists in the database", d).
Proof.
  intros Hne Hparses Hold. unfold POST, insertNovel.
  destruct url as [|c0 url0]; [done|]. cbn [truthy negb]. rewrite Hparses. cbn [negb].
  apply existsb_novel_url in Hold. unfold stored in Hold. by rewrite Hold.
Qed.

Lemma POST_refused body d :
  ~ (exists url, body = Normal (Some url) /\ url <> [] /\ parses url = true /\
                 (stored url ∉ map novel_url (novels d))) ->
  code (fst (POST parses body d)) <> 201%Z /\ snd (POST parses body d) = d.
Proof.
  intros Hno. destruct body as [[url|]|e]; [|done|done].
  destruct (decide (url = [])) as [->|Hne]; [done|].
  destruct (parses url) eqn:Hparses.
  2:{ unfold POST. destruct url; [done|]. cbn [truthy negb]. by rewrite Hparses. }
  destruct (decide (stored url ∈ map novel_url (novels d))) as [Hold|Hnew].
  - by rewrite POST_known.
  - destruct Hno. by exists url.
Qed.

Lemma classic_created body d :
  (exists url, body = Normal (Some url) /\ url <> [] /\ parses url = true /\
               (stored url ∉ map novel_url (novels d))) \/
  ~ (exists url, body = Normal (Some url) /\ url <> [] /\ parses url = true /\
                 (stored url ∉ map novel_url (novels d))).
Proof.
  destruct body as [[url|]|e]; [|right; by intros (? & [=] & _)..].
  destruct (decide (url = [])) as [->|Hne]; [right; by intros (? & [= <-] & ? & _)|].
  destruct (parses url) eqn:Hparses; [|right; intros (? & [= <-] & _ & ? & _); congruence].
  destruct (decide (stored url ∈ map novel_url (novels d))) as [Hold|Hnew].
  - right. by intros (? & [= <-] & _ & _ & ?).
  - left. by exists url.
Qed.

(** X25.  [POST /api/novels] answers 201 exactly when the body carries a
    non-empty string url that parses and whose stored form (trimmed, and
    well-formed as the UTF-8 column holds it) is not stored.  It then
    appends one novel with a fresh id, that url, no title and the status
    PENDING, touches nothing else and answers with the id as JavaScript
    reads it; the same request again is answered 409 and changes
    nothing.  Every other answer leaves the store as it is. *)
Theorem POST_adds_one_pending_novel body d :
  (code (fst (POST parses body d)) = 201%Z <->
   exists url, body = Normal (Some url) /\ url <> [] /\ parses url = true /\
               (stored url ∉ map novel_url (novels d))) /\
  (code (fst (POST parses body d)) <> 201%Z -> snd (POST parses body d) = d) /\
  (code (fst (POST parses body d)) = 201%Z ->
   exists url id,
     body = Normal (Some url) /\
     novelId (fst (POST parses body d)) = Some (toNumber id) /\
     (id ∉ map novel_id (novels d)) /\
     novels (snd (POST parses body d)) =
       novels d ++ [{| novel_id := id; novel_url := toWellFormed (trim url);
                       novel_title := None;
                       total_chapters := 0; novel_status := PENDING |}] /\
     chapters (snd (POST parses body d)) = chapters d /\
     statusOf Novels id (snd (POST parses body d)) = Some PENDING /\
     (keyed d -> keyed (snd (POST parses body d))) /\
     code (fst (POST parses body (snd (POST parses body d)))) = 409%Z /\
     snd (POST parses body (snd (POST parses body d))) = snd (POST parses body d)).
Proof.
  destruct (classic_created body d) as [(url & -> & Hne & Hparses & Hnew) | Hno].
  - rewrite (POST_created url d Hne Hparses Hnew). cbn [fst snd code novelId].
    split; [split; [intros _; by exists url | done]|]. split; [done|].
    intros _. exists url, (nextNovelId d).
    split; [done|]. split; [done|]. split; [apply nextNovelId_fresh|].
    split; [done|]. split; [done|]. split; [apply added_pending|].
    split; [apply added_keyed|].
    rewrite POST_known; [done | done | done |].
    unfold added. cbn [novels]. rewrite map_app. apply elem_of_app. right. by left.
  - destruct (POST_refused body d Hno) as [Hcode Hsame].
    split; [split; [done | by intros H; destruct Hno]|]. split; [done|]. done.
Qed.

(** X26.  A novel added by a request answered 201 is taken up by the next
    run of [ParserWrapper]: when that run ends without an error, over ids
    that JavaScript reads exactly (those of the chapters it adds
    included), it leaves the novel in SUCCESS or ERROR. *)
Theorem added_novel_is_processed_by_the_next_run
    scrapeNovel scrapeChapter novelSession chapterSession setupError body d id :
  keyed d ->
  code (fst (POST parses body d)) = 201%Z ->
  novelId (fst (POST parses body d)) = Some id ->
  let run := Batch.ParserWrapper scrapeNovel scrapeChapter novelSession chapterSession
               setupError (snd (POST parses body d)) in
  Batch.exactIds (db (snd run)) ->
  fst run = Normal tt ->
  settled (statusOf Novels id (db (snd run))).
Proof.
  intros Hkeyed Hcode Hid. cbv zeta.
  destruct (classic_created body d) as [(url & -> & Hne & Hparses & Hnew) | Hno].
  2:{ by destruct (POST_refused body d Hno). }
  rewrite (POST_created url d Hne Hparses Hnew) in *. cbn [fst snd novelId] in *.
  intros Hexact Hnormal.
  assert (Hexact0 : Batch.exactIds (added url d)).
  { eapply BatchFacts.exactIds_extends; [apply BatchFacts.extends_batch_run | exact Hexact]. }
  assert (Hsame : toNumber (nextNovelId d) = nextNovelId d).
  { destruct Hexact0 as [Hn _]. unfold added in Hn. cbn [novels] in Hn.
    apply Forall_app in Hn as [_ Hn]. by apply Forall_inv in Hn. }
  rewrite Hsame in Hid. injection Hid as <-.
  apply BatchFacts.pending_is_settled; [|done|done|apply added_pending].
  apply added_keyed, Hkeyed.
Qed.

End Route.


(** X26, witness: a fourth novel is added to [Sample.store]. *)
Lemma added_novel_witness :
  settled (statusOf Novels 4
             (db (snd (Batch.ParserWrapper Sample.novelSite Sample.chapterSite
                         Sample.steadySessions Sample.steadySessions None
                         (snd (POST (fun _ => true)
                                    (Normal (Some (js " https://example.org/novel/4 ")))
                                    Sample.store)))))).
Proof.
  apply (added_novel_is_processed_by_the_next_run (fun _ => true)
           Sample.novelSite Sample.chapterSite Sample.steadySessions Sample.steadySessions
           None (Normal (Some (js " https://example.org/novel/4 "))) Sample.store 4).
  - split; apply (bool_decide_unpack _); by vm_compute.
  - by vm_compute.
  - by vm_compute.
  - split; apply (bool_decide_unpack _); by vm_compute.
  - by vm_compute.
Defined.

End ApiFacts.
